(** * Referral engine: tiered earnings over a referrer chain

    A shallow embedding of the referral system (class [ReferralSystem]), of
    the IndexedDB storage manager it is built on (class [StorageManager]) and
    of the registration of users (class [AuthManager], [register] and
    [createAdminUser]).

    Conventions of the embedding:
    - JavaScript numbers that hold levels and timestamps are integers of
      [Z]; counters that start at 0 and only grow are [nat].
    - The amounts are JavaScript numbers too, doubles.  The program makes
      every amount from 0 and the rewards by [+], so that they are integers:
      a double that holds an integer is taken as that integer of [Z], and
      [+] and [-] on amounts round as they do on doubles ([Number_add],
      [Number_sub]).  Amounts beyond the largest double, where the code has
      [Infinity], are not looked at.
    - JavaScript strings are [string], taken as strings of ASCII characters;
      [null] and [undefined] are [None].
    - An [async] method is a function from the world (the two object stores
      and the position in the three streams the environment supplies) to an
      outcome and the world it leaves.  A promise is fulfilled, rejected, or
      never settles; the last one is what a loop that ran out of [fuel]
      stands for.
    - [Date.now()], [Math.random()], the SHA-256 digest, the failures of
      IndexedDB requests and the messages of its errors are not computed by
      the program: the environment gives them. *)

From Stdlib Require Import ZArith List Lia.
From stdpp Require Import base tactics option list relations gmap strings pretty.

Local Open Scope string_scope.
Local Open Scope list_scope.
Local Open Scope Z_scope.

(** ** Data model *)

Module EarningsByLevel.
Record t : Type := mk {
  level1 : Z;
  level2 : Z;
  level3 : Z;
  level4Plus : Z
}.
End EarningsByLevel.

Module User.
(** [referredBy] is [null] for a root user, else the referral code of the
    referrer. *)
Record t : Type := mk {
  id : string;
  username : string;
  email : string;
  passwordHash : string;
  referralCode : string;
  referredBy : option string;
  isAdmin : bool;
  createdAt : Z;
  totalEarnings : Z;
  earningsByLevel : EarningsByLevel.t
}.
End User.

Module Referral.
Record t : Type := mk {
  id : string;
  referrerId : string;
  referredId : string;
  level : Z;
  earnings : Z;
  createdAt : Z
}.
End Referral.

(** ** Numbers

    A double has 53 bits for its significand.  An integer of up to 53 bits
    is a double; of a longer one the bits after the 53rd are rounded away,
    to the nearer of the two doubles around it, and to the one whose
    significand is even when the two are as near. *)
Definition to_double (z : Z) : Z :=
  let exponent := Z.log2 (Z.abs z) - 52 in
  if exponent <=? 0 then z
  else
    let ulp := 2 ^ exponent in
    let below := z `div` ulp * ulp in
    let rest := z `mod` ulp in
    if 2 * rest <? ulp then below
    else if ulp <? 2 * rest then below + ulp
    else if Z.even (z `div` ulp) then below
    else below + ulp.

(** [x + y] and [x - y] of two amounts. *)
Definition Number_add (x y : Z) : Z := to_double (x + y).
Definition Number_sub (x y : Z) : Z := to_double (x - y).

(** The integers from which on [+] may round: [2 ^ 53]. *)
Definition MAX_EXACT : Z := 2 ^ 53.

(** [this.rewardStructure] of the constructor. *)
Module rewardStructure.
Definition level1 : Z := 100.
Definition level2 : Z := 60.
Definition level3 : Z := 40.
Definition level4Plus : Z := 20.
End rewardStructure.

(** A thrown value: every value thrown here is an [Error] or a
    [DOMException], both of which carry a name and a message. *)
Record JsError : Type := mkError {
  name : string;
  message : string
}.

Definition Error (msg : string) : JsError := mkError "Error" msg.

(** JavaScript truthiness of a value that is [null] or a string: the empty
    string is falsy. *)
Definition truthy (v : option string) : option string :=
  match v with
  | Some EmptyString => None
  | _ => v
  end.

(** ** The environment and the world *)

Record Environment : Type := mkEnvironment {
  (** the value of the n-th call of [Date.now()] *)
  clock : nat → Z;
  (** [Math.random().toString(36).substr(2, 9)] at the n-th call of
      [Math.random()] *)
  entropy : nat → string;
  (** [Math.floor(Math.random() * n)] at the k-th call of [Math.random()] *)
  scaled : nat → nat → nat;
  (** the hexadecimal SHA-256 digest that [crypto.subtle] computes *)
  sha256_hex : string → string;
  (** whether the n-th IndexedDB request fires [onerror], and its
      [request.error] *)
  storage_fault : nat → option JsError;
  (** the message of [request.error] when the request that is the n-th made
      breaks a constraint of its store: the text is the implementation's *)
  constraint_message : nat → string
}.

(** [request.error] of a [store.add] whose key is in the store already, and
    of an [add] or [put] that would break a unique index: a
    [ConstraintError], the request being the [n]-th made. *)
Definition ConstraintError (env : Environment) (n : nat) : JsError :=
  mkError "ConstraintError" (constraint_message env n).

(** The two object stores, each listed in the order of its keys (the order of
    [getAll]), and how far the three streams have been read. *)
Record World : Type := mkWorld {
  users : list User.t;
  referrals : list Referral.t;
  ticks : nat;
  draws : nat;
  requests : nat
}.

Definition set_users (l : list User.t) (w : World) : World :=
  mkWorld l (referrals w) (ticks w) (draws w) (requests w).
Definition set_referrals (l : list Referral.t) (w : World) : World :=
  mkWorld (users w) l (ticks w) (draws w) (requests w).
Definition next_request (w : World) : World :=
  mkWorld (users w) (referrals w) (ticks w) (draws w) (S (requests w)).

Inductive Outcome (A : Type) : Type :=
  | Fulfilled (a : A)
  | Rejected (e : JsError)
  | Pending.
Arguments Fulfilled {A} a.
Arguments Rejected {A} e.
Arguments Pending {A}.

Definition Async (A : Type) : Type := World → Outcome A * World.

#[global] Instance async_ret : MRet Async := λ A a w, (Fulfilled a, w).
#[global] Instance async_bind : MBind Async := λ A B k m w,
  match m w with
  | (Fulfilled a, w') => k a w'
  | (Rejected e, w') => (Rejected e, w')
  | (Pending, w') => (Pending, w')
  end.

Definition throw {A} (e : JsError) : Async A := λ w, (Rejected e, w).
Definition never {A} : Async A := λ w, (Pending, w).

(** [try { body } catch (error) { handler }] *)
Definition try_catch {A} (body : Async A) (handler : JsError → Async A) : Async A :=
  λ w, match body w with
       | (Rejected e, w') => handler e w'
       | settled => settled
       end.

(** [for (const x of xs) { ... }] with an awaited body, threading what the
    body accumulates. *)
Fixpoint for_of {A B} (xs : list A) (body : B → A → Async B) (acc : B) : Async B :=
  match xs with
  | [] => mret acc
  | x :: xs' => acc' ← body acc x; for_of xs' body acc'
  end.

(** ** IndexedDB object stores *)

(** [store.get(k)] and [index.get(k)]: the first record that has [k] under
    [key], in the order of the store. *)
Definition store_get {R} (key : R → string) (k : string) (l : list R) : option R :=
  find (λ x, bool_decide (key x = k)) l.

Fixpoint store_replace {R} (key : R → string) (r : R) (l : list R) : list R :=
  match l with
  | [] => []
  | x :: l' => if bool_decide (key x = key r) then r :: l' else x :: store_replace key r l'
  end.

Fixpoint store_insert {R} (key : R → string) (r : R) (l : list R) : list R :=
  match l with
  | [] => [r]
  | x :: l' => if String.ltb (key r) (key x) then r :: l else x :: store_insert key r l'
  end.

(** [store.put(r)]: a record stored under a key that is there already
    replaces it where it stands; a new key goes to its place in the order of
    the keys. *)
Definition store_put {R} (key : R → string) (r : R) (l : list R) : list R :=
  if bool_decide (is_Some (store_get key (key r) l))
  then store_replace key r l
  else store_insert key r l.

(** [index.getAll(k)] of a non-unique index. *)
Definition index_getAll {R} (field : R → string) (k : string) (l : list R) : list R :=
  filter (λ x, field x = k) l.

(** The users store has unique indexes on [username], [email] and
    [referralCode]: a write is refused when another record holds one of the
    values. *)
Definition index_conflict (u : User.t) (l : list User.t) : bool :=
  existsb (λ v, negb (bool_decide (User.id v = User.id u)) &&
                (bool_decide (User.username v = User.username u) ||
                 bool_decide (User.email v = User.email u) ||
                 bool_decide (User.referralCode v = User.referralCode u))) l.

(** ** Strings

    The methods of [String.prototype] that registration calls, on strings
    of ASCII characters. *)

Definition is_white_space (c : Ascii.ascii) : bool :=
  match Ascii.nat_of_ascii c with
  | 9 | 10 | 11 | 12 | 13 | 32 => true
  | _ => false
  end%nat.

Fixpoint trimStart (s : string) : string :=
  match s with
  | String c s' => if is_white_space c then trimStart s' else s
  | EmptyString => EmptyString
  end.

Fixpoint trimEnd (s : string) : string :=
  match s with
  | String c s' =>
      match trimEnd s' with
      | EmptyString => if is_white_space c then EmptyString else String c EmptyString
      | rest => String c rest
      end
  | EmptyString => EmptyString
  end.

Definition trim (s : string) : string := trimEnd (trimStart s).

Definition upper (c : Ascii.ascii) : Ascii.ascii :=
  let n := Ascii.nat_of_ascii c in
  if Nat.leb 97 n && Nat.leb n 122 then Ascii.ascii_of_nat (n - 32) else c.

Definition lower (c : Ascii.ascii) : Ascii.ascii :=
  let n := Ascii.nat_of_ascii c in
  if Nat.leb 65 n && Nat.leb n 90 then Ascii.ascii_of_nat (n + 32) else c.

Fixpoint map_chars (f : Ascii.ascii → Ascii.ascii) (s : string) : string :=
  match s with
  | String c s' => String (f c) (map_chars f s')
  | EmptyString => EmptyString
  end.

Definition toUpperCase (s : string) : string := map_chars upper s.
Definition toLowerCase (s : string) : string := map_chars lower s.

Definition includes (part s : string) : bool :=
  match String.index 0 part s with
  | Some _ => true
  | None => false
  end.

(** [s.charAt(i)]: the empty string beyond the end. *)
Definition charAt (i : nat) (s : string) : string :=
  match String.get i s with
  | Some c => String c EmptyString
  | None => EmptyString
  end.

(** ** Values the engine returns *)

(** [{ success: true }] and [{ success: false, error: error.message }]. *)
Record ProcessResult : Type := mkResult {
  success : bool;
  error : option string
}.

(** What [sanitizeUser] leaves of a user: all but the password hash. *)
Module PublicUser.
Record t : Type := mk {
  id : string;
  username : string;
  email : string;
  referralCode : string;
  referredBy : option string;
  isAdmin : bool;
  createdAt : Z;
  totalEarnings : Z;
  earningsByLevel : EarningsByLevel.t
}.
End PublicUser.

(** [{ success: true, user }] and [{ success: false, error }] of [register]. *)
Module Registration.
Record t : Type := mk {
  success : bool;
  user : option PublicUser.t;
  error : option string
}.
End Registration.

(** A node of the referral tree: a user and the trees of the direct
    referrals. *)
#[warnings="-register-all"]
Inductive Tree : Type :=
  | Node (user : User.t) (children : list Tree).

Definition user_of (node : Tree) : User.t := match node with Node u _ => u end.
Definition children_of (node : Tree) : list Tree := match node with Node _ c => c end.

(** The [stats] object of [getReferralStats]; [levels] maps a depth to the
    number of nodes at that depth. *)
Module Stats.
Record t : Type := mk {
  directReferrals : nat;
  totalReferrals : nat;
  levels : gmap nat nat
}.
End Stats.

(** An entry of [getEarningsBreakdown]. *)
Module Breakdown.
Record t : Type := mk {
  referredUser : option User.t;
  level : Z;
  earnings : Z;
  date : Z
}.
End Breakdown.

Module TopEarner.
Record t : Type := mk {
  username : string;
  totalEarnings : Z;
  referralCode : string
}.
End TopEarner.

Module SystemStats.
Record t : Type := mk {
  totalUsers : nat;
  totalReferrals : nat;
  totalEarnings : Z;
  earningsByLevel : EarningsByLevel.t;
  topEarners : list TopEarner.t
}.
End SystemStats.

(** [Array.prototype.sort] with a comparator: a stable sort, in which [b]
    comes before [a] only when [compare a b > 0]. *)
Fixpoint sort_insert {A} (compare : A → A → Z) (a : A) (sorted : list A) : list A :=
  match sorted with
  | [] => [a]
  | b :: sorted' =>
      if Z.ltb 0 (compare a b) then b :: sort_insert compare a sorted'
      else a :: b :: sorted'
  end.

Definition sort {A} (compare : A → A → Z) (l : list A) : list A :=
  fold_right (sort_insert compare) [] l.

Section Engine.
Context (env : Environment).

Definition Date_now : Async Z := λ w,
  (Fulfilled (clock env (ticks w)),
   mkWorld (users w) (referrals w) (S (ticks w)) (draws w) (requests w)).

Definition Math_random_base36 : Async string := λ w,
  (Fulfilled (entropy env (draws w)),
   mkWorld (users w) (referrals w) (ticks w) (S (draws w)) (requests w)).

(** One IndexedDB request wrapped in a promise: [onerror] rejects with
    [request.error], [onsuccess] resolves. *)
Definition request {A} (op : Async A) : Async A := λ w,
  match storage_fault env (requests w) with
  | Some e => (Rejected e, next_request w)
  | None => op (next_request w)
  end.

(** *** StorageManager *)

Definition addUser (user : User.t) : Async User.t :=
  request (λ w,
    if bool_decide (is_Some (store_get User.id (User.id user) (users w)))
    then (Rejected (ConstraintError env (requests w)), w)
    else if index_conflict user (users w)
    then (Rejected (ConstraintError env (requests w)), w)
    else (Fulfilled user, set_users (store_put User.id user (users w)) w)).

Definition getUserById (id : string) : Async (option User.t) :=
  request (λ w, (Fulfilled (store_get User.id id (users w)), w)).

Definition getUserByUsername (username : string) : Async (option User.t) :=
  request (λ w, (Fulfilled (store_get User.username username (users w)), w)).

Definition getUserByEmail (email : string) : Async (option User.t) :=
  request (λ w, (Fulfilled (store_get User.email email (users w)), w)).

Definition getUserByReferralCode (code : string) : Async (option User.t) :=
  request (λ w, (Fulfilled (store_get User.referralCode code (users w)), w)).

Definition updateUser (user : User.t) : Async User.t :=
  request (λ w,
    if index_conflict user (users w)
    then (Rejected (ConstraintError env (requests w)), w)
    else (Fulfilled user, set_users (store_put User.id user (users w)) w)).

Definition getAllUsers : Async (list User.t) :=
  request (λ w, (Fulfilled (users w), w)).

Definition addReferral (referral : Referral.t) : Async Referral.t :=
  request (λ w,
    if bool_decide (is_Some (store_get Referral.id (Referral.id referral) (referrals w)))
    then (Rejected (ConstraintError env (requests w)), w)
    else (Fulfilled referral,
          set_referrals (store_put Referral.id referral (referrals w)) w)).

Definition getReferralsByReferrer (userId : string) : Async (list Referral.t) :=
  request (λ w, (Fulfilled (index_getAll Referral.referrerId userId (referrals w)), w)).

Definition getAllReferrals : Async (list Referral.t) :=
  request (λ w, (Fulfilled (referrals w), w)).

(** *** ReferralSystem *)

Definition generateReferralId : Async string :=
  now ← Date_now;
  suffix ← Math_random_base36;
  mret ("ref_" +:+ pretty now +:+ "_" +:+ suffix).

(** The two updates of [awardEarnings] on the record it has read: the
    total, then the bucket of the level. *)
Definition credit (level amount : Z) (referrer : User.t) : User.t :=
  let total := Number_add (User.totalEarnings referrer) amount in
  let e := User.earningsByLevel referrer in
  let e' :=
    if Z.eqb level 1 then
      EarningsByLevel.mk (Number_add (EarningsByLevel.level1 e) amount)
        (EarningsByLevel.level2 e) (EarningsByLevel.level3 e) (EarningsByLevel.level4Plus e)
    else if Z.eqb level 2 then
      EarningsByLevel.mk (EarningsByLevel.level1 e)
        (Number_add (EarningsByLevel.level2 e) amount) (EarningsByLevel.level3 e)
        (EarningsByLevel.level4Plus e)
    else if Z.eqb level 3 then
      EarningsByLevel.mk (EarningsByLevel.level1 e) (EarningsByLevel.level2 e)
        (Number_add (EarningsByLevel.level3 e) amount) (EarningsByLevel.level4Plus e)
    else
      EarningsByLevel.mk (EarningsByLevel.level1 e) (EarningsByLevel.level2 e)
        (EarningsByLevel.level3 e) (Number_add (EarningsByLevel.level4Plus e) amount) in
  User.mk (User.id referrer) (User.username referrer) (User.email referrer)
    (User.passwordHash referrer) (User.referralCode referrer) (User.referredBy referrer)
    (User.isAdmin referrer) (User.createdAt referrer) total e'.

Definition awardEarnings (referrerId referredUserId : string) (level amount : Z)
    : Async unit :=
  referrer ← getUserById referrerId;
  match referrer with
  | None => mret tt
  | Some referrer =>
      let referrer := credit level amount referrer in
      updateUser referrer;;
      id ← generateReferralId;
      createdAt ← Date_now;
      let referral := Referral.mk id referrerId referredUserId level amount createdAt in
      addReferral referral;;
      mret tt
  end.

(** The [while (currentReferrer.referredBy)] loop of the levels from 4 on. *)
Fixpoint level4PlusWalk (fuel : nat) (newUserId : string)
    (currentReferrer : User.t) (level : Z) : Async unit :=
  match fuel with
  | O => never
  | S fuel' =>
      match truthy (User.referredBy currentReferrer) with
      | None => mret tt
      | Some code =>
          nextReferrer ← getUserByReferralCode code;
          match nextReferrer with
          | None => mret tt
          | Some nextReferrer =>
              awardEarnings (User.id nextReferrer) newUserId level
                rewardStructure.level4Plus;;
              level4PlusWalk fuel' newUserId nextReferrer (level + 1)
          end
      end
  end.

(** The body of the [try] block, up to [return { success: true }]. *)
Definition distribute (fuel : nat) (newUserId referralCode : string) : Async ProcessResult :=
  newUser ← getUserById newUserId;
  match newUser with
  | None => throw (Error "User not found")
  | Some _ =>
      level1Referrer ← getUserByReferralCode referralCode;
      match level1Referrer with
      | None => throw (Error "Referrer not found")
      | Some level1Referrer =>
          awardEarnings (User.id level1Referrer) newUserId 1 rewardStructure.level1;;
          match truthy (User.referredBy level1Referrer) with
          | None => mret tt
          | Some code1 =>
              level2Referrer ← getUserByReferralCode code1;
              match level2Referrer with
              | None => mret tt
              | Some level2Referrer =>
                  awardEarnings (User.id level2Referrer) newUserId 2
                    rewardStructure.level2;;
                  match truthy (User.referredBy level2Referrer) with
                  | None => mret tt
                  | Some code2 =>
                      level3Referrer ← getUserByReferralCode code2;
                      match level3Referrer with
                      | None => mret tt
                      | Some level3Referrer =>
                          awardEarnings (User.id level3Referrer) newUserId 3
                            rewardStructure.level3;;
                          level4PlusWalk fuel newUserId level3Referrer 4
                      end
                  end
              end
          end;;
          mret (mkResult true None)
      end
  end.

Definition processNewReferral (fuel : nat) (newUserId referralCode : string)
    : Async ProcessResult :=
  try_catch (distribute fuel newUserId referralCode)
    (λ error, mret (mkResult false (Some (message error)))).

Definition getDirectReferrals (userId : string) : Async (list User.t) :=
  user ← getUserById userId;
  match user with
  | None => mret []
  | Some user =>
      allUsers ← getAllUsers;
      mret (filter (λ u, User.referredBy u = Some (User.referralCode user)) allUsers)
  end.

(** Each call of the recursion spends one unit of [fuel]. *)
Fixpoint buildReferralTree (fuel : nat) (userId : string) : Async (option Tree) :=
  match fuel with
  | O => never
  | S fuel' =>
      user ← getUserById userId;
      match user with
      | None => mret None
      | Some user =>
          directReferrals ← getDirectReferrals userId;
          children ← for_of directReferrals (λ children referral,
            childTree ← buildReferralTree fuel' (User.id referral);
            match childTree with
            | Some childTree => mret (children ++ [childTree])
            | None => mret children
            end) [];
          mret (Some (Node user children))
      end
  end.

(** The closure [countReferrals] of [getReferralStats], with the [stats]
    object it updates passed along. *)
Fixpoint countReferrals (node : Tree) (level : nat) (stats : Stats.t) : Stats.t :=
  let stats :=
    if Nat.eqb level 1
    then Stats.mk (S (Stats.directReferrals stats)) (Stats.totalReferrals stats)
           (Stats.levels stats)
    else stats in
  let stats :=
    if Nat.ltb 0 level
    then Stats.mk (Stats.directReferrals stats) (S (Stats.totalReferrals stats))
           (<[level := (default 0 (Stats.levels stats !! level) + 1)%nat]>
              (Stats.levels stats))
    else stats in
  match node with
  | Node _ children =>
      fold_left (λ stats child, countReferrals child (level + 1) stats) children stats
  end.

Definition getReferralStats (fuel : nat) (userId : string) : Async (option Stats.t) :=
  tree ← buildReferralTree fuel userId;
  match tree with
  | None => mret None
  | Some tree => mret (Some (countReferrals tree 0 (Stats.mk 0 0 ∅)))
  end.

Fixpoint uplineWalk (fuel : nat) (currentReferrer : option User.t)
    (upline : list User.t) : Async (list User.t) :=
  match fuel with
  | O => never
  | S fuel' =>
      match currentReferrer with
      | None => mret upline
      | Some currentReferrer =>
          let upline := upline ++ [currentReferrer] in
          match truthy (User.referredBy currentReferrer) with
          | None => mret upline
          | Some code =>
              next ← getUserByReferralCode code;
              uplineWalk fuel' next upline
          end
      end
  end.

Definition getUpline (fuel : nat) (userId : string) : Async (list User.t) :=
  user ← getUserById userId;
  match user with
  | None => mret []
  | Some user =>
      match truthy (User.referredBy user) with
      | None => mret []
      | Some code =>
          currentReferrer ← getUserByReferralCode code;
          uplineWalk fuel currentReferrer []
      end
  end.

Fixpoint countNodes (node : Tree) : nat :=
  match node with
  | Node _ children =>
      fold_left (λ count child, (count + countNodes child)%nat) children (length children)
  end.

Definition getNetworkSize (fuel : nat) (userId : string) : Async nat :=
  tree ← buildReferralTree fuel userId;
  match tree with
  | None => mret 0%nat
  | Some tree => mret (countNodes tree)
  end.

Definition getEarningsBreakdown (userId : string) : Async (list Breakdown.t) :=
  referrals ← getReferralsByReferrer userId;
  breakdown ← for_of referrals (λ breakdown ref,
    referredUser ← getUserById (Referral.referredId ref);
    mret (breakdown ++ [Breakdown.mk referredUser (Referral.level ref)
                          (Referral.earnings ref) (Referral.createdAt ref)])) [];
  mret (sort (λ a b, Breakdown.date b - Breakdown.date a) breakdown).

Definition getSystemStats : Async SystemStats.t :=
  allUsers ← getAllUsers;
  allReferrals ← getAllReferrals;
  let totalEarnings :=
    fold_left (λ sum user, Number_add sum (User.totalEarnings user)) allUsers 0 in
  let earningsByLevel :=
    fold_left (λ acc user,
      let e := User.earningsByLevel user in
      EarningsByLevel.mk
        (Number_add (EarningsByLevel.level1 acc) (EarningsByLevel.level1 e))
        (Number_add (EarningsByLevel.level2 acc) (EarningsByLevel.level2 e))
        (Number_add (EarningsByLevel.level3 acc) (EarningsByLevel.level3 e))
        (Number_add (EarningsByLevel.level4Plus acc) (EarningsByLevel.level4Plus e)))
      allUsers (EarningsByLevel.mk 0 0 0 0) in
  let topEarners :=
    map (λ user, TopEarner.mk (User.username user) (User.totalEarnings user)
                   (User.referralCode user))
      (take 10 (sort (λ a b, Number_sub (User.totalEarnings b) (User.totalEarnings a))
                  allUsers)) in
  mret (SystemStats.mk (length allUsers) (length allReferrals) totalEarnings
          earningsByLevel topEarners).

(** *** AuthManager *)

Definition Math_floor_random_times (n : nat) : Async nat := λ w,
  (Fulfilled (scaled env (draws w) n),
   mkWorld (users w) (referrals w) (ticks w) (S (draws w)) (requests w)).

Definition generateId : Async string :=
  now ← Date_now;
  suffix ← Math_random_base36;
  mret ("user_" +:+ pretty now +:+ "_" +:+ suffix).

Definition chars : string := "ABCDEFGHIJKLMNOPQRSTUVWXYZ0123456789".

(** The [for] loop of [generateReferralCode], [n] characters from its end. *)
Fixpoint randomCharacters (n : nat) (code : string) : Async string :=
  match n with
  | O => mret code
  | S n' =>
      i ← Math_floor_random_times (String.length chars);
      randomCharacters n' (code +:+ charAt i chars)
  end.

Fixpoint generateReferralCode (fuel : nat) : Async string :=
  match fuel with
  | O => never
  | S fuel' =>
      code ← randomCharacters 8 EmptyString;
      existingUser ← getUserByReferralCode code;
      match existingUser with
      | None => mret code
      | Some _ => generateReferralCode fuel'
      end
  end.

Definition hashPassword (password : string) : Async string :=
  mret (sha256_hex env password).

Definition sanitizeUser (user : User.t) : PublicUser.t :=
  PublicUser.mk (User.id user) (User.username user) (User.email user)
    (User.referralCode user) (User.referredBy user) (User.isAdmin user)
    (User.createdAt user) (User.totalEarnings user) (User.earningsByLevel user).

Definition register (fuel : nat) (username email password : string)
    (referralCode : option string) : Async Registration.t :=
  try_catch
    (if bool_decide (username = EmptyString) || Nat.ltb (String.length username) 3
     then throw (Error "Username must be at least 3 characters")
     else if bool_decide (email = EmptyString) || negb (includes "@" email)
     then throw (Error "Invalid email address")
     else if bool_decide (password = EmptyString) || Nat.ltb (String.length password) 6
     then throw (Error "Password must be at least 6 characters")
     else
       existingUsername ← getUserByUsername username;
       match existingUsername with
       | Some _ => throw (Error "Username already exists")
       | None =>
           existingEmail ← getUserByEmail email;
           match existingEmail with
           | Some _ => throw (Error "Email already exists")
           | None =>
               referredBy ←
                 match truthy referralCode with
                 | Some code =>
                     if bool_decide (trim code = EmptyString) then mret None
                     else
                       referrer ← getUserByReferralCode (toUpperCase code);
                       match referrer with
                       | None => throw (Error "Invalid referral code")
                       | Some _ => mret (Some (toUpperCase code))
                       end
                 | None => mret None
                 end;
               id ← generateId;
               passwordHash ← hashPassword password;
               referralCode ← generateReferralCode fuel;
               createdAt ← Date_now;
               let user :=
                 User.mk id (toLowerCase username) (toLowerCase email) passwordHash
                   referralCode referredBy false createdAt
                   0 (EarningsByLevel.mk 0 0 0 0) in
               addUser user;;
               match truthy referredBy with
               | Some code => processNewReferral fuel (User.id user) code;; mret tt
               | None => mret tt
               end;;
               mret (Registration.mk true (Some (sanitizeUser user)) None)
           end
       end)
    (λ error, mret (Registration.mk false None (Some (message error)))).

Definition createAdminUser (fuel : nat) (username email password : string) : Async User.t :=
  id ← generateId;
  passwordHash ← hashPassword password;
  referralCode ← generateReferralCode fuel;
  createdAt ← Date_now;
  let user :=
    User.mk id (toLowerCase username) (toLowerCase email) passwordHash referralCode None
      true createdAt 0 (EarningsByLevel.mk 0 0 0 0) in
  addUser user;;
  mret user.

End Engine.

(** ** Notions the statements use *)

(** A user record without its earnings: what no award changes. *)
Definition shape (u : User.t) : User.t :=
  User.mk (User.id u) (User.username u) (User.email u) (User.passwordHash u)
    (User.referralCode u) (User.referredBy u) (User.isAdmin u) (User.createdAt u)
    0 (EarningsByLevel.mk 0 0 0 0).

(** What IndexedDB maintains of the users store: the key and the three
    unique indexes. *)
Record wf_users (l : list User.t) : Prop := mk_wf_users {
  wf_id : NoDup (User.id <$> l);
  wf_username : NoDup (User.username <$> l);
  wf_email : NoDup (User.email <$> l);
  wf_referralCode : NoDup (User.referralCode <$> l)
}.

(** The referrer graph induced by [referredBy], on referral codes: the code
    [c] of a stored user leads to the code [d] that user was referred by.
    The values are taken as they are stored, as [getDirectReferrals] compares
    them; the upward walks follow the truthy ones among them. *)
Definition refers (l : list User.t) (c d : string) : Prop :=
  ∃ u, u ∈ l ∧ User.referralCode u = c ∧ User.referredBy u = Some d.

Definition Acyclic (l : list User.t) : Prop := ∀ c, ¬ tc (refers l) c c.

(** The chain of referrers the upward walks follow from a [referredBy]
    value, as the ids of the users met: it ends at a falsy value or at a code
    that resolves to no user. *)
Inductive Upline (l : list User.t) : option string → list string → Prop :=
  | Upline_root v :
      truthy v = None → Upline l v []
  | Upline_broken v code :
      truthy v = Some code → store_get User.referralCode code l = None → Upline l v []
  | Upline_step v code u ids :
      truthy v = Some code → store_get User.referralCode code l = Some u →
      Upline l (User.referredBy u) ids → Upline l v (User.id u :: ids).

(** The chain above a new user who registered with [referralCode]: the
    level-1 referrer, then the upline of that user. *)
Inductive Lineage (l : list User.t) (referralCode : string) : list string → Prop :=
  | Lineage_none :
      store_get User.referralCode referralCode l = None → Lineage l referralCode []
  | Lineage_some u ids :
      store_get User.referralCode referralCode l = Some u →
      Upline l (User.referredBy u) ids → Lineage l referralCode (User.id u :: ids).

(** The reward table. *)
Definition reward_of (level : Z) : Z :=
  if Z.eqb level 1 then 100
  else if Z.eqb level 2 then 60
  else if Z.eqb level 3 then 40
  else 20.

(** What a referral record attributes: referrer, referred user, level,
    amount. *)
Module Award.
Record t : Type := mk {
  referrerId : string;
  referredId : string;
  level : Z;
  earnings : Z
}.
End Award.

Definition attribution (r : Referral.t) : Award.t :=
  Award.mk (Referral.referrerId r) (Referral.referredId r) (Referral.level r)
    (Referral.earnings r).

(** The awards due along a chain of referrers, the first of them at [level]. *)
Fixpoint awards_along (newUserId : string) (level : Z) (ids : list string) : list Award.t :=
  match ids with
  | [] => []
  | i :: ids' =>
      Award.mk i newUserId level (reward_of level) :: awards_along newUserId (level + 1) ids'
  end.

(** The number of awards of [amount] at [level] in a list of awards. *)
Definition count_awards (level amount : Z) (awards : list Award.t) : nat :=
  length (filter (λ a, Award.level a = level ∧ Award.earnings a = amount) awards).

(** An award paid to its referrer in the users store, and a list of awards
    paid in turn. *)
Definition pay (l : list User.t) (a : Award.t) : list User.t :=
  match store_get User.id (Award.referrerId a) l with
  | Some u => store_put User.id (credit (Award.level a) (Award.earnings a) u) l
  | None => l
  end.

Definition pay_all (awards : list Award.t) (l : list User.t) : list User.t :=
  fold_left pay awards l.

(** The id [generateReferralId] builds from the [t]-th reading of the clock
    and the [d]-th draw. *)
Definition referral_id_at (env : Environment) (t d : nat) : string :=
  "ref_" +:+ pretty (clock env t) +:+ "_" +:+ entropy env d.

(** The ids of the next [n] awards: each award reads the clock twice and
    draws once. *)
Definition upcoming_ids (env : Environment) (t d n : nat) : list string :=
  (λ j, referral_id_at env (t + 2 * j) (d + j)) <$> seq 0 n.

(** The environment in which nothing fails: no request errors, and the next
    [n] generated ids are new to the referrals store and differ from each
    other. *)
Record calm (env : Environment) (w : World) (n : nat) : Prop := mk_calm {
  calm_storage : ∀ k, storage_fault env k = None;
  calm_users : wf_users (users w);
  calm_ids : NoDup (upcoming_ids env (ticks w) (draws w) n ++ (Referral.id <$> referrals w))
}.

(** The record a fulfilled award appends, and the world it leaves: the
    referrer [u] credited, the record stored, two readings of the clock, one
    draw and three requests spent. *)
Definition award_record (env : Environment) (referrerId referredUserId : string)
    (level amount : Z) (w : World) : Referral.t :=
  Referral.mk (referral_id_at env (ticks w) (draws w)) referrerId referredUserId level amount
    (clock env (S (ticks w))).

Definition award_world (env : Environment) (referrerId referredUserId : string)
    (level amount : Z) (u : User.t) (w : World) : World :=
  mkWorld (store_put User.id (credit level amount u) (users w))
    (store_put Referral.id (award_record env referrerId referredUserId level amount w)
       (referrals w))
    (S (S (ticks w))) (S (draws w)) (S (S (S (requests w)))).

(** One step up the chain as [processNewReferral] writes it three times (in
    its nested [if]s and in its loop): resolve the code of [prev], award the
    user found, go on with [next]. *)
Definition stage (env : Environment) (newUserId : string) (prev : User.t)
    (level amount : Z) (next : User.t → Async unit) : Async unit :=
  match truthy (User.referredBy prev) with
  | None => mret tt
  | Some code =>
      nextReferrer ← getUserByReferralCode env code;
      match nextReferrer with
      | None => mret tt
      | Some nextReferrer =>
          awardEarnings env (User.id nextReferrer) newUserId level amount;;
          next nextReferrer
      end
  end.

(** What a walk that was to give [awards] has left in [w'], from [w]: the
    records [new], one for each of the first awards, and the users with the
    awards [paid], which are those and at most one more (an award whose
    record could not be stored). *)
Record trail (w w' : World) (awards : list Award.t) (new : list Referral.t)
    (paid : list Award.t) : Prop := mk_trail {
  trail_referrals : referrals w' ≡ₚ new ++ referrals w;
  trail_recorded : attribution <$> new `prefix_of` paid;
  trail_paid : paid `prefix_of` awards;
  trail_lag : (length paid ≤ S (length new))%nat;
  trail_users : users w' = pay_all paid (users w)
}.

(** What a walk up the chain [ids] from the world [w] has done when it stops:
    it has settled, the users have their shape, and the awards due along the
    chain were given from the first on, all of them if it was fulfilled,
    which it is when nothing fails. *)
Definition walk_post (env : Environment) (newUserId : string) (level : Z) (w : World)
    (ids : list string) (res : Outcome unit * World) : Prop :=
  res.1 ≠ Pending ∧
  shape <$> users res.2 = shape <$> users w ∧
  ∃ (new : list Referral.t) (paid : list Award.t),
    trail w res.2 (awards_along newUserId level ids) new paid ∧
    (res.1 = Fulfilled tt → attribution <$> new = awards_along newUserId level ids) ∧
    (calm env w (length ids) → res.1 = Fulfilled tt).

Definition walk_spec (env : Environment) (newUserId : string) (n : nat)
    (v : option string) (level : Z) (m : Async unit) : Prop :=
  ∀ w ids, Upline (users w) v ids → (length ids < n)%nat →
    walk_post env newUserId level w ids (m w).

(** A query over the stores [l] and [r]: run from a world that holds them it
    settles, leaves them as they are, what it returns satisfies [Φ], and it
    is rejected only when a request fails. *)
Definition query {A} (env : Environment) (l : list User.t) (r : list Referral.t)
    (m : Async A) (Φ : A → Prop) : Prop :=
  ∀ w, users w = l → referrals w = r →
    users (m w).2 = l ∧ referrals (m w).2 = r ∧
    match (m w).1 with
    | Fulfilled a => Φ a
    | Rejected _ => ¬ ∀ k, storage_fault env k = None
    | Pending => False
    end.

(** The chain of an upward walk that holds [current]: that user, then the
    upline of that user. *)
Definition chain_from (l : list User.t) (current : option User.t) (ids : list string) : Prop :=
  match current with
  | None => ids = []
  | Some u => ∃ ids', ids = User.id u :: ids' ∧ Upline l (User.referredBy u) ids'
  end.

(** The referral tree of a stored user: under each user, in the order of the
    store, the trees of the users that name its referral code. *)
#[warnings="-register-all"]
Inductive is_tree (l : list User.t) : Tree → Prop :=
  | is_tree_node u children :
      u ∈ l →
      user_of <$> children = filter (λ c, User.referredBy c = Some (User.referralCode u)) l →
      Forall (is_tree l) children →
      is_tree l (Node u children).

(** The users of a tree, and those below its root. *)
Fixpoint members (node : Tree) : list User.t :=
  match node with
  | Node u children => u :: concat (map members children)
  end.

Definition descendants (node : Tree) : list User.t :=
  concat (map members (children_of node)).

(** The sum of the four buckets is the total. *)
Definition balanced (u : User.t) : Prop :=
  EarningsByLevel.level1 (User.earningsByLevel u) +
  EarningsByLevel.level2 (User.earningsByLevel u) +
  EarningsByLevel.level3 (User.earningsByLevel u) +
  EarningsByLevel.level4Plus (User.earningsByLevel u) = User.totalEarnings u.

(** No amount of the user is negative. *)
Definition no_negative_amount (u : User.t) : Prop :=
  0 ≤ User.totalEarnings u ∧
  0 ≤ EarningsByLevel.level1 (User.earningsByLevel u) ∧
  0 ≤ EarningsByLevel.level2 (User.earningsByLevel u) ∧
  0 ≤ EarningsByLevel.level3 (User.earningsByLevel u) ∧
  0 ≤ EarningsByLevel.level4Plus (User.earningsByLevel u).


(** What [distribute] has done when it stops, along the lineage [ids] of the
    referral code. *)
Definition distribute_post (env : Environment) (newUserId : string) (w : World)
    (ids : list string) (res : Outcome ProcessResult * World) : Prop :=
  (res.1 = Fulfilled (mkResult true None) ∨ ∃ e, res.1 = Rejected e) ∧
  shape <$> users res.2 = shape <$> users w ∧
  ∃ (new : list Referral.t) (paid : list Award.t),
    trail w res.2 (awards_along newUserId 1 ids) new paid ∧
    (res.1 = Fulfilled (mkResult true None) →
       ids ≠ [] ∧ attribution <$> new = awards_along newUserId 1 ids) ∧
    (calm env w (length ids) → ids ≠ [] → is_Some (store_get User.id newUserId (users w)) →
       res.1 = Fulfilled (mkResult true None)).

(** A check that suffices for [Acyclic]: the users are listed so that each
    comes after the user whose code it names, as when ids grow with time. *)
Definition position (codes : list string) (c : string) : nat :=
  default (length codes) (fst <$> list_find (λ x, x = c) codes).

Definition referrers_come_first (l : list User.t) : bool :=
  forallb (λ u, match User.referredBy u with
                | None => true
                | Some d =>
                    Nat.ltb (position (User.referralCode <$> l) d)
                      (position (User.referralCode <$> l) (User.referralCode u))
                end) l.

(** The operations of the engine and the two that create users, and the
    world each leaves. *)
Inductive Operation : Type :=
  | ProcessNewReferral (newUserId referralCode : string)
  | AwardEarnings (referrerId referredUserId : string) (level amount : Z)
  | GetDirectReferrals (userId : string)
  | BuildReferralTree (userId : string)
  | GetReferralStats (userId : string)
  | GetUpline (userId : string)
  | GetEarningsBreakdown (userId : string)
  | GetNetworkSize (userId : string)
  | GetSystemStats
  | Register (username email password : string) (referralCode : option string)
  | CreateAdminUser (username email password : string).

Definition world_after (env : Environment) (fuel : nat) (op : Operation) (w : World) : World :=
  match op with
  | ProcessNewReferral newUserId referralCode =>
      (processNewReferral env fuel newUserId referralCode w).2
  | AwardEarnings referrerId referredUserId level amount =>
      (awardEarnings env referrerId referredUserId level amount w).2
  | GetDirectReferrals userId => (getDirectReferrals env userId w).2
  | BuildReferralTree userId => (buildReferralTree env fuel userId w).2
  | GetReferralStats userId => (getReferralStats env fuel userId w).2
  | GetUpline userId => (getUpline env fuel userId w).2
  | GetEarningsBreakdown userId => (getEarningsBreakdown env userId w).2
  | GetNetworkSize userId => (getNetworkSize env fuel userId w).2
  | GetSystemStats => (getSystemStats env w).2
  | Register username email password referralCode =>
      (register env fuel username email password referralCode w).2
  | CreateAdminUser username email password =>
      (createAdminUser env fuel username email password w).2
  end.



(** The worlds that a sequence of operations leaves, each with its fuel. *)
Definition replay (env : Environment) (ops : list (nat * Operation)) (w : World) : World :=
  fold_left (λ w op, world_after env op.1 op.2 w) ops w.

(** ** Stores and environments of the examples *)

(** A user as registration creates it, with the address derived from the
    name. *)
Definition member (id username code : string) (referredBy : option string) : User.t :=
  User.mk id username (username +:+ "@example.org") "5e884898da28" code referredBy false
    1700000000000 0 (EarningsByLevel.mk 0 0 0 0).

(** A clock that advances by a millisecond at each reading, draws that all
    come out the same, and a storage that never fails. *)
Definition steady_env : Environment :=
  mkEnvironment (λ n, 1700000000000 + Z.of_nat n) (λ _, "k3j9x0q2a") (λ k n, (k `mod` n)%nat)
    (λ _, "5e884898da28") (λ _, None) (λ _, "A constraint was not satisfied.").

(** The same, except that the clock stands still. *)
Definition frozen_env : Environment :=
  mkEnvironment (λ _, 1700000000000) (λ _, "k3j9x0q2a") (λ k n, (k `mod` n)%nat)
    (λ _, "5e884898da28") (λ _, None) (λ _, "A constraint was not satisfied.").

(** The same as [steady_env], except that the [n]-th request fails. *)
Definition failing_env (n : nat) : Environment :=
  mkEnvironment (λ n, 1700000000000 + Z.of_nat n) (λ _, "k3j9x0q2a") (λ k n, (k `mod` n)%nat)
    (λ _, "5e884898da28")
    (λ k, if Nat.eqb k n then Some (mkError "AbortError" "The transaction was aborted.")
          else None)
    (λ _, "A constraint was not satisfied.").

Definition alice : User.t := member "user_1_a" "alice" "ALICE001" None.
Definition bob : User.t := member "user_2_b" "bob" "BOB00002" (Some "ALICE001").
Definition carol : User.t := member "user_3_c" "carol" "CAROL003" (Some "BOB00002").
Definition dave : User.t := member "user_4_d" "dave" "DAVE0004" (Some "CAROL003").
Definition erin : User.t := member "user_5_e" "erin" "ERIN0005" (Some "DAVE0004").
Definition frank : User.t := member "user_6_f" "frank" "FRANK006" (Some "ERIN0005").

(** Alice referred Bob, Bob referred Carol, and so on to Frank, who has just
    registered with the code of Erin. *)
Definition family : World :=
  mkWorld [alice; bob; carol; dave; erin; frank] [] 0 0 0.


(** Alice, Bob who was referred by Alice, and Carol who has just registered
    with the code of Bob. *)
Definition trio : World := mkWorld [alice; bob; carol] [] 0 0 0.

(** Two users who name each other's code, and a third who has just
    registered with the code of the first. *)
Definition ring_a : User.t := member "user_1_a" "ann" "ANN00001" (Some "BEN00002").
Definition ring_b : User.t := member "user_2_b" "ben" "BEN00002" (Some "ANN00001").
Definition ring_c : User.t := member "user_3_c" "cat" "CAT00003" (Some "ANN00001").

Definition ring : World := mkWorld [ring_a; ring_b; ring_c] [] 0 0 0.

Definition nobody : World := mkWorld [] [] 0 0 0.

(** The worlds that the awards make of [ring] when nothing fails, and the
    users that name one of the two codes of the cycle. *)
Definition ring_like (w : World) : Prop :=
  shape <$> users w = shape <$> users ring ∧ ∀ n, calm steady_env w n.

Definition on_ring (u : User.t) : Prop :=
  User.referredBy u = Some "ANN00001" ∨ User.referredBy u = Some "BEN00002".


(** ** The rest of the storage manager *)

(** [store.delete(k)]: the record under [k] goes, if there is one. *)
Definition store_delete {R} (key : R → string) (k : string) (l : list R) : list R :=
  filter (λ x, key x ≠ k) l.

Section Administration.
Context (env : Environment).

Definition deleteUser (id : string) : Async unit :=
  request env (λ w, (Fulfilled tt, set_users (store_delete User.id id (users w)) w)).

(** One transaction over the two stores, each of them cleared; the promise
    settles with the transaction. *)
Definition clearAllData : Async unit :=
  request env (λ w, (Fulfilled tt, set_referrals [] (set_users [] w))).

End Administration.

(** ** What a computation ensures

    From stores that satisfy [P] the computation leaves stores that satisfy
    [Q a] when it is fulfilled with [a], [R e] when it is rejected with [e],
    and [N] when it never settles. *)
Definition ensures {A} (P : list User.t → list Referral.t → Prop) (m : Async A)
    (Q : A → list User.t → list Referral.t → Prop)
    (R : JsError → list User.t → list Referral.t → Prop)
    (N : list User.t → list Referral.t → Prop) : Prop :=
  ∀ w, P (users w) (referrals w) →
    match m w with
    | (Fulfilled a, w') => Q a (users w') (referrals w')
    | (Rejected e, w') => R e (users w') (referrals w')
    | (Pending, w') => N (users w') (referrals w')
    end.

(** A computation that keeps [I] however it ends. *)
Definition maintains {A} (I : list User.t → list Referral.t → Prop) (m : Async A) : Prop :=
  ensures I m (λ _, I) (λ _, I) I.

(** Every [referredBy] names the referral code of a stored user. *)
Definition Closed (l : list User.t) : Prop :=
  ∀ u d, u ∈ l → User.referredBy u = Some d → d ∈ User.referralCode <$> l.

(** The data model of the users store: what IndexedDB maintains, and a
    referrer graph that is closed and has no cycle. *)
Record sound (l : list User.t) : Prop := mk_sound {
  sound_wf : wf_users l;
  sound_closed : Closed l;
  sound_acyclic : Acyclic l
}.

(** A user that [addUser] accepts into [l], and whose referrer, if it names
    one, is stored. *)
Record admissible (n : User.t) (l : list User.t) : Prop := mk_admissible {
  admissible_id : store_get User.id (User.id n) l = None;
  admissible_indexes : index_conflict n l = false;
  admissible_referrer : ∀ d, User.referredBy n = Some d → d ∈ User.referralCode <$> l;
  admissible_total : User.totalEarnings n = 0;
  admissible_buckets : User.earningsByLevel n = EarningsByLevel.mk 0 0 0 0
}.

(** The users are those of [s] but for their earnings, and the records of
    [r0] are all there, in their order. *)
Definition unaltered (s : list User.t) (r0 : list Referral.t)
    (l : list User.t) (r : list Referral.t) : Prop :=
  shape <$> l = s ∧ r0 `sublist_of` r.

(** The [referredBy] that [register] gives the new user: nothing for a code
    that is absent, empty or blank, else the code in upper case, untrimmed. *)
Definition referredBy_of (referralCode : option string) : option string :=
  match truthy referralCode with
  | Some code =>
      if bool_decide (trim code = EmptyString) then None else Some (toUpperCase code)
  | None => None
  end.

(** The user [n] that a registration with these arguments has stored, [l]
    being the users it found: the arguments passed the three checks, the
    names are in lower case, the password is stored as its digest, the user
    is no administrator, and [addUser] accepted it. *)
Record registers (env : Environment) (username email password : string)
    (referralCode : option string) (n : User.t) (l : list User.t) : Prop := mk_registers {
  registers_valid :
    (3 ≤ String.length username)%nat ∧ includes "@" email = true ∧
    (6 ≤ String.length password)%nat;
  registers_username : User.username n = toLowerCase username;
  registers_email : User.email n = toLowerCase email;
  registers_passwordHash : User.passwordHash n = sha256_hex env password;
  registers_isAdmin : User.isAdmin n = false;
  registers_referredBy : User.referredBy n = referredBy_of referralCode;
  registers_admissible : admissible n l
}.

(** ** Further examples *)

(** Alice registers, then Bob with the code that Alice was given, typed in
    lower case. *)
Definition two_registrations : list (nat * Operation) :=
  [(3%nat, Register "alice" "alice@example.org" "secret1" None);
   (3%nat, Register "bob" "bob@example.org" "secret2" (Some "bcdefghi"))].

Definition zed : User.t := member "user_9_z" "zed" "ZED00009" None.

(** ** Notions of the further statements *)

(** A list in which no element has a greater [key] than an element before
    it. *)
Definition descending {A} (key : A → Z) (l : list A) : Prop :=
  ∀ (i j : nat) a b, (i < j)%nat → l !! i = Some a → l !! j = Some b → key b ≤ key a.

(** The entry of [getEarningsBreakdown] for a referral record, over the
    users [l]. *)
Definition breakdown_entry (l : list User.t) (ref : Referral.t) : Breakdown.t :=
  Breakdown.mk (store_get User.id (Referral.referredId ref) l) (Referral.level ref)
    (Referral.earnings ref) (Referral.createdAt ref).

(** The entry of [topEarners] for a user. *)
Definition top_earner (user : User.t) : TopEarner.t :=
  TopEarner.mk (User.username user) (User.totalEarnings user) (User.referralCode user).

(** The sum of [f] over a list. *)
Definition sum_of {A} (f : A → Z) (l : list A) : Z := foldr (λ x s, f x + s) 0 l.

(** Dora, then Ed, register with the code of Bob, in the store of [trio]. *)
Definition after_two_referrals : World :=
  replay steady_env
    [(3%nat, Register "dora" "dora@example.org" "secret1" (Some "BOB00002"));
     (3%nat, Register "ed_" "ed@example.org" "secret2" (Some "BOB00002"))] trio.

(** The number of nodes of a tree at a depth, the root being at depth 0. *)
Fixpoint width (node : Tree) (depth : nat) : nat :=
  match node, depth with
  | Node _ _, O => 1
  | Node _ children, S depth' => sum_list (map (λ c, width c depth') children)
  end.

(** A count of [stats.levels] after [n] more nodes were counted at its
    depth: the entry is made by the first of them. *)
Definition raise (count : option nat) (n : nat) : option nat :=
  match n with
  | O => count
  | S _ => Some (default 0 count + n)%nat
  end.

(** The sum of the counts of [stats.levels]. *)
Definition sum_levels (levels : gmap nat nat) : nat :=
  map_fold (λ _ n sum, n + sum)%nat 0%nat levels.

(** The chain of referrers above a [referredBy] value, as the users met
    ([Upline] lists their ids). *)
Inductive Chain (l : list User.t) : option string → list User.t → Prop :=
  | Chain_root v :
      truthy v = None → Chain l v []
  | Chain_broken v code :
      truthy v = Some code → store_get User.referralCode code l = None → Chain l v []
  | Chain_step v code x xs :
      truthy v = Some code → store_get User.referralCode code l = Some x →
      Chain l (User.referredBy x) xs → Chain l v (x :: xs).

(** The books agree: the total of every user is the sum of the earnings of
    the referral records that name the user as referrer. *)
Definition books_agree (l : list User.t) (r : list Referral.t) : Prop :=
  ∀ u, u ∈ l →
    User.totalEarnings u =
      sum_of Referral.earnings (filter (λ ref, Referral.referrerId ref = User.id u) r).

(** A string of [n] characters of the alphabet of [generateReferralCode],
    which [toUpperCase] leaves as it is and gives back from its lower case. *)
Definition code_like (n : nat) (s : string) : Prop :=
  String.length s = n ∧ toUpperCase s = s ∧ toUpperCase (toLowerCase s) = s ∧
  Forall (λ c, c ∈ String.list_ascii_of_string chars) (String.list_ascii_of_string s).

(** The string that the loop of [generateReferralCode] makes of [code] with
    [n] characters, when [d] draws were made before. *)
Fixpoint drawn (env : Environment) (n d : nat) (code : string) : string :=
  match n with
  | O => code
  | S n' => drawn env n' (S d) (code +:+ charAt (scaled env d (String.length chars)) chars)
  end.

(** Why a registration with arguments that pass the three checks is refused
    when no request fails, [l] being the users it found: the username or the
    email as typed is stored, the referral code in upper case is not, or
    [addUser] is refused with the [ConstraintError] of its request, because a
    stored user has an id that [generateId] makes, or the username or the
    email in lower case. *)
Definition refusal (env : Environment) (username email : string)
    (referralCode : option string) (l : list User.t) (e : JsError) : Prop :=
  (e = Error "Username already exists" ∧
   is_Some (store_get User.username username l)) ∨
  (e = Error "Email already exists" ∧
   store_get User.username username l = None ∧
   is_Some (store_get User.email email l)) ∨
  (e = Error "Invalid referral code" ∧
   store_get User.username username l = None ∧ store_get User.email email l = None ∧
   ∃ code, referredBy_of referralCode = Some (toUpperCase code) ∧
           store_get User.referralCode (toUpperCase code) l = None) ∨
  (store_get User.username username l = None ∧ store_get User.email email l = None ∧
   (∃ n, e = ConstraintError env n) ∧
   ∃ v, v ∈ l ∧
     ((∃ t d, User.id v = "user_" +:+ pretty (clock env t) +:+ "_" +:+ entropy env d) ∨
      User.username v = toLowerCase username ∨ User.email v = toLowerCase email)).

(** ** Sessions

    The rest of the authentication manager.  Besides the database the page
    has the item of [localStorage] under [sessionKey] and
    [window.location.href].  [setSession] is the only writer of the item, so
    that the item, when [JSON.parse] accepts it, is the session that
    [JSON.stringify] was given; an item that is the empty string or that
    [JSON.parse] throws on is [Unparsable]. *)

Module Session.
Record t : Type := mk {
  userId : string;
  username : string;
  isAdmin : bool;
  timestamp : Z
}.
End Session.

Inductive Item : Type :=
  | Unparsable
  | Parsed (session : Session.t).

Record Browser : Type := mkBrowser {
  world : World;
  sessionItem : option Item;
  href : string
}.

Definition Page (A : Type) : Type := Browser → Outcome A * Browser.

#[global] Instance page_ret : MRet Page := λ A a b, (Fulfilled a, b).
#[global] Instance page_bind : MBind Page := λ A B k m b,
  match m b with
  | (Fulfilled a, b') => k a b'
  | (Rejected e, b') => (Rejected e, b')
  | (Pending, b') => (Pending, b')
  end.

(** What runs on the database runs on the page, which it leaves as it is
    otherwise. *)
Definition on_database {A} (m : Async A) : Page A := λ b,
  let (o, w') := m (world b) in (o, mkBrowser w' (sessionItem b) (href b)).

Definition page_throw {A} (e : JsError) : Page A := λ b, (Rejected e, b).

Definition page_try_catch {A} (body : Page A) (handler : JsError → Page A) : Page A :=
  λ b, match body b with
       | (Rejected e, b') => handler e b'
       | settled => settled
       end.

Definition localStorage_getItem : Page (option Item) := λ b, (Fulfilled (sessionItem b), b).
Definition localStorage_setItem (item : Item) : Page unit := λ b,
  (Fulfilled tt, mkBrowser (world b) (Some item) (href b)).
Definition localStorage_removeItem : Page unit := λ b,
  (Fulfilled tt, mkBrowser (world b) None (href b)).
Definition set_location_href (url : string) : Page unit := λ b,
  (Fulfilled tt, mkBrowser (world b) (sessionItem b) url).

(** [24 * 60 * 60 * 1000] *)
Definition expiryTime : Z := 24 * 60 * 60 * 1000.

Section Sessions.
Context (env : Environment).

Definition logout : Page unit :=
  localStorage_removeItem;;
  set_location_href "index.html".

Definition setSession (user : User.t) : Page unit :=
  timestamp ← on_database (Date_now env);
  let session := Session.mk (User.id user) (User.username user) (User.isAdmin user) timestamp in
  localStorage_setItem (Parsed session).

Definition getSession : Page (option Session.t) :=
  sessionData ← localStorage_getItem;
  match sessionData with
  | None | Some Unparsable => mret None
  | Some (Parsed session) =>
      now ← on_database (Date_now env);
      if Z.ltb expiryTime (now - Session.timestamp session)
      then logout;; mret None
      else mret (Some session)
  end.

Definition getCurrentUser : Page (option User.t) :=
  session ← getSession;
  match session with
  | None => mret None
  | Some session => on_database (getUserById env (Session.userId session))
  end.

Definition isLoggedIn : Page bool :=
  session ← getSession;
  mret (bool_decide (session ≠ None)).

(** [session && session.isAdmin]: [null] without session. *)
Definition isAdmin : Page (option bool) :=
  session ← getSession;
  mret (Session.isAdmin <$> session).

Definition login (username password : string) : Page Registration.t :=
  page_try_catch
    (user ← on_database (getUserByUsername env (toLowerCase username));
     match user with
     | None => page_throw (Error "Invalid username or password")
     | Some user =>
         hashedPassword ← on_database (hashPassword env password);
         if bool_decide (hashedPassword ≠ User.passwordHash user)
         then page_throw (Error "Invalid username or password")
         else
           setSession user;;
           mret (Registration.mk true (Some (sanitizeUser user)) None)
     end)
    (λ error, mret (Registration.mk false None (Some (message error)))).

End Sessions.

(** The world after one request, and after one reading of the clock. *)
Definition after_reading_clock (w : World) : World :=
  mkWorld (users w) (referrals w) (S (ticks w)) (draws w) (requests w).
(** ** Numbers *)

Lemma to_double_exact z : Z.abs z < MAX_EXACT → to_double z = z.
Proof.
  intros Hz. unfold to_double.
  assert (Z.log2 (Z.abs z) - 52 ≤ 0) as Hlog.
  { destruct (decide (Z.abs z = 0)) as [->|Hne]; [done|].
    assert (Z.log2 (Z.abs z) < 53); [|lia].
    apply Z.log2_lt_pow2; [lia|done]. }
  by rewrite (proj2 (Z.leb_le _ _) Hlog).
Qed.

Lemma to_double_between z :
  let ulp := 2 ^ Z.max 0 (Z.log2 (Z.abs z) - 52) in
  (to_double z = z `div` ulp * ulp ∨ to_double z = z `div` ulp * ulp + ulp).
Proof.
  unfold to_double. destruct (Z.leb_spec (Z.log2 (Z.abs z) - 52) 0) as [Hle|Hlt].
  - left. rewrite Z.max_l by lia. simpl. rewrite Z.div_1_r. lia.
  - rewrite Z.max_r by lia.
    repeat match goal with |- context [if ?b then _ else _] => destruct b end; auto.
Qed.

Lemma to_double_ge z : MAX_EXACT ≤ z → MAX_EXACT ≤ to_double z.
Proof.
  intros Hz. unfold MAX_EXACT in *.
  assert (0 < z) as Hpos by lia.
  assert (53 ≤ Z.log2 z) as Hlog by (by apply Z.log2_le_pow2).
  pose proof (Z.log2_spec z Hpos) as [Hlow _].
  pose proof (to_double_between z) as Hb. rewrite (Z.abs_eq z) in Hb by lia.
  rewrite Z.max_r in Hb by lia. cbv zeta in Hb.
  set (ulp := 2 ^ (Z.log2 z - 52)) in *.
  assert (0 < ulp) as Hulp by (apply Z.pow_pos_nonneg; lia).
  assert (2 ^ Z.log2 z = 2 ^ 52 * ulp) as Hsplit.
  { unfold ulp. rewrite <- Z.pow_add_r by lia. f_equal. lia. }
  assert (2 ^ 52 ≤ z `div` ulp) as Hq.
  { apply Z.div_le_lower_bound; [done|]. lia. }
  assert (2 ^ 53 ≤ 2 ^ Z.log2 z) as Hmono by (apply Z.pow_le_mono_r; lia).
  assert (2 ^ Z.log2 z ≤ z `div` ulp * ulp) by nia.
  lia.
Qed.

Lemma to_double_pos z : 0 < z → 0 < to_double z.
Proof.
  intros Hz. destruct (decide (z < MAX_EXACT)) as [Hlt|Hge].
  - rewrite to_double_exact; lia.
  - pose proof (to_double_ge z). unfold MAX_EXACT in *. lia.
Qed.

Lemma to_double_nonpos z : z ≤ 0 → to_double z ≤ 0.
Proof.
  intros Hz. destruct (decide (z = 0)) as [->|Hne]; [done|].
  pose proof (to_double_between z) as Hb. cbv zeta in Hb.
  set (ulp := 2 ^ Z.max 0 (Z.log2 (Z.abs z) - 52)) in *.
  assert (0 < ulp) as Hulp by (apply Z.pow_pos_nonneg; lia).
  assert (z `div` ulp < 0) as Hq by (apply Z.div_lt_upper_bound; lia).
  nia.
Qed.

(** Doubles around [2 ^ 53] and [2 ^ 55]: every second and every eighth
    integer is one, and a tie goes to the even significand. *)
Example doubles_round :
  to_double (2 ^ 53 - 1) = 2 ^ 53 - 1 ∧ to_double (2 ^ 53 + 1) = 2 ^ 53 ∧
  to_double (2 ^ 53 + 3) = 2 ^ 53 + 4 ∧ to_double (2 ^ 55 + 100) = 2 ^ 55 + 96 ∧
  to_double (2 ^ 55 + 101) = 2 ^ 55 + 104 ∧ to_double (- (2 ^ 53) - 1) = - (2 ^ 53) ∧
  Number_add (Number_add (2 ^ 53) 1) 1 = 2 ^ 53.
Proof. by vm_compute. Qed.

Lemma Number_add_exact x y : 0 ≤ x → 0 ≤ y → x + y < MAX_EXACT → Number_add x y = x + y.
Proof. intros Hx Hy Hsum. apply to_double_exact. lia. Qed.


(** ** The object stores *)

Section Stores.
Context {R : Type} (key : R → string).
Implicit Types (r x : R) (l : list R) (k : string).

Lemma store_get_Some k l x : store_get key k l = Some x → x ∈ l ∧ key x = k.
Proof.
  unfold store_get. intros H. apply find_some in H as [Hin Hk].
  split; [by apply list_elem_of_In | by apply bool_decide_eq_true in Hk].
Qed.

Lemma store_get_None k l : store_get key k l = None ↔ k ∉ key <$> l.
Proof.
  unfold store_get. induction l as [|x l IH]; simpl.
  - split; [intros _ | done]. apply not_elem_of_nil.
  - case_bool_decide as Hx.
    + split; [done|]. intros []. subst. left.
    + rewrite IH, not_elem_of_cons. intuition congruence.
Qed.

Lemma store_get_is_Some k l : is_Some (store_get key k l) ↔ k ∈ key <$> l.
Proof.
  destruct (store_get key k l) eqn:E.
  - split; [intros _ | by eauto].
    apply store_get_Some in E as [Hin <-]. by apply list_elem_of_fmap_2.
  - rewrite store_get_None in E. split; [by intros [? [=]] | done].
Qed.

Lemma store_get_NoDup l x : NoDup (key <$> l) → x ∈ l → store_get key (key x) l = Some x.
Proof.
  unfold store_get. induction l as [|y l IH]; simpl; intros Hnd Hin.
  - by apply elem_of_nil in Hin.
  - apply NoDup_cons in Hnd as [Hy Hnd]. case_bool_decide as Hk.
    + apply elem_of_cons in Hin as [->|Hin]; [done|].
      exfalso. apply Hy. rewrite Hk. by apply list_elem_of_fmap_2.
    + apply elem_of_cons in Hin as [->|Hin]; [done | by apply IH].
Qed.

Lemma store_insert_perm r l : store_insert key r l ≡ₚ r :: l.
Proof.
  induction l as [|x l IH]; simpl; [done|].
  destruct (String.ltb _ _); [done|]. by rewrite IH, Permutation_swap.
Qed.

(** A record under a new key joins the store and moves nothing else. *)
Lemma store_put_new r l : store_get key (key r) l = None → store_put key r l ≡ₚ r :: l.
Proof.
  intros H. unfold store_put. rewrite H.
  rewrite bool_decide_eq_false_2 by (by intros [? [=]]). apply store_insert_perm.
Qed.

(** A record under a stored key takes the place of the stored one: what
    the two agree on is unchanged in the listing. *)
Lemma store_replace_fmap {B} (f : R → B) r l x :
  store_get key (key r) l = Some x → f r = f x → f <$> store_replace key r l = f <$> l.
Proof.
  unfold store_get. induction l as [|y l IH]; simpl; [done|].
  case_bool_decide; intros Hg Hf.
  - injection Hg as ->. by rewrite !fmap_cons, Hf.
  - by rewrite !fmap_cons, (IH Hg Hf).
Qed.

Lemma store_put_fmap {B} (f : R → B) r l x :
  store_get key (key r) l = Some x → f r = f x → f <$> store_put key r l = f <$> l.
Proof.
  intros Hg Hf. unfold store_put. rewrite Hg.
  rewrite bool_decide_eq_true_2 by eauto. by eapply store_replace_fmap.
Qed.

Lemma store_get_replace_eq r l :
  is_Some (store_get key (key r) l) → store_get key (key r) (store_replace key r l) = Some r.
Proof.
  unfold store_get. induction l as [|y l IH]; simpl; [by intros [? [=]]|].
  case_bool_decide as Hy; simpl.
  - intros _. by rewrite bool_decide_eq_true_2.
  - intros Hs. rewrite bool_decide_eq_false_2 by done. by apply IH.
Qed.

Lemma store_get_replace_ne k r l :
  k ≠ key r → store_get key k (store_replace key r l) = store_get key k l.
Proof.
  unfold store_get. intros Hk. induction l as [|y l IH]; simpl; [done|].
  case_bool_decide as Hy; simpl.
  - rewrite !bool_decide_eq_false_2 by congruence. done.
  - by rewrite IH.
Qed.

Lemma store_get_insert_eq r l :
  store_get key (key r) l = None → store_get key (key r) (store_insert key r l) = Some r.
Proof.
  unfold store_get. induction l as [|y l IH]; simpl.
  - intros _. by rewrite bool_decide_eq_true_2.
  - case_bool_decide as Hy; [done|]. intros Hn.
    destruct (String.ltb _ _); simpl.
    + by rewrite bool_decide_eq_true_2.
    + rewrite bool_decide_eq_false_2 by done. by apply IH.
Qed.

Lemma store_get_insert_ne k r l :
  k ≠ key r → store_get key k (store_insert key r l) = store_get key k l.
Proof.
  unfold store_get. intros Hk. induction l as [|y l IH]; simpl.
  - by rewrite bool_decide_eq_false_2.
  - destruct (String.ltb _ _); simpl.
    + by rewrite (bool_decide_eq_false_2 (key r = k)).
    + by rewrite IH.
Qed.

(** What was put is what is read back under its key. *)
Lemma store_get_put_eq r l : store_get key (key r) (store_put key r l) = Some r.
Proof.
  unfold store_put. case_bool_decide as Hs.
  - by apply store_get_replace_eq.
  - apply store_get_insert_eq. destruct (store_get key (key r) l) eqn:E; [|done].
    exfalso. eauto.
Qed.

(** The other keys read as before. *)
Lemma store_get_put_ne k r l : k ≠ key r → store_get key k (store_put key r l) = store_get key k l.
Proof.
  intros Hk. unfold store_put. case_bool_decide.
  - by apply store_get_replace_ne.
  - by apply store_get_insert_ne.
Qed.

End Stores.

(** ** What awards leave unchanged *)

Implicit Types (l : list User.t) (u : User.t) (w : World) (env : Environment).
Implicit Types (level amount : Z) (fuel : nat) (ids : list string).

Lemma shape_id u u' : shape u' = shape u → User.id u' = User.id u.
Proof. intros H. by apply (f_equal User.id) in H. Qed.

Lemma shape_referredBy u u' : shape u' = shape u → User.referredBy u' = User.referredBy u.
Proof. intros H. by apply (f_equal User.referredBy) in H. Qed.

Lemma shape_referralCode u u' : shape u' = shape u → User.referralCode u' = User.referralCode u.
Proof. intros H. by apply (f_equal User.referralCode) in H. Qed.

Lemma fmap_via_shape {B} (f : User.t → B) l l' :
  (∀ u, f (shape u) = f u) → shape <$> l = shape <$> l' → f <$> l = f <$> l'.
Proof.
  intros Hf Hs.
  assert (∀ k : list User.t, f <$> k = f <$> (shape <$> k)) as E.
  { intros k. rewrite <- list_fmap_compose. apply list_fmap_ext. intros _ u _. by rewrite <- Hf. }
  by rewrite (E l), (E l'), Hs.
Qed.

Lemma wf_users_shape l l' : shape <$> l = shape <$> l' → wf_users l → wf_users l'.
Proof.
  intros Hs [H1 H2 H3 H4]. split.
  - by rewrite <- (fmap_via_shape User.id l l').
  - by rewrite <- (fmap_via_shape User.username l l').
  - by rewrite <- (fmap_via_shape User.email l l').
  - by rewrite <- (fmap_via_shape User.referralCode l l').
Qed.

Lemma store_get_shape (key : User.t → string) k l :
  (∀ u, key (shape u) = key u) →
  shape <$> store_get key k l = store_get key k (shape <$> l).
Proof.
  intros Hkey. unfold store_get. induction l as [|y l IH]; simpl; [done|].
  rewrite Hkey. by case_bool_decide.
Qed.

Lemma store_get_same_shape (key : User.t → string) k l l' :
  (∀ u, key (shape u) = key u) → shape <$> l = shape <$> l' →
  shape <$> store_get key k l = shape <$> store_get key k l'.
Proof. intros Hkey Hs. by rewrite !store_get_shape, Hs. Qed.

Lemma Upline_shape l l' v ids : shape <$> l = shape <$> l' → Upline l v ids → Upline l' v ids.
Proof.
  intros Hs. induction 1 as [v Hv | v code Hv Hg | v code u ids Hv Hg _ IH].
  - by apply Upline_root.
  - apply Upline_broken with code; [done|].
    pose proof (store_get_same_shape User.referralCode code l l' (λ _, eq_refl) Hs) as E.
    rewrite Hg in E. by destruct (store_get User.referralCode code l').
  - pose proof (store_get_same_shape User.referralCode code l l' (λ _, eq_refl) Hs) as E.
    rewrite Hg in E. destruct (store_get User.referralCode code l') as [u'|] eqn:Hg'; [|done].
    change (Some (shape u) = Some (shape u')) in E. apply (inj Some) in E.
    symmetry in E. rewrite <- (shape_id u u' E).
    apply Upline_step with code; [done..|]. by rewrite (shape_referredBy u u' E).
Qed.

Lemma elem_of_same_shape l l' u : shape <$> l = shape <$> l' → u ∈ l → ∃ u', u' ∈ l' ∧ shape u' = shape u.
Proof.
  intros Hs Hin. apply (list_elem_of_fmap_2 shape) in Hin. rewrite Hs in Hin.
  apply list_elem_of_fmap in Hin as (u' & E & Hin'). eauto.
Qed.

Lemma refers_shape l l' c d : shape <$> l = shape <$> l' → refers l c d → refers l' c d.
Proof.
  intros Hs (u & Hin & Hc & Hd). destruct (elem_of_same_shape l l' u Hs Hin) as (u' & Hin' & E).
  exists u'. by rewrite (shape_referralCode u u'), (shape_referredBy u u').
Qed.

Lemma Acyclic_shape l l' : shape <$> l = shape <$> l' → Acyclic l → Acyclic l'.
Proof.
  intros Hs Hac c Hc. apply (Hac c). clear Hac. revert Hc. generalize c at 2 4 as d.
  intros d Hc. induction Hc as [x y Hxy | x y z Hxy _ IH].
  - apply tc_once. by apply (refers_shape l' l).
  - eapply tc_l; [|exact IH]. by apply (refers_shape l' l).
Qed.

Lemma NoDup_fmap_eq {A B} (f : A → B) (l : list A) x y :
  NoDup (f <$> l) → x ∈ l → y ∈ l → f x = f y → x = y.
Proof.
  induction l as [|z l IH]; intros Hnd Hx Hy E; [by apply elem_of_nil in Hx|].
  rewrite fmap_cons in Hnd. apply NoDup_cons in Hnd as [Hz Hnd].
  apply elem_of_cons in Hx as [->|Hx]; apply elem_of_cons in Hy as [->|Hy]; [done| | |by apply IH].
  - exfalso. apply Hz. rewrite E. by apply list_elem_of_fmap_2.
  - exfalso. apply Hz. rewrite <- E. by apply list_elem_of_fmap_2.
Qed.

(** Writing back a record that differs from the stored one in its earnings
    only breaks no unique index. *)
Lemma index_conflict_same_shape l u u' :
  wf_users l → store_get User.id (User.id u') l = Some u → shape u' = shape u →
  index_conflict u' l = false.
Proof.
  intros [Hid Hname Hmail Hcode] Hg Hs. apply store_get_Some in Hg as [Hin Hk].
  unfold index_conflict. apply not_true_is_false. intros Hex.
  apply existsb_exists in Hex as (v & Hv & Hc). apply list_elem_of_In in Hv.
  apply andb_true_iff in Hc as [Hne Hc]. apply negb_true_iff, bool_decide_eq_false in Hne.
  apply Hne. rewrite <- Hk. f_equal.
  apply orb_true_iff in Hc as [Hc|Hc]; [apply orb_true_iff in Hc as [Hc|Hc]|];
    apply bool_decide_eq_true in Hc.
  - apply (NoDup_fmap_eq User.username l); [done..|].
    rewrite Hc. by apply (f_equal User.username) in Hs.
  - apply (NoDup_fmap_eq User.email l); [done..|].
    rewrite Hc. by apply (f_equal User.email) in Hs.
  - apply (NoDup_fmap_eq User.referralCode l); [done..|].
    rewrite Hc. by apply (f_equal User.referralCode) in Hs.
Qed.

(** ** Running the storage requests and one award *)

Ltac run :=
  unfold mbind, async_bind, mret, async_ret, throw, never, next_request, set_users,
    set_referrals; simpl.

(** Every outcome of an award, whatever the environment does: the users keep
    their shape; a rejected award wrote no record, and credited the referrer
    or not; a fulfilled one left [award_world]. *)
Lemma award_run env rid nid level amount w u :
  store_get User.id rid (users w) = Some u →
  ∃ o w', awardEarnings env rid nid level amount w = (o, w') ∧
    shape <$> users w' = shape <$> users w ∧
    ((∃ e, o = Rejected e ∧ referrals w' = referrals w ∧
        (users w' = users w ∨
         users w' = store_put User.id (credit level amount u) (users w))) ∨
     (o = Fulfilled tt ∧ w' = award_world env rid nid level amount u w ∧
      store_get Referral.id (referral_id_at env (ticks w) (draws w)) (referrals w) = None)).
Proof.
  intros Hg. unfold awardEarnings, getUserById, updateUser, addReferral, generateReferralId,
    Date_now, Math_random_base36, request. run.
  destruct (storage_fault env (requests w)) as [e|]; simpl; [by eauto 10|].
  rewrite Hg. simpl.
  destruct (storage_fault env (S (requests w))) as [e|]; simpl; [by eauto 10|].
  destruct (index_conflict _ _); simpl; [by eauto 10|].
  assert (shape <$> store_put User.id (credit level amount u) (users w) = shape <$> users w) as Hs.
  { apply store_put_fmap with u; [|done].
    destruct (store_get_Some _ _ _ _ Hg) as [_ Hk]. simpl. by rewrite Hk. }
  destruct (storage_fault env (S (S (requests w)))) as [e|]; simpl; [by eauto 10|].
  case_bool_decide as Hk; simpl; [by eauto 10|].
  eexists _, _. split; [done|]. split; [done|]. right. split; [done|]. split; [done|].
  destruct (store_get Referral.id _ (referrals w)) eqn:E; [|done]. exfalso. eauto.
Qed.

(** When nothing fails the award is fulfilled. *)
Lemma award_ok env rid nid level amount w u :
  store_get User.id rid (users w) = Some u →
  storage_fault env (requests w) = None →
  storage_fault env (S (requests w)) = None →
  storage_fault env (S (S (requests w))) = None →
  index_conflict (credit level amount u) (users w) = false →
  store_get Referral.id (referral_id_at env (ticks w) (draws w)) (referrals w) = None →
  awardEarnings env rid nid level amount w =
    (Fulfilled tt, award_world env rid nid level amount u w).
Proof.
  intros Hg H0 H1 H2 Hc Hk. unfold awardEarnings, getUserById, updateUser, addReferral,
    generateReferralId, Date_now, Math_random_base36, request. run.
  rewrite H0. simpl. rewrite Hg. simpl. rewrite H1. simpl. rewrite Hc. simpl.
  rewrite H2. simpl.
  unfold referral_id_at in Hk. rewrite Hk.
  by rewrite bool_decide_eq_false_2 by (by intros [? [=]]).
Qed.

(** An award to an id that no user has does nothing. *)
Lemma award_absent env rid nid level amount w :
  store_get User.id rid (users w) = None →
  storage_fault env (requests w) = None →
  awardEarnings env rid nid level amount w = (Fulfilled tt, next_request w).
Proof.
  intros Hg H0. unfold awardEarnings, getUserById, request. run. by rewrite H0, Hg.
Qed.

(** ** The walk up the chain *)

Lemma upcoming_ids_S env t d n :
  upcoming_ids env t d (S n) = referral_id_at env t d :: upcoming_ids env (S (S t)) (S d) n.
Proof.
  unfold upcoming_ids. cbn [seq fmap list_fmap]. f_equal.
  - f_equal; lia.
  - rewrite <- fmap_S_seq, <- list_fmap_compose. apply list_fmap_ext.
    intros _ j _. simpl. f_equal; lia.
Qed.

Lemma calm_next_request env w n : calm env w n → calm env (next_request w) n.
Proof. intros [H1 H2 H3]. by split. Qed.

(** The first of the awards of a calm environment is fulfilled, and leaves a
    calm environment for the others. *)
Lemma calm_award env rid nid level amount w u n :
  calm env w (S n) → u ∈ users w → rid = User.id u →
  awardEarnings env rid nid level amount w =
    (Fulfilled tt, award_world env rid nid level amount u w) ∧
  calm env (award_world env rid nid level amount u w) n.
Proof.
  intros [Hf Hwf Hids] Hin ->. rewrite upcoming_ids_S in Hids.
  apply NoDup_cons in Hids as [Hnew Hids].
  assert (store_get User.id (User.id u) (users w) = Some u) as Hg
    by (by apply store_get_NoDup; [apply Hwf|]).
  assert (store_get Referral.id (referral_id_at env (ticks w) (draws w)) (referrals w) = None)
    as Hk by (apply store_get_None; intros Hin'; apply Hnew, elem_of_app; by right).
  split.
  - apply award_ok; auto. by apply index_conflict_same_shape with u.
  - split; [done| |]; unfold award_world; cbn [users referrals ticks draws].
    + apply wf_users_shape with (users w); [|done]. symmetry. by apply store_put_fmap with u.
    + rewrite (store_put_new Referral.id) by done. cbn [fmap list_fmap].
      rewrite <- Permutation_middle. by apply NoDup_cons.
Qed.

Lemma trail_next_request w w' awards new paid :
  trail (next_request w) w' awards new paid → trail w w' awards new paid.
Proof. by intros []. Qed.

Lemma trail_nil w w' awards :
  users w' = users w → referrals w' = referrals w → trail w w' awards [] [].
Proof.
  intros Hu Hr. split; simpl; [by rewrite Hr|done|apply prefix_nil|lia|done].
Qed.

Lemma walk_post_next_request env nid level w ids res :
  walk_post env nid level (next_request w) ids res → walk_post env nid level w ids res.
Proof.
  intros (Hp & Hs & new & paid & Htrail & Hfull & Hcalm).
  split; [done|]. split; [done|]. exists new, paid. split; [by apply trail_next_request|].
  split; [done|]. intros Hc. by apply Hcalm, calm_next_request.
Qed.

(** A walk that stops before any award. *)
Lemma walk_post_stop env nid level w ids (o : Outcome unit) :
  o ≠ Pending → (o = Fulfilled tt → ids = []) →
  (calm env w (length ids) → o = Fulfilled tt) →
  walk_post env nid level w ids (o, w).
Proof.
  intros Hp Hfull Hcalm. split; [done|]. split; [done|]. exists [], [].
  split; [by apply trail_nil|]. split; [|done].
  cbn [fst]. intros Ho. by rewrite (Hfull Ho).
Qed.

(** Award [u], a stored user, then go on with the chain above [u]. *)
Lemma award_then_spec env nid n u level (next : Async unit) w ids :
  walk_spec env nid n (User.referredBy u) (level + 1) next →
  u ∈ users w → Upline (users w) (User.referredBy u) ids → (length ids < n)%nat →
  walk_post env nid level w (User.id u :: ids)
    ((awardEarnings env (User.id u) nid level (reward_of level);; next) w).
Proof.
  intros Hnext Hin Hup Hlen.
  assert (is_Some (store_get User.id (User.id u) (users w))) as [u0 Hg0].
  { apply store_get_is_Some. by apply list_elem_of_fmap_2. }
  set (a := Award.mk (User.id u) nid level (reward_of level)).
  assert (pay (users w) a = store_put User.id (credit level (reward_of level) u0) (users w))
    as Hpay by (unfold pay; simpl; by rewrite Hg0).
  destruct (award_run env (User.id u) nid level (reward_of level) _ u0 Hg0)
    as (o & w1 & Hrun & Hs & [(e & -> & Hr & Hu) | (-> & Hw1 & Hk)]); run; rewrite Hrun.
  { (* the award is rejected *)
    split; [done|]. split; [done|]. cbn [fst snd].
    assert (calm env w (length (User.id u :: ids)) → Rejected e = Fulfilled tt) as Hcalm.
    { intros Hc. destruct (calm_award env (User.id u) nid level (reward_of level) _ u _ Hc)
        as [E _]; [done..|]. rewrite E in Hrun. done. }
    destruct Hu as [Hu|Hu].
    - exists [], []. split; [by apply trail_nil|done].
    - exists [], [a]. split; [|done]. split; simpl.
      + by rewrite Hr.
      + apply prefix_nil.
      + apply prefix_cons, prefix_nil.
      + lia.
      + by rewrite Hpay. }
  (* the award is fulfilled: the rest of the chain *)
  assert (Upline (users w1) (User.referredBy u) ids) as Hup1
    by (apply Upline_shape with (users w); [by rewrite Hs|done]).
  destruct (next w1) as [o2 w2] eqn:Enext.
  pose proof (Hnext w1 ids Hup1 Hlen) as Hpost. rewrite Enext in Hpost.
  destruct Hpost as (Hp & Hs1 & new & paid & [Hperm Hrec Hpaid Hlag Hus] & Hfull & Hcalm).
  cbn [fst snd] in *. unfold walk_post; cbn [fst snd].
  set (r := award_record env (User.id u) nid level (reward_of level) w).
  assert (referrals w1 ≡ₚ r :: referrals w) as Hw1r.
  { rewrite Hw1. unfold award_world. cbn [referrals]. by apply store_put_new. }
  split; [done|]. split; [by rewrite Hs1, Hs|]. exists (r :: new), (a :: paid).
  split; [split|split].
  + rewrite Hperm, Hw1r. simpl. by rewrite <- Permutation_middle.
  + rewrite fmap_cons. by apply prefix_cons.
  + simpl. by apply prefix_cons.
  + simpl. lia.
  + simpl. rewrite Hpay, Hus. f_equal. by rewrite Hw1.
  + intros Hful. rewrite fmap_cons. simpl. f_equal. by apply Hfull.
  + intros Hc. apply Hcalm.
    destruct (calm_award env (User.id u) nid level (reward_of level) _ u _ Hc)
      as [E Hc1]; [done..|]. rewrite E in Hrun. injection Hrun as <-. done.
Qed.

Lemma stage_spec env nid n prev level next :
  (∀ nxt, walk_spec env nid n (User.referredBy nxt) (level + 1) (next nxt)) →
  walk_spec env nid (S n) (User.referredBy prev) level
    (stage env nid prev level (reward_of level) next).
Proof.
  intros Hnext w ids Hup Hlen. unfold stage.
  destruct Hup as [v Hv | v code Hv Hg | v code u ids Hv Hg Hup]; rewrite Hv.
  - (* the chain ends at [prev] *)
    by apply walk_post_stop.
  - (* the code resolves to nobody *)
    apply walk_post_next_request. unfold getUserByReferralCode, request. run.
    destruct (storage_fault env (requests w)) as [e|] eqn:Hf; simpl.
    + apply walk_post_stop; try done. intros [Hc _ _]. by rewrite Hc in Hf.
    + rewrite Hg. simpl. by apply walk_post_stop.
  - (* the code resolves to [u] *)
    apply walk_post_next_request. unfold getUserByReferralCode, request.
    unfold mbind at 1, async_bind at 1.
    destruct (storage_fault env (requests w)) as [e|] eqn:Hf.
    + apply walk_post_stop; try done. intros [Hc _ _]. by rewrite Hc in Hf.
    + cbn [users next_request]. rewrite Hg.
      destruct (store_get_Some _ _ _ _ Hg) as [Hin _]. simpl in Hlen.
      apply award_then_spec with n; [apply Hnext|done|done|lia].
Qed.

Lemma level4PlusWalk_spec env nid fuel cur level :
  (4 ≤ level)%Z →
  walk_spec env nid fuel (User.referredBy cur) level (level4PlusWalk env fuel nid cur level).
Proof.
  revert cur level. induction fuel as [|fuel IH]; intros cur level Hlevel.
  - intros w ids _ Hlen. lia.
  - change (level4PlusWalk env (S fuel) nid cur level)
      with (stage env nid cur level rewardStructure.level4Plus
              (λ nxt, level4PlusWalk env fuel nid nxt (level + 1))).
    replace rewardStructure.level4Plus with (reward_of level).
    + apply stage_spec. intros nxt. apply IH. lia.
    + unfold reward_of. repeat case_match; try done; lia.
Qed.

Lemma bind_assoc_run {A B C} (m : Async A) (f : A → Async B) (g : B → Async C) w :
  (m ≫= (λ a, f a ≫= g)) w = ((m ≫= f) ≫= g) w.
Proof. unfold mbind, async_bind. by destruct (m w) as [[a|e|] w']. Qed.

Lemma distribute_post_stop env nid w w' ids e :
  users w' = users w → referrals w' = referrals w →
  (calm env w (length ids) → ids ≠ [] → is_Some (store_get User.id nid (users w)) → False) →
  distribute_post env nid w ids (Rejected e, w').
Proof.
  intros Hu Hr Hcalm. unfold distribute_post. cbn [fst snd].
  split; [by eauto|]. split; [by rewrite Hu|]. exists [], [].
  split; [by apply trail_nil|]. split; [done|].
  intros Hc Hi Hn. destruct (Hcalm Hc Hi Hn).
Qed.

Lemma distribute_spec env fuel nid code w ids :
  Lineage (users w) code ids → (length ids ≤ fuel + 2)%nat →
  distribute_post env nid w ids (distribute env fuel nid code w).
Proof.
  intros Hlin Hlen. unfold distribute.
  unfold mbind at 1, async_bind at 1, getUserById at 1, request at 1.
  destruct (storage_fault env (requests w)) as [e|] eqn:Hf0.
  { apply distribute_post_stop; try done. intros [Hc _ _]. by rewrite Hc in Hf0. }
  cbn [users next_request]. destruct (store_get User.id nid (users w)) as [newUser|] eqn:Hnew.
  2:{ apply distribute_post_stop; try done. intros _ _ Hn. rewrite Hnew in Hn.
      by destruct Hn. }
  unfold mbind at 1, async_bind at 1, getUserByReferralCode at 1, request at 1.
  cbn [requests next_request].
  destruct (storage_fault env (S (requests w))) as [e|] eqn:Hf1.
  { apply distribute_post_stop; try done. intros [Hc _ _]. by rewrite Hc in Hf1. }
  change (users (next_request (next_request w))) with (users w).
  destruct Hlin as [Hg | u ids Hg Hup]; rewrite Hg.
  { by apply distribute_post_stop. }
  set (w2 := next_request (next_request w)).
  set (walk := stage env nid u 2 (reward_of 2) (λ level2Referrer,
                 stage env nid level2Referrer 3 (reward_of 3) (λ level3Referrer,
                   level4PlusWalk env fuel nid level3Referrer 4))).
  change (distribute_post env nid w (User.id u :: ids)
            ((awardEarnings env (User.id u) nid 1 (reward_of 1) ≫=
               (λ _, walk ≫= (λ _, mret (mkResult true None)))) w2)).
  rewrite bind_assoc_run.
  assert (walk_post env nid 1 w (User.id u :: ids)
            ((awardEarnings env (User.id u) nid 1 (reward_of 1);; walk) w2)) as Hpost.
  { do 2 apply walk_post_next_request. simpl in Hlen.
    apply award_then_spec with (S (S fuel)); [|by apply store_get_Some in Hg as [? _]|done|lia].
    apply (stage_spec env nid (S fuel) u 2). intros level2Referrer.
    apply (stage_spec env nid fuel level2Referrer 3). intros level3Referrer.
    by apply level4PlusWalk_spec. }
  unfold mbind at 1, async_bind at 1.
  destruct ((awardEarnings env (User.id u) nid 1 (reward_of 1);; walk) w2) as [[[]|e|] w'];
    destruct Hpost as (Hp & Hs & new & paid & Htrail & Hfull & Hcalm); cbn [fst snd] in *.
  - split; [by left|]. split; [done|]. exists new, paid. split; [done|]. split; [|done].
    intros _. split; [done|]. by apply Hfull.
  - split; [by eauto|]. split; [done|]. exists new, paid. split; [done|]. split; [done|].
    intros Hc _ _. by specialize (Hcalm Hc).
  - done.
Qed.

(** What [processNewReferral] has done when it returns, in any environment:
    its result is one of the two objects, the users have their shape, and the
    awards due along the lineage were given from the first on, all of them
    when it reports success, which it does when nothing fails. *)
Lemma processNewReferral_spec env fuel nid code w ids :
  Lineage (users w) code ids → (length ids ≤ fuel + 2)%nat →
  ∃ r w', processNewReferral env fuel nid code w = (Fulfilled r, w') ∧
    (r = mkResult true None ∨ ∃ e, r = mkResult false (Some (message e))) ∧
    shape <$> users w' = shape <$> users w ∧
    ∃ (new : list Referral.t) (paid : list Award.t),
      trail w w' (awards_along nid 1 ids) new paid ∧
      (success r = true → ids ≠ [] ∧ attribution <$> new = awards_along nid 1 ids) ∧
      (calm env w (length ids) → ids ≠ [] → is_Some (store_get User.id nid (users w)) →
         r = mkResult true None).
Proof.
  intros Hlin Hlen. unfold processNewReferral, try_catch.
  pose proof (distribute_spec env fuel nid code w ids Hlin Hlen) as Hpost.
  destruct (distribute env fuel nid code w) as [o w'].
  unfold distribute_post in Hpost. cbn [fst snd] in Hpost.
  destruct Hpost as ([-> | [e ->]] & Hs & new & paid & Htrail & Hfull & Hcalm).
  - eexists _, _. split; [done|]. split; [by left|]. split; [done|]. exists new, paid.
    split; [done|]. split; [|done]. intros _. by apply Hfull.
  - eexists _, _. split; [done|]. split; [by eauto|]. split; [done|]. exists new, paid.
    split; [done|]. split; [done|]. intros Hc Hi Hn. by specialize (Hcalm Hc Hi Hn).
Qed.

(** When every record was written, every award was paid. *)
Lemma trail_full w w' awards new paid :
  trail w w' awards new paid → attribution <$> new = awards →
  paid = awards ∧ users w' = pay_all awards (users w).
Proof.
  intros [_ Hrec Hpaid _ Hus] Hnew. rewrite Hnew in Hrec.
  assert (paid = awards) as -> by (by apply (anti_symm prefix)). done.
Qed.

(** ** Acyclic stores have finite chains *)

Lemma truthy_Some v code : truthy v = Some code → v = Some code.
Proof. destruct v as [[|]|]; naive_solver. Qed.

(** A list of distinct referral codes of stored users is no longer than the
    store. *)
Lemma codes_bounded l (visited : list string) :
  NoDup visited → visited ⊆ User.referralCode <$> l → (length visited ≤ length l)%nat.
Proof.
  intros Hnd Hsub. rewrite <- (length_fmap User.referralCode l).
  by apply submseteq_length, NoDup_submseteq.
Qed.

(** Climbing from [v] with the codes already met in [visited]: the climb must
    end before the codes of the store are used up. *)
Lemma upline_bounded l : Acyclic l →
  ∀ (m : nat) (visited : list string) (v : option string),
    NoDup visited → visited ⊆ User.referralCode <$> l →
    (∀ c d, c ∈ visited → truthy v = Some d → tc (refers l) c d) →
    (length l ≤ m + length visited)%nat →
    ∃ ids, Upline l v ids ∧ (length ids ≤ m)%nat.
Proof.
  intros Hac m. induction m as [|m IH]; intros visited v Hnd Hsub Hreach Hlen.
  all: destruct (truthy v) as [d|] eqn:Hv; [|exists []; split; [by apply Upline_root|simpl; lia]].
  all: destruct (store_get User.referralCode d l) as [u|] eqn:Hg;
    [|exists []; split; [by apply Upline_broken with d|simpl; lia]].
  all: destruct (store_get_Some _ _ _ _ Hg) as [Hin Hd].
  all: assert (d ∉ visited) as Hfresh by (intros Hd'; by apply (Hac d), Hreach).
  all: assert (NoDup (d :: visited)) as Hnd' by (by apply NoDup_cons).
  all: assert (d :: visited ⊆ User.referralCode <$> l) as Hsub'.
  1,3: intros x [->|Hx]%elem_of_cons; [rewrite <- Hd; by apply list_elem_of_fmap_2 | by apply Hsub].
  all: pose proof (codes_bounded l _ Hnd' Hsub') as Hb; simpl in Hb.
  - lia.
  - destruct (IH (d :: visited) (User.referredBy u)) as (ids & Hup & Hids); [done..| |simpl; lia|].
    + intros c d' Hc Hd'. apply truthy_Some in Hd'.
      assert (refers l d d') as Hedge by (by exists u).
      apply elem_of_cons in Hc as [->|Hc]; [by apply tc_once|].
      eapply tc_r; [|done]. by apply Hreach.
    + exists (User.id u :: ids). split; [by apply Upline_step with d|simpl; lia].
Qed.

Lemma upline_exists l v : Acyclic l → ∃ ids, Upline l v ids ∧ (length ids ≤ length l)%nat.
Proof.
  intros Hac. apply (upline_bounded l Hac (length l) [] v).
  - apply NoDup_nil_2.
  - intros x Hx. by apply elem_of_nil in Hx.
  - intros c d Hc. by apply elem_of_nil in Hc.
  - simpl. lia.
Qed.

Lemma lineage_exists l code :
  Acyclic l → ∃ ids, Lineage l code ids ∧ (length ids ≤ length l)%nat.
Proof.
  intros Hac. destruct (store_get User.referralCode code l) as [u|] eqn:Hg.
  2:{ exists []. split; [by apply Lineage_none|simpl; lia]. }
  destruct (store_get_Some _ _ _ _ Hg) as [Hin Hc].
  destruct (upline_bounded l Hac (length l - 1) [code] (User.referredBy u))
    as (ids & Hup & Hlen).
  - apply NoDup_singleton.
  - intros x ->%list_elem_of_singleton. rewrite <- Hc. by apply list_elem_of_fmap_2.
  - intros c d ->%list_elem_of_singleton Hd%truthy_Some. apply tc_once. by exists u.
  - simpl. lia.
  - exists (User.id u :: ids). split; [by apply Lineage_some|].
    destruct l; [by apply elem_of_nil in Hin|]. simpl in *. lia.
Qed.

(** ** Queries: the operations that only read *)

Section Queries.
Context (env : Environment) (l : list User.t) (r : list Referral.t).

Lemma query_ret {A} (a : A) (Φ : A → Prop) : Φ a → query env l r (mret a) Φ.
Proof. by intros H w Hu Hr. Qed.

Lemma query_bind {A B} (m : Async A) (k : A → Async B) (Φ : A → Prop) (Ψ : B → Prop) :
  query env l r m Φ → (∀ a, Φ a → query env l r (k a) Ψ) → query env l r (m ≫= k) Ψ.
Proof.
  intros Hm Hk w Hu Hr. specialize (Hm w Hu Hr). unfold mbind, async_bind.
  destruct (m w) as [[a|e|] w']; cbn [fst snd] in *; destruct Hm as (Hu' & Hr' & Ha);
    [by apply Hk|done..].
Qed.

Lemma query_weaken {A} (m : Async A) (Φ Ψ : A → Prop) :
  query env l r m Φ → (∀ a, Φ a → Ψ a) → query env l r m Ψ.
Proof.
  intros Hm HΦ w Hu Hr. destruct (Hm w Hu Hr) as (Hu' & Hr' & Ha).
  split; [done|]. split; [done|]. destruct (m w).1; auto.
Qed.

Lemma query_request {A} (f : World → A) (Φ : A → Prop) :
  (∀ w, users w = l → referrals w = r → Φ (f w)) →
  query env l r (request env (λ w, (Fulfilled (f w), w))) Φ.
Proof.
  intros Hf w Hu Hr. unfold request.
  destruct (storage_fault env (requests w)) eqn:Hk;
    cbn [fst snd next_request users referrals].
  - split; [done|]. split; [done|]. intros Hnone. by rewrite Hnone in Hk.
  - split; [done|]. split; [done|]. by apply Hf.
Qed.

Lemma query_getUserById id :
  query env l r (getUserById env id) (λ user, user = store_get User.id id l).
Proof. apply query_request. by intros w -> _. Qed.

Lemma query_getUserByReferralCode code :
  query env l r (getUserByReferralCode env code)
    (λ user, user = store_get User.referralCode code l).
Proof. apply query_request. by intros w -> _. Qed.

Lemma query_getAllUsers : query env l r (getAllUsers env) (λ allUsers, allUsers = l).
Proof. apply query_request. by intros w -> _. Qed.

(** The direct referrals of a stored user are the stored users that name
    its code. *)
Lemma query_getDirectReferrals userId :
  query env l r (getDirectReferrals env userId)
    (λ found, match store_get User.id userId l with
              | None => found = []
              | Some user =>
                  found = filter (λ u, User.referredBy u = Some (User.referralCode user)) l
              end).
Proof.
  unfold getDirectReferrals. eapply query_bind; [apply query_getUserById|].
  intros user ->. destruct (store_get User.id userId l) as [user|].
  - eapply query_bind; [apply query_getAllUsers|]. intros ? ->. by apply query_ret.
  - by apply query_ret.
Qed.

(** A loop whose invariant follows the elements already visited. *)
Lemma query_for_of_visited {A B} (xs : list A) (body : B → A → Async B)
    (I : list A → B → Prop) acc :
  I [] acc →
  (∀ visited x acc, x ∈ xs → I visited acc → query env l r (body acc x) (I (visited ++ [x]))) →
  query env l r (for_of xs body acc) (I xs).
Proof.
  intros Hacc Hbody.
  enough (∀ visited acc, I visited acc →
            (∀ visited x acc, x ∈ xs → I visited acc →
               query env l r (body acc x) (I (visited ++ [x]))) →
            query env l r (for_of xs body acc) (I (visited ++ xs))) as H
    by (by apply (H [] acc)).
  clear. induction xs as [|x xs IH]; intros visited acc Hacc Hbody; simpl.
  - rewrite app_nil_r. by apply query_ret.
  - apply query_bind with (I (visited ++ [x])).
    + apply Hbody; [left|done].
    + intros acc' Hacc'. rewrite cons_middle, app_assoc. apply IH; [done|].
      intros ? ? ? ?. apply Hbody. by right.
Qed.

Lemma Upline_chain_from v code ids :
  Upline l v ids → truthy v = Some code →
  chain_from l (store_get User.referralCode code l) ids.
Proof.
  intros [v' Hv | v' code' Hv Hg | v' code' u ids' Hv Hg Hup] Hcode.
  - congruence.
  - assert (code' = code) as -> by congruence. by rewrite Hg.
  - assert (code' = code) as -> by congruence. rewrite Hg. by exists ids'.
Qed.

(** The loop of [getUpline] collects the chain it is on. *)
Lemma query_uplineWalk fuel : ∀ current upline ids,
  chain_from l current ids → (length ids < fuel)%nat →
  query env l r (uplineWalk env fuel current upline)
    (λ result, User.id <$> result = (User.id <$> upline) ++ ids).
Proof.
  induction fuel as [|fuel IH]; intros current upline ids Hchain Hlen; [lia|].
  simpl. destruct current as [u|]; simpl in Hchain.
  2:{ subst ids. apply query_ret. by rewrite app_nil_r. }
  destruct Hchain as (ids' & -> & Hup). simpl in Hlen.
  destruct (truthy (User.referredBy u)) as [code|] eqn:Hv.
  - eapply query_bind; [apply query_getUserByReferralCode|]. intros next ->.
    eapply query_weaken.
    + apply (IH _ (upline ++ [u]) ids'); [by apply Upline_chain_from with (User.referredBy u)|lia].
    + intros result ->. by rewrite fmap_app, <- app_assoc.
  - apply query_ret. inversion Hup; [|congruence..]. by rewrite fmap_app.
Qed.

(** [getUpline] returns the upline of the user, nearest first, and nothing
    for a user that is not stored. *)
Lemma query_getUpline fuel userId :
  Acyclic l → (length l < fuel)%nat →
  query env l r (getUpline env fuel userId)
    (λ upline, match store_get User.id userId l with
               | None => upline = []
               | Some user => Upline l (User.referredBy user) (User.id <$> upline)
               end).
Proof.
  intros Hac Hfuel. unfold getUpline.
  eapply query_bind; [apply query_getUserById|]. intros user ->.
  destruct (store_get User.id userId l) as [user|]; [|by apply query_ret].
  destruct (upline_exists l (User.referredBy user) Hac) as (ids & Hup & Hlen).
  destruct (truthy (User.referredBy user)) as [code|] eqn:Hv.
  - eapply query_bind; [apply query_getUserByReferralCode|]. intros current ->.
    eapply query_weaken.
    + apply (query_uplineWalk fuel _ [] ids); [by apply Upline_chain_from with (User.referredBy user)|lia].
    + intros result Hres. simpl in Hres. by rewrite Hres.
  - apply query_ret. by apply Upline_root.
Qed.

(** Going down from [u] with the codes of the users above it in [visited]:
    the recursion builds the tree of [u] before the codes of the store are
    used up. *)
Lemma query_buildReferralTree_below :
  NoDup (User.id <$> l) → Acyclic l →
  ∀ fuel (visited : list string) u,
    u ∈ l → NoDup visited → visited ⊆ User.referralCode <$> l →
    (∀ c, c ∈ visited → tc (refers l) (User.referralCode u) c) →
    (length l < fuel + length visited)%nat →
    query env l r (buildReferralTree env fuel (User.id u))
      (λ tree, ∃ t, tree = Some t ∧ user_of t = u ∧ is_tree l t).
Proof.
  intros Hids Hac fuel.
  induction fuel as [|fuel IH]; intros visited u Hin Hnd Hsub Hreach Hlen.
  { pose proof (codes_bounded l visited Hnd Hsub). simpl in Hlen. lia. }
  simpl. eapply query_bind; [apply query_getUserById|]. intros user ->.
  rewrite (store_get_NoDup User.id l u Hids Hin).
  eapply query_bind; [apply query_getDirectReferrals|]. intros found Hfound.
  rewrite (store_get_NoDup User.id l u Hids Hin) in Hfound. subst found.
  set (found := filter (λ c, User.referredBy c = Some (User.referralCode u)) l).
  eapply query_bind.
  - apply query_for_of_visited with
      (I := λ seen children, user_of <$> children = seen ∧ Forall (is_tree l) children).
    + by split.
    + intros seen c children Hc [Hseen Htrees].
      apply list_elem_of_filter in Hc as [Hby Hc].
      assert (refers l (User.referralCode c) (User.referralCode u)) as Hedge by (by exists c).
      eapply query_bind.
      * apply (IH (User.referralCode u :: visited) c); [done| | | |simpl; lia].
        -- apply NoDup_cons. split; [|done]. intros Hu. by apply (Hac _ (Hreach _ Hu)).
        -- intros x [->|Hx]%elem_of_cons; [by apply list_elem_of_fmap_2 | by apply Hsub].
        -- intros x [->|Hx]%elem_of_cons; [by apply tc_once|].
           eapply tc_l; [done|]. by apply Hreach.
      * intros tree (t & -> & Ht & Htree). apply query_ret. split.
        -- by rewrite fmap_app, Hseen, <- Ht.
        -- apply Forall_app. split; [done|]. by apply Forall_singleton.
  - intros children [Hch Htrees]. apply query_ret.
    exists (Node u children). split; [done|]. split; [done|]. by apply is_tree_node.
Qed.

(** [buildReferralTree] returns the tree of the user, and [null] for a
    user that is not stored. *)
Lemma query_buildReferralTree fuel userId :
  NoDup (User.id <$> l) → Acyclic l → (length l < fuel)%nat →
  query env l r (buildReferralTree env fuel userId)
    (λ tree, match store_get User.id userId l with
             | None => tree = None
             | Some u => ∃ t, tree = Some t ∧ user_of t = u ∧ is_tree l t
             end).
Proof.
  intros Hids Hac Hfuel. destruct (store_get User.id userId l) as [u|] eqn:Hg.
  - destruct (store_get_Some _ _ _ _ Hg) as [Hin <-].
    apply (query_buildReferralTree_below Hids Hac fuel [] u); try done.
    + apply NoDup_nil_2.
    + intros x Hx. by apply elem_of_nil in Hx.
    + intros x Hx. by apply elem_of_nil in Hx.
    + simpl. lia.
  - destruct fuel as [|fuel]; [lia|]. simpl.
    eapply query_bind; [apply query_getUserById|]. intros user ->. rewrite Hg.
    by apply query_ret.
Qed.
End Queries.

(** ** Counting the nodes of a tree *)

Lemma Tree_forall_ind (P : Tree → Prop) :
  (∀ u children, Forall P children → P (Node u children)) → ∀ t, P t.
Proof.
  intros Hnode. fix IH 1. intros [u children]. apply Hnode.
  induction children as [|c children IHc]; constructor; [apply IH | apply IHc].
Qed.

Lemma fold_left_count {A} (f : A → nat) (xs : list A) (a : nat) :
  fold_left (λ count x, (count + f x)%nat) xs a = (a + sum_list (f <$> xs))%nat.
Proof.
  revert a. induction xs as [|x xs IH]; intros a; csimpl; [lia|]. rewrite IH. lia.
Qed.

Lemma length_concat_members (children : list Tree) :
  length (concat (map members children)) = sum_list ((λ c, length (members c)) <$> children).
Proof.
  induction children as [|c children IH]; csimpl; [done|]. by rewrite length_app, IH.
Qed.

(** [countNodes] counts every node but the root. *)
Lemma countNodes_members t : length (members t) = S (countNodes t).
Proof.
  induction t as [u children IH] using Tree_forall_ind. simpl.
  rewrite fold_left_count, length_concat_members. f_equal.
  induction IH as [|c children Hc _ IHch]; csimpl; [done|]. rewrite Hc, IHch. lia.
Qed.

Lemma countNodes_descendants t : countNodes t = length (descendants t).
Proof.
  destruct t as [u children]. pose proof (countNodes_members (Node u children)) as H.
  unfold descendants. simpl in *. lia.
Qed.

(** Below the root, [countReferrals] adds one to [totalReferrals] for each
    node it visits. *)
Lemma countReferrals_total_below t : ∀ depth stats, (0 < depth)%nat →
  Stats.totalReferrals (countReferrals t depth stats) =
    (Stats.totalReferrals stats + length (members t))%nat.
Proof.
  induction t as [u children IH] using Tree_forall_ind. intros depth stats Hdepth.
  simpl. destruct (Nat.ltb_spec 0 depth) as [_|]; [|lia].
  rewrite length_concat_members.
  match goal with |- Stats.totalReferrals (fold_left _ _ ?st) = _ =>
    assert (Stats.totalReferrals st = S (Stats.totalReferrals stats)) as Hst
      by (by destruct (depth =? 1)%nat);
    generalize dependent st end.
  intros st Hst.
  transitivity (Stats.totalReferrals st +
                sum_list ((λ c, length (members c)) <$> children))%nat; [|lia].
  clear Hst. revert st.
  induction IH as [|c children Hc _ IHch]; intros st; csimpl; [lia|].
  rewrite IHch, Hc by lia. lia.
Qed.

(** From the root, [totalReferrals] is the number of nodes below it. *)
Lemma countReferrals_total t stats :
  Stats.totalReferrals (countReferrals t 0 stats) =
    (Stats.totalReferrals stats + length (descendants t))%nat.
Proof.
  destruct t as [u children]. unfold descendants. simpl.
  rewrite length_concat_members. generalize stats as st.
  induction children as [|c children IH]; intros st; csimpl; [lia|].
  rewrite IH, countReferrals_total_below by lia. lia.
Qed.

(** ** The awards along a chain, counted *)

Lemma awards_along_lookup nid level ids (j : nat) :
  awards_along nid level ids !! j =
    (λ i, Award.mk i nid (level + Z.of_nat j) (reward_of (level + Z.of_nat j))) <$> ids !! j.
Proof.
  revert level j. induction ids as [|i ids IH]; intros level j; [done|].
  destruct j as [|j]; simpl.
  - by rewrite Z.add_0_r.
  - rewrite IH. by replace (level + 1 + Z.of_nat j) with (level + Z.pos (Pos.of_succ_nat j)) by lia.
Qed.

Lemma length_awards_along nid level ids : length (awards_along nid level ids) = length ids.
Proof. revert level. induction ids as [|i ids IH]; intros level; simpl; [done|]. by rewrite IH. Qed.

Lemma count_awards_above nid amount (target level : Z) ids :
  target < level → count_awards target amount (awards_along nid level ids) = 0%nat.
Proof.
  unfold count_awards. revert level. induction ids as [|i ids IH]; intros level Hlt; [done|].
  simpl. rewrite filter_cons. case_decide as Ha; simpl in Ha; [lia|]. apply IH. lia.
Qed.

Lemma count_awards_cons a amount (target : Z) (awards : list Award.t) :
  count_awards target amount (a :: awards) =
    ((if bool_decide (Award.level a = target ∧ Award.earnings a = amount) then 1 else 0) +
     count_awards target amount awards)%nat.
Proof. unfold count_awards. rewrite filter_cons. by case_decide; case_bool_decide. Qed.

(** Along a chain from level 1 there is one award of each of the first
    three levels, as far as the chain goes. *)
Lemma count_awards_first_levels nid ids :
  count_awards 1 rewardStructure.level1 (awards_along nid 1 ids) = (length ids `min` 1)%nat ∧
  count_awards 2 rewardStructure.level2 (awards_along nid 1 ids) =
    ((length ids - 1) `min` 1)%nat ∧
  count_awards 3 rewardStructure.level3 (awards_along nid 1 ids) =
    ((length ids - 2) `min` 1)%nat.
Proof.
  destruct ids as [|i1 [|i2 [|i3 ids]]]; simpl; [done|..];
    rewrite ?count_awards_cons, ?count_awards_above by lia; simpl; repeat split; lia.
Qed.

Lemma truthy_code (code : string) : code ≠ "" → truthy (Some code) = Some code.
Proof. by destruct code. Qed.

(** ** The claims *)

(** C4: when the referral code resolves to no user, or the id of the new
    user resolves to no user, [processNewReferral] returns a failure that
    carries a message, writes no referral record and leaves the users as they
    are; the message is that of the missing user when no request fails. *)
Theorem unresolved_referral_is_refused env fuel newUserId referralCode w :
  store_get User.referralCode referralCode (users w) = None ∨
  store_get User.id newUserId (users w) = None →
  ∃ msg w',
    processNewReferral env fuel newUserId referralCode w =
      (Fulfilled (mkResult false (Some msg)), w') ∧
    referrals w' = referrals w ∧ users w' = users w ∧
    ((∀ k, storage_fault env k = None) →
       msg = match store_get User.id newUserId (users w) with
             | Some _ => "Referrer not found"
             | None => "User not found"
             end).
Proof.
  intros Hmissing.
  unfold processNewReferral, try_catch, distribute.
  unfold mbind at 1, async_bind at 1, getUserById at 1, request at 1.
  destruct (storage_fault env (requests w)) as [e|] eqn:Hf0.
  { eexists _, _. split; [done|]. split; [done|]. split; [done|].
    intros Hc. by rewrite Hc in Hf0. }
  cbn [users next_request]. destruct (store_get User.id newUserId (users w)) as [newUser|].
  2:{ by eexists _, _. }
  destruct Hmissing as [Hcode|]; [|done].
  unfold mbind at 1, async_bind at 1, getUserByReferralCode at 1, request at 1.
  cbn [requests next_request].
  destruct (storage_fault env (S (requests w))) as [e|] eqn:Hf1.
  { eexists _, _. split; [done|]. split; [done|]. split; [done|].
    intros Hc. by rewrite Hc in Hf1. }
  change (users (next_request (next_request w))) with (users w). rewrite Hcode.
  by eexists _, _.
Qed.

Lemma unresolved_referral_is_refused_witness :
  ∃ msg w',
    processNewReferral steady_env 3 "user_3_c" "NOSUCH00" trio =
      (Fulfilled (mkResult false (Some msg)), w') ∧
    referrals w' = referrals trio ∧ users w' = users trio ∧
    ((∀ k, storage_fault steady_env k = None) →
       msg = match store_get User.id "user_3_c" (users trio) with
             | Some _ => "Referrer not found"
             | None => "User not found"
             end).
Proof.
  apply (unresolved_referral_is_refused steady_env 3 "user_3_c" "NOSUCH00" trio).
  left. reflexivity.
Defined.

(** C5, as the code has it: for a user id that resolves to no user, and a
    request that does not fail, [getUpline] returns an empty list and
    [getNetworkSize] returns 0, while [getReferralStats] returns [null], not
    an object of zero counts. *)
Theorem queries_on_unknown_user env fuel userId w :
  store_get User.id userId (users w) = None →
  storage_fault env (requests w) = None →
  getUpline env fuel userId w = (Fulfilled [], next_request w) ∧
  getReferralStats env (S fuel) userId w = (Fulfilled None, next_request w) ∧
  getNetworkSize env (S fuel) userId w = (Fulfilled 0%nat, next_request w).
Proof.
  intros Hg Hf.
  unfold getUpline, getReferralStats, getNetworkSize, buildReferralTree, getUserById, request.
  unfold mbind, async_bind. rewrite Hf. cbn [users next_request]. by rewrite Hg.
Qed.

Lemma queries_on_unknown_user_witness :
  getUpline steady_env 0 "user_9_z" trio = (Fulfilled [], next_request trio) ∧
  getReferralStats steady_env 1 "user_9_z" trio = (Fulfilled None, next_request trio) ∧
  getNetworkSize steady_env 1 "user_9_z" trio = (Fulfilled 0%nat, next_request trio).
Proof.
  apply (queries_on_unknown_user steady_env 0 "user_9_z" trio); reflexivity.
Defined.

(** C5 as stated fails: for an unknown user [getReferralStats] returns
    [null], which is not the object of zero counts. *)
Lemma getReferralStats_of_unknown_user_is_null :
  (getReferralStats steady_env 1 "user_9_z" nobody).1 = Fulfilled None ∧
  (getReferralStats steady_env 1 "user_9_z" nobody).1 ≠ Fulfilled (Some (Stats.mk 0 0 ∅)).
Proof. split; [reflexivity | discriminate]. Qed.

(** Deciding the side conditions of the examples by computation. *)
Lemma NoDup_by_computation (l : list string) : bool_decide (NoDup l) = true → NoDup l.
Proof. apply bool_decide_eq_true_1. Qed.

Lemma wf_users_by_computation l :
  bool_decide (NoDup (User.id <$> l)) = true →
  bool_decide (NoDup (User.username <$> l)) = true →
  bool_decide (NoDup (User.email <$> l)) = true →
  bool_decide (NoDup (User.referralCode <$> l)) = true →
  wf_users l.
Proof. intros H1 H2 H3 H4. split; by apply NoDup_by_computation. Qed.

Lemma calm_steady w n :
  bool_decide (NoDup (User.id <$> users w)) = true →
  bool_decide (NoDup (User.username <$> users w)) = true →
  bool_decide (NoDup (User.email <$> users w)) = true →
  bool_decide (NoDup (User.referralCode <$> users w)) = true →
  bool_decide (NoDup (upcoming_ids steady_env (ticks w) (draws w) n ++
                      (Referral.id <$> referrals w))) = true →
  calm steady_env w n.
Proof.
  intros H1 H2 H3 H4 H5.
  split; [done|split|]; by apply NoDup_by_computation.
Qed.

Lemma calm_one env w n :
  calm env w (S n) → referral_id_at env (ticks w) (draws w) ∉ Referral.id <$> referrals w.
Proof.
  intros [_ _ Hids]. rewrite upcoming_ids_S in Hids. apply NoDup_cons in Hids as [Hnew _].
  intros Hin. apply Hnew, elem_of_app. by right.
Qed.

(** When nothing fails but the generated id is the key of a stored record,
    the referrer is credited and [store.add] rejects. *)
Lemma award_collision env rid nid level amount w u :
  store_get User.id rid (users w) = Some u →
  storage_fault env (requests w) = None →
  storage_fault env (S (requests w)) = None →
  storage_fault env (S (S (requests w))) = None →
  index_conflict (credit level amount u) (users w) = false →
  is_Some (store_get Referral.id (referral_id_at env (ticks w) (draws w)) (referrals w)) →
  awardEarnings env rid nid level amount w =
    (Rejected (ConstraintError env (S (S (S (requests w))))),
     mkWorld (store_put User.id (credit level amount u) (users w)) (referrals w)
       (S (S (ticks w))) (S (draws w)) (S (S (S (requests w))))).
Proof.
  intros Hg H0 H1 H2 Hc Hk. unfold awardEarnings, getUserById, updateUser, addReferral,
    generateReferralId, Date_now, Math_random_base36, request. run.
  rewrite H0. simpl. rewrite Hg. simpl. rewrite H1. simpl. rewrite Hc. simpl.
  rewrite H2. simpl.
  unfold referral_id_at in Hk. by rewrite bool_decide_eq_true_2 by done.
Qed.

(** What [awardEarnings] does, on a store that IndexedDB can hold and when
    no request fails for a reason of its own: it changes nothing and raises
    nothing when no user has the id [referrerId]; otherwise it adds [amount]
    to the total and to the bucket of the level of that user, as doubles
    add, and stores the user; it then appends one referral record with the
    referrer, the referred user, the level, the amount, the generated id
    and the time of the clock, if no stored record has that id.  The id is
    not looked up before: if a stored record has it, [store.add] rejects
    with a [ConstraintError], the user credited and no record written. *)
Theorem awardEarnings_spec env referrerId referredUserId level amount w :
  (∀ k, storage_fault env k = None) → wf_users (users w) →
  match store_get User.id referrerId (users w) with
  | None =>
      ∃ w', awardEarnings env referrerId referredUserId level amount w = (Fulfilled tt, w') ∧
        users w' = users w ∧ referrals w' = referrals w
  | Some u =>
      ∃ o w' u',
        awardEarnings env referrerId referredUserId level amount w = (o, w') ∧
        store_get User.id referrerId (users w') = Some u' ∧
        shape u' = shape u ∧
        User.totalEarnings u' = Number_add (User.totalEarnings u) amount ∧
        EarningsByLevel.level1 (User.earningsByLevel u') =
          (if level =? 1 then Number_add (EarningsByLevel.level1 (User.earningsByLevel u)) amount
           else EarningsByLevel.level1 (User.earningsByLevel u)) ∧
        EarningsByLevel.level2 (User.earningsByLevel u') =
          (if level =? 2 then Number_add (EarningsByLevel.level2 (User.earningsByLevel u)) amount
           else EarningsByLevel.level2 (User.earningsByLevel u)) ∧
        EarningsByLevel.level3 (User.earningsByLevel u') =
          (if level =? 3 then Number_add (EarningsByLevel.level3 (User.earningsByLevel u)) amount
           else EarningsByLevel.level3 (User.earningsByLevel u)) ∧
        EarningsByLevel.level4Plus (User.earningsByLevel u') =
          (if (level =? 1) || (level =? 2) || (level =? 3)
           then EarningsByLevel.level4Plus (User.earningsByLevel u)
           else Number_add (EarningsByLevel.level4Plus (User.earningsByLevel u)) amount) ∧
        (∀ other, other ≠ referrerId →
           store_get User.id other (users w') = store_get User.id other (users w)) ∧
        if bool_decide (referral_id_at env (ticks w) (draws w) ∈ Referral.id <$> referrals w)
        then (∃ e, o = Rejected e ∧ name e = "ConstraintError") ∧ referrals w' = referrals w
        else
          o = Fulfilled tt ∧
          referrals w' ≡ₚ
            Referral.mk (referral_id_at env (ticks w) (draws w)) referrerId referredUserId
              level amount (clock env (S (ticks w))) :: referrals w
  end.
Proof.
  intros Hcalm Hwf. destruct (store_get User.id referrerId (users w)) as [u|] eqn:Hg.
  - destruct (store_get_Some _ _ _ _ Hg) as [Hin Hid].
    assert (index_conflict (credit level amount u) (users w) = false) as Hc
      by (apply index_conflict_same_shape with u; [done|simpl; by rewrite Hid|done]).
    assert (∃ o w', awardEarnings env referrerId referredUserId level amount w = (o, w') ∧
              users w' = store_put User.id (credit level amount u) (users w) ∧
              if bool_decide (referral_id_at env (ticks w) (draws w) ∈
                              Referral.id <$> referrals w)
              then (∃ e, o = Rejected e ∧ name e = "ConstraintError") ∧
                   referrals w' = referrals w
              else o = Fulfilled tt ∧
                   referrals w' ≡ₚ
                     Referral.mk (referral_id_at env (ticks w) (draws w)) referrerId
                       referredUserId level amount (clock env (S (ticks w))) :: referrals w)
      as (o & w' & Hrun & Husers & Hrecords).
    { case_bool_decide as Hk.
      - eexists _, _. split.
        + apply (award_collision env referrerId referredUserId level amount w u); auto.
          by apply store_get_is_Some.
        + split; [done|]. split; [by eexists|done].
      - eexists _, _. split.
        + apply (award_ok env referrerId referredUserId level amount w u); auto.
          by apply store_get_None.
        + unfold award_world, award_record. cbn [users referrals]. split; [done|].
          split; [done|]. apply store_put_new. by apply store_get_None. }
    exists o, w', (credit level amount u). split; [exact Hrun|]. rewrite Husers. split.
    { rewrite <- Hid. apply (store_get_put_eq User.id (credit level amount u)). }
    split; [done|]. split; [done|].
    do 4 (split; [unfold credit; simpl;
                  destruct (Z.eqb_spec level 1), (Z.eqb_spec level 2), (Z.eqb_spec level 3);
                  simpl; try done; lia|]).
    split; [|done].
    intros other Hother. apply store_get_put_ne. simpl. congruence.
  - rewrite award_absent by done. by eexists.
Qed.

Lemma awardEarnings_spec_witness :
  match store_get User.id "user_2_b" (users trio) with
  | None =>
      ∃ w', awardEarnings steady_env "user_2_b" "user_3_c" 1 100 trio = (Fulfilled tt, w') ∧
        users w' = users trio ∧ referrals w' = referrals trio
  | Some u =>
      ∃ o w' u',
        awardEarnings steady_env "user_2_b" "user_3_c" 1 100 trio = (o, w') ∧
        store_get User.id "user_2_b" (users w') = Some u' ∧
        shape u' = shape u ∧
        User.totalEarnings u' = Number_add (User.totalEarnings u) 100 ∧
        EarningsByLevel.level1 (User.earningsByLevel u') =
          (if 1 =? 1 then Number_add (EarningsByLevel.level1 (User.earningsByLevel u)) 100
           else EarningsByLevel.level1 (User.earningsByLevel u)) ∧
        EarningsByLevel.level2 (User.earningsByLevel u') =
          (if 1 =? 2 then Number_add (EarningsByLevel.level2 (User.earningsByLevel u)) 100
           else EarningsByLevel.level2 (User.earningsByLevel u)) ∧
        EarningsByLevel.level3 (User.earningsByLevel u') =
          (if 1 =? 3 then Number_add (EarningsByLevel.level3 (User.earningsByLevel u)) 100
           else EarningsByLevel.level3 (User.earningsByLevel u)) ∧
        EarningsByLevel.level4Plus (User.earningsByLevel u') =
          (if (1 =? 1) || (1 =? 2) || (1 =? 3)
           then EarningsByLevel.level4Plus (User.earningsByLevel u)
           else Number_add (EarningsByLevel.level4Plus (User.earningsByLevel u)) 100) ∧
        (∀ other, other ≠ "user_2_b" →
           store_get User.id other (users w') = store_get User.id other (users trio)) ∧
        if bool_decide (referral_id_at steady_env (ticks trio) (draws trio) ∈
                        Referral.id <$> referrals trio)
        then (∃ e, o = Rejected e ∧ name e = "ConstraintError") ∧
             referrals w' = referrals trio
        else
          o = Fulfilled tt ∧
          referrals w' ≡ₚ
            Referral.mk (referral_id_at steady_env (ticks trio) (draws trio)) "user_2_b"
              "user_3_c" 1 100 (clock steady_env (S (ticks trio))) :: referrals trio
  end.
Proof.
  apply (awardEarnings_spec steady_env "user_2_b" "user_3_c" 1 100 trio).
  - done.
  - apply wf_users_by_computation; vm_compute; reflexivity.
Defined.

(** An award of 100 at level 1 to Bob, evaluated. *)
Example award_to_bob :
  awardEarnings steady_env "user_2_b" "user_3_c" 1 100 trio =
    (Fulfilled tt,
     mkWorld [alice; credit 1 100 bob; carol]
       [Referral.mk "ref_1700000000000_k3j9x0q2a" "user_2_b" "user_3_c" 1 100 1700000000001]
       2 1 3).
Proof. vm_compute. reflexivity. Qed.

(** C7: an award to a stored referrer is to append one record with a new
    id.  The id of a record is made of the time and of a random suffix, and
    nothing looks it up, as [generateReferralCode] does for its codes.  When
    the clock and the draw are those of an earlier award, the second award
    credits its referrer, who is stored, and is rejected by [store.add];
    there is one record, not two. *)
Lemma awardEarnings_may_write_no_record :
  awardEarnings frozen_env "user_2_b" "user_3_c" 1 100 trio =
    (Fulfilled tt,
     mkWorld [alice; credit 1 100 bob; carol]
       [Referral.mk "ref_1700000000000_k3j9x0q2a" "user_2_b" "user_3_c" 1 100 1700000000000]
       2 1 3) ∧
  awardEarnings frozen_env "user_2_b" "user_1_a" 1 100
    (mkWorld [alice; credit 1 100 bob; carol]
       [Referral.mk "ref_1700000000000_k3j9x0q2a" "user_2_b" "user_3_c" 1 100 1700000000000]
       2 1 3) =
    (Rejected (mkError "ConstraintError" "A constraint was not satisfied."),
     mkWorld [alice; credit 1 100 (credit 1 100 bob); carol]
       [Referral.mk "ref_1700000000000_k3j9x0q2a" "user_2_b" "user_3_c" 1 100 1700000000000]
       4 2 6).
Proof. split; vm_compute; reflexivity. Qed.

(** C9: the dispatch on the level has no case left out: for every integer
    level other than 1, 2 and 3, negative ones and 0 included, the amount
    goes to the bucket [level4Plus] and to the total, and to nothing else;
    [awardEarnings] stores the user so credited. *)
Theorem level_dispatch_is_total env referrerId referredUserId level amount w u :
  level ≠ 1 → level ≠ 2 → level ≠ 3 →
  store_get User.id referrerId (users w) = Some u →
  calm env w 1 →
  credit level amount u =
    User.mk (User.id u) (User.username u) (User.email u) (User.passwordHash u)
      (User.referralCode u) (User.referredBy u) (User.isAdmin u) (User.createdAt u)
      (Number_add (User.totalEarnings u) amount)
      (EarningsByLevel.mk
         (EarningsByLevel.level1 (User.earningsByLevel u))
         (EarningsByLevel.level2 (User.earningsByLevel u))
         (EarningsByLevel.level3 (User.earningsByLevel u))
         (Number_add (EarningsByLevel.level4Plus (User.earningsByLevel u)) amount)) ∧
  ∃ w', awardEarnings env referrerId referredUserId level amount w = (Fulfilled tt, w') ∧
    store_get User.id referrerId (users w') = Some (credit level amount u).
Proof.
  intros H1 H2 H3 Hg Hcalm. split.
  - unfold credit. by rewrite !(proj2 (Z.eqb_neq _ _)) by done.
  - destruct (store_get_Some _ _ _ _ Hg) as [Hin Hid].
    destruct (calm_award env referrerId referredUserId level amount w u 0 Hcalm Hin)
      as [Hrun _]; [done|].
    eexists. split; [exact Hrun|]. unfold award_world. cbn [users].
    rewrite <- Hid. apply (store_get_put_eq User.id (credit level amount u)).
Qed.

Lemma level_dispatch_is_total_witness :
  credit (-2) 20 alice =
    User.mk "user_1_a" "alice" "alice@example.org" "5e884898da28" "ALICE001" None false
      1700000000000 20 (EarningsByLevel.mk 0 0 0 20) ∧
  ∃ w', awardEarnings steady_env "user_1_a" "user_3_c" (-2) 20 trio = (Fulfilled tt, w') ∧
    store_get User.id "user_1_a" (users w') = Some (credit (-2) 20 alice).
Proof.
  apply (level_dispatch_is_total steady_env "user_1_a" "user_3_c" (-2) 20 trio alice);
    try done.
  apply calm_steady; vm_compute; reflexivity.
Defined.

(** C2: with a root user [A], a user [B] referred by [A] and a user [C],
    [processNewReferral(C.id, B.referralCode)] reports success, adds 100 to
    the total and to the bucket [level1] of [B], adds 60 to the total and to
    the bucket [level2] of [A], and appends two referral records, one for
    each. The sums are those of doubles, which are exact below [MAX_EXACT].
    The store is one that IndexedDB can hold, the code of [A] is not the
    empty string, and nothing fails. *)
Theorem example_of_two_levels env fuel w (A B C : User.t) :
  calm env w 2 →
  A ∈ users w → B ∈ users w → C ∈ users w →
  User.referredBy A = None →
  User.referredBy B = Some (User.referralCode A) →
  User.referralCode A ≠ "" →
  ∃ w' r1 r2,
    processNewReferral env fuel (User.id C) (User.referralCode B) w =
      (Fulfilled (mkResult true None), w') ∧
    store_get User.id (User.id B) (users w') = Some (credit 1 100 B) ∧
    User.totalEarnings (credit 1 100 B) = Number_add (User.totalEarnings B) 100 ∧
    EarningsByLevel.level1 (User.earningsByLevel (credit 1 100 B)) =
      Number_add (EarningsByLevel.level1 (User.earningsByLevel B)) 100 ∧
    store_get User.id (User.id A) (users w') = Some (credit 2 60 A) ∧
    User.totalEarnings (credit 2 60 A) = Number_add (User.totalEarnings A) 60 ∧
    EarningsByLevel.level2 (User.earningsByLevel (credit 2 60 A)) =
      Number_add (EarningsByLevel.level2 (User.earningsByLevel A)) 60 ∧
    (0 ≤ User.totalEarnings B → User.totalEarnings B + 100 < MAX_EXACT →
     User.totalEarnings (credit 1 100 B) = User.totalEarnings B + 100) ∧
    (0 ≤ User.totalEarnings A → User.totalEarnings A + 60 < MAX_EXACT →
     User.totalEarnings (credit 2 60 A) = User.totalEarnings A + 60) ∧
    referrals w' ≡ₚ [r1; r2] ++ referrals w ∧
    attribution r1 = Award.mk (User.id B) (User.id C) 1 100 ∧
    attribution r2 = Award.mk (User.id A) (User.id C) 2 60.
Proof.
  intros Hcalm HA HB HC HrootA HrefB HcodeA.
  pose proof (calm_users _ _ _ Hcalm) as [Hids _ _ Hcodes].
  assert (User.id A ≠ User.id B) as Hne.
  { intros E. apply (NoDup_fmap_eq User.id (users w)) in E; [|done..]. congruence. }
  assert (Lineage (users w) (User.referralCode B) [User.id B; User.id A]) as Hlin.
  { apply Lineage_some; [by apply store_get_NoDup|]. rewrite HrefB.
    apply Upline_step with (User.referralCode A);
      [by apply truthy_code | by apply store_get_NoDup |].
    apply Upline_root. by rewrite HrootA. }
  destruct (processNewReferral_spec env fuel (User.id C) (User.referralCode B) w _ Hlin)
    as (r & w' & Hrun & _ & _ & new & paid & Htrail & Hfull & Hok); [simpl; lia|].
  assert (r = mkResult true None) as ->
    by (apply Hok; [done|done|by rewrite store_get_NoDup; eauto]).
  destruct (Hfull eq_refl) as [_ Hnew].
  destruct (trail_full _ _ _ _ _ Htrail Hnew) as [_ Hus].
  destruct new as [|r1 [|r2 [|]]]; try done.
  assert (attribution r1 = Award.mk (User.id B) (User.id C) 1 100 ∧
          attribution r2 = Award.mk (User.id A) (User.id C) 2 60) as [Hr1 Hr2].
  { split; [exact (f_equal (λ k : list Award.t, nth 0 k (attribution r1)) Hnew) |
            exact (f_equal (λ k : list Award.t, nth 1 k (attribution r1)) Hnew)]. }
  exists w', r1, r2. split; [done|].
  assert (users w' = store_put User.id (credit 2 60 A)
                       (store_put User.id (credit 1 100 B) (users w))) as ->.
  { rewrite Hus. unfold pay_all. simpl. unfold pay at 2. simpl.
    rewrite (store_get_NoDup User.id (users w) B) by done.
    unfold pay. simpl. rewrite (store_get_put_ne User.id) by done.
    by rewrite (store_get_NoDup User.id (users w) A). }
  split.
  { rewrite (store_get_put_ne User.id); [|by apply not_eq_sym].
    apply (store_get_put_eq User.id (credit 1 100 B)). }
  split; [done|]. split; [done|].
  split; [apply (store_get_put_eq User.id (credit 2 60 A))|].
  split; [done|]. split; [done|].
  split; [intros; by apply Number_add_exact|].
  split; [intros; by apply Number_add_exact|].
  split; [by destruct Htrail|]. done.
Qed.

Lemma example_of_two_levels_witness :
  ∃ w' r1 r2,
    processNewReferral steady_env 0 "user_3_c" "BOB00002" trio =
      (Fulfilled (mkResult true None), w') ∧
    store_get User.id "user_2_b" (users w') = Some (credit 1 100 bob) ∧
    User.totalEarnings (credit 1 100 bob) = 100 ∧
    EarningsByLevel.level1 (User.earningsByLevel (credit 1 100 bob)) = 100 ∧
    store_get User.id "user_1_a" (users w') = Some (credit 2 60 alice) ∧
    User.totalEarnings (credit 2 60 alice) = 60 ∧
    EarningsByLevel.level2 (User.earningsByLevel (credit 2 60 alice)) = 60 ∧
    (0 ≤ 0 → 0 + 100 < MAX_EXACT → User.totalEarnings (credit 1 100 bob) = 0 + 100) ∧
    (0 ≤ 0 → 0 + 60 < MAX_EXACT → User.totalEarnings (credit 2 60 alice) = 0 + 60) ∧
    referrals w' ≡ₚ [r1; r2] ++ referrals trio ∧
    attribution r1 = Award.mk "user_2_b" "user_3_c" 1 100 ∧
    attribution r2 = Award.mk "user_1_a" "user_3_c" 2 60.
Proof.
  apply (example_of_two_levels steady_env 0 trio alice bob carol).
  - apply calm_steady; vm_compute; reflexivity.
  - apply list_elem_of_In. simpl. tauto.
  - apply list_elem_of_In. simpl. tauto.
  - apply list_elem_of_In. simpl. tauto.
  - reflexivity.
  - reflexivity.
  - discriminate.
Defined.

(** The tree of a stored user is determined by the store. *)
Lemma is_tree_unique l t : ∀ t', is_tree l t → is_tree l t' → user_of t = user_of t' → t = t'.
Proof.
  induction t as [u children IH] using Tree_forall_ind.
  intros [u' children'] Ht Ht' Hu. simpl in Hu. subst u'.
  inversion Ht as [? ? _ Hch Htrees]. inversion Ht' as [? ? _ Hch' Htrees']. subst.
  f_equal. rewrite <- Hch' in Hch. clear Hch' Ht Ht'.
  revert children' Hch Htrees'.
  induction IH as [|c children Hc _ IHch]; intros [|c' children'] Hch Htrees'; try done.
  rewrite !fmap_cons in Hch. injection Hch as Hroot Hch.
  apply Forall_cons in Htrees as [Htc Htrees]. apply Forall_cons in Htrees' as [Htc' Htrees'].
  f_equal; [by apply Hc | by apply IHch].
Qed.

(** C6: in a store that IndexedDB can hold and whose referrer graph is
    acyclic, for every stored user [u], [getNetworkSize(u)] is the
    [totalReferrals] of [getReferralStats(u)], whether the two are called on
    the same world or on two that hold the same users: both are the number of
    users below the root of the tree of [u], the root left out. No request
    fails in the statement. *)
Theorem network_size_is_total_referrals env fuel w1 w2 u :
  wf_users (users w1) → Acyclic (users w1) → users w2 = users w1 →
  (∀ k, storage_fault env k = None) →
  u ∈ users w1 → (length (users w1) < fuel)%nat →
  ∃ t stats w1' w2',
    getNetworkSize env fuel (User.id u) w1 = (Fulfilled (countNodes t), w1') ∧
    getReferralStats env fuel (User.id u) w2 = (Fulfilled (Some stats), w2') ∧
    Stats.totalReferrals stats = countNodes t ∧
    countNodes t = length (descendants t) ∧
    user_of t = u ∧ is_tree (users w1) t.
Proof.
  intros [Hids _ _ _] Hac Hsame Hcalm Hin Hfuel.
  assert (∀ w, users w = users w1 → ∃ t w',
            buildReferralTree env fuel (User.id u) w = (Fulfilled (Some t), w') ∧
            user_of t = u ∧ is_tree (users w1) t) as Hbuild.
  { intros w Hw.
    destruct (query_buildReferralTree env (users w1) (referrals w) fuel (User.id u)
                Hids Hac Hfuel w Hw eq_refl) as (_ & _ & Hres).
    rewrite (store_get_NoDup User.id (users w1) u Hids Hin) in Hres.
    destruct (buildReferralTree env fuel (User.id u) w) as [[tree|e|] w']; cbn [fst] in Hres;
      [|done..]. destruct Hres as (t & -> & Ht & Htree). by exists t, w'. }
  destruct (Hbuild w1 eq_refl) as (t & w1' & Hrun1 & Hroot & Htree).
  destruct (Hbuild w2 Hsame) as (t2 & w2' & Hrun2 & Hroot2 & Htree2).
  assert (t2 = t) as -> by (apply (is_tree_unique (users w1)); congruence).
  exists t, (countReferrals t 0 (Stats.mk 0 0 ∅)), w1', w2'.
  unfold getNetworkSize, getReferralStats, mbind, async_bind. rewrite Hrun1, Hrun2.
  split; [done|]. split; [done|]. split; [|split; [by apply countNodes_descendants|done]].
  rewrite countReferrals_total, countNodes_descendants. simpl. lia.
Qed.

(** Users listed after their referrers form no cycle. *)
Lemma referrers_come_first_acyclic l : referrers_come_first l = true → Acyclic l.
Proof.
  intros Hcheck. set (rank := position (User.referralCode <$> l)).
  assert (∀ c d, refers l c d → (rank d < rank c)%nat) as Hstep.
  { intros c d (u & Hin & <- & Hd). unfold referrers_come_first in Hcheck.
    rewrite forallb_forall in Hcheck. apply list_elem_of_In, Hcheck in Hin.
    rewrite Hd in Hin. by apply Nat.ltb_lt in Hin. }
  assert (∀ c d, tc (refers l) c d → (rank d < rank c)%nat) as Hpath.
  { intros c d Hcd. induction Hcd as [c d Hcd | c d e Hcd _ IH].
    - by apply Hstep.
    - apply Hstep in Hcd. lia. }
  intros c Hc. apply Hpath in Hc. lia.
Qed.

Lemma network_size_is_total_referrals_witness :
  ∃ t stats w1' w2',
    getNetworkSize steady_env 7 "user_1_a" family = (Fulfilled (countNodes t), w1') ∧
    getReferralStats steady_env 7 "user_1_a" (next_request family) =
      (Fulfilled (Some stats), w2') ∧
    Stats.totalReferrals stats = countNodes t ∧
    countNodes t = length (descendants t) ∧
    user_of t = alice ∧ is_tree (users family) t.
Proof.
  apply (network_size_is_total_referrals steady_env 7 family (next_request family) alice).
  - apply wf_users_by_computation; vm_compute; reflexivity.
  - apply referrers_come_first_acyclic. vm_compute. reflexivity.
  - reflexivity.
  - reflexivity.
  - apply list_elem_of_In. simpl. tauto.
  - simpl. lia.
Defined.

(** ** The invariant of the earnings *)

Section Keeping.
Context (env : Environment) (P : list User.t → Prop).





























#[local] Arguments randomCharacters : simpl never.


End Keeping.



Section Balanced.
Context (env : Environment).






End Balanced.


(** ** A store with a cycle *)

Lemma bind_fulfilled {A B} (m : Async A) (k : A → Async B) w a w' :
  m w = (Fulfilled a, w') → (m ≫= k) w = k a w'.
Proof. intros H. unfold mbind, async_bind. by rewrite H. Qed.

Lemma bind_pending {A B} (m : Async A) (k : A → Async B) w :
  (m w).1 = Pending → ((m ≫= k) w).1 = Pending.
Proof. unfold mbind, async_bind. by destruct (m w) as [[a|e|] w']. Qed.

Lemma length_append (a s : string) :
  String.length (a +:+ s) = (String.length a + String.length s)%nat.
Proof. induction a as [|c a IH]; simpl; [done|]. by rewrite IH. Qed.

Lemma append_inj_r (s a b : string) : a +:+ s = b +:+ s → a = b.
Proof.
  revert b. induction a as [|c a IH]; intros [|c' b] H.
  - done.
  - apply (f_equal String.length) in H. rewrite !length_append in H. simpl in H. lia.
  - apply (f_equal String.length) in H. rewrite !length_append in H. simpl in H. lia.
  - injection H as -> H. f_equal. by apply IH.
Qed.

(** The ids that [steady_env] generates differ when the readings of the
    clock differ. *)
Lemma referral_id_at_steady (t1 t2 d1 d2 : nat) :
  referral_id_at steady_env t1 d1 = referral_id_at steady_env t2 d2 → t1 = t2.
Proof.
  unfold referral_id_at. cbn [clock entropy steady_env]. intros H.
  apply (inj (String.append "ref_")) in H. apply append_inj_r in H.
  apply (inj pretty) in H. lia.
Qed.

Lemma steady_ids_NoDup (t d n : nat) : NoDup (upcoming_ids steady_env t d n).
Proof.
  unfold upcoming_ids. apply NoDup_fmap_2_strong; [|apply NoDup_seq].
  intros j1 j2 _ _ H. apply referral_id_at_steady in H. lia.
Qed.

Lemma ring_like_ring : ring_like ring.
Proof.
  split; [done|]. intros n. split; [done| |].
  - apply wf_users_by_computation; vm_compute; reflexivity.
  - simpl. rewrite app_nil_r. apply steady_ids_NoDup.
Qed.

Lemma ring_like_next_request w : ring_like w → ring_like (next_request w).
Proof. intros [Hs Hc]. split; [done|]. intros n. by apply calm_next_request. Qed.

Lemma ring_lookup w code :
  ring_like w → code = "ANN00001" ∨ code = "BEN00002" →
  ∃ u, store_get User.referralCode code (users w) = Some u ∧ u ∈ users w ∧ on_ring u.
Proof.
  intros [Hs _] Hcode.
  pose proof (store_get_same_shape User.referralCode code _ _ (λ _, eq_refl) Hs) as E.
  destruct (store_get User.referralCode code (users w)) as [u|] eqn:Hg.
  - exists u. split; [done|]. split; [by apply store_get_Some in Hg as [? _]|].
    destruct Hcode as [-> | ->].
    + change (Some (shape u) = Some (shape ring_a)) in E. apply (inj Some) in E.
      right. by rewrite (shape_referredBy ring_a u E).
    + change (Some (shape u) = Some (shape ring_b)) in E. apply (inj Some) in E.
      left. by rewrite (shape_referredBy ring_b u E).
  - by destruct Hcode as [-> | ->].
Qed.

Lemma ring_award w u nid level amount :
  ring_like w → u ∈ users w →
  ∃ w', awardEarnings steady_env (User.id u) nid level amount w = (Fulfilled tt, w') ∧
    ring_like w'.
Proof.
  intros [Hs Hc] Hin. exists (award_world steady_env (User.id u) nid level amount u w).
  split; [by apply (calm_award steady_env (User.id u) nid level amount w u 0 (Hc 1%nat))|].
  split.
  - rewrite <- Hs. unfold award_world. cbn [users].
    apply (store_put_fmap User.id shape (credit level amount u) (users w) u); [|done].
    apply (store_get_NoDup User.id (users w) u); [apply (Hc 0%nat)|done].
  - intros n. by apply (calm_award steady_env (User.id u) nid level amount w u n (Hc (S n))).
Qed.

Lemma on_ring_truthy u :
  on_ring u → ∃ code, truthy (User.referredBy u) = Some code ∧
                       (code = "ANN00001" ∨ code = "BEN00002").
Proof. intros [H|H]; rewrite H; eauto. Qed.

(** On the ring a stage never ends if what follows it never ends. *)
Lemma stage_on_ring nid prev level amount next w :
  ring_like w → on_ring prev →
  (∀ u w', ring_like w' → on_ring u → (next u w').1 = Pending) →
  (stage steady_env nid prev level amount next w).1 = Pending.
Proof.
  intros Hw Hprev Hnext. unfold stage.
  destruct (on_ring_truthy prev Hprev) as (code & -> & Hcode).
  destruct (ring_lookup w code Hw Hcode) as (u & Hg & Hin & Hu).
  rewrite (bind_fulfilled _ _ w (Some u) (next_request w)).
  2:{ unfold getUserByReferralCode, request. cbn [storage_fault steady_env users next_request].
      by rewrite Hg. }
  destruct (ring_award (next_request w) u nid level amount) as (w' & Hrun & Hw');
    [by apply ring_like_next_request|done|].
  rewrite (bind_fulfilled _ _ _ tt w' Hrun). by apply Hnext.
Qed.

Lemma level4PlusWalk_on_ring fuel : ∀ nid prev level w,
  ring_like w → on_ring prev → (level4PlusWalk steady_env fuel nid prev level w).1 = Pending.
Proof.
  induction fuel as [|fuel IH]; intros nid prev level w Hw Hprev; [done|].
  change (level4PlusWalk steady_env (S fuel) nid prev level)
    with (stage steady_env nid prev level rewardStructure.level4Plus
            (λ nxt, level4PlusWalk steady_env fuel nid nxt (level + 1))).
  apply stage_on_ring; [done..|]. intros u w' Hw' Hu. by apply IH.
Qed.

(** On the ring [processNewReferral] never returns, whatever the fuel. *)
Lemma processNewReferral_on_ring fuel :
  (processNewReferral steady_env fuel "user_3_c" "ANN00001" ring).1 = Pending.
Proof.
  unfold processNewReferral, try_catch.
  enough ((distribute steady_env fuel "user_3_c" "ANN00001" ring).1 = Pending) as H
    by (by destruct (distribute steady_env fuel "user_3_c" "ANN00001" ring) as [[r|e|] w']).
  unfold distribute.
  rewrite (bind_fulfilled _ _ ring (Some ring_c) (next_request ring)) by reflexivity.
  rewrite (bind_fulfilled _ _ (next_request ring) (Some ring_a)
             (next_request (next_request ring))) by reflexivity.
  destruct (ring_award (next_request (next_request ring)) ring_a "user_3_c" 1
              rewardStructure.level1) as (w' & Hrun & Hw').
  { do 2 apply ring_like_next_request. apply ring_like_ring. }
  { apply list_elem_of_In. simpl. tauto. }
  rewrite (bind_fulfilled _ _ _ tt w' Hrun). apply bind_pending.
  apply (stage_on_ring "user_3_c" ring_a 2 rewardStructure.level2
           (λ level2Referrer, stage steady_env "user_3_c" level2Referrer 3
              rewardStructure.level3
              (λ level3Referrer, level4PlusWalk steady_env fuel "user_3_c" level3Referrer 4)));
    [done|by right|].
  intros u2 w2 Hw2 Hu2. apply stage_on_ring; [done..|].
  intros u3 w3 Hw3 Hu3. by apply level4PlusWalk_on_ring.
Qed.

Lemma steady_request {A} (op : Async A) w : request steady_env op w = op (next_request w).
Proof. reflexivity. Qed.

Lemma uplineWalk_on_ring fuel : ∀ current upline w,
  users w = users ring → on_ring current →
  (uplineWalk steady_env fuel (Some current) upline w).1 = Pending.
Proof.
  induction fuel as [|fuel IH]; intros current upline w Hw Hcur; [done|].
  simpl. destruct (on_ring_truthy current Hcur) as (code & -> & Hcode).
  unfold getUserByReferralCode. unfold mbind, async_bind. rewrite steady_request.
  cbn [users next_request]. rewrite Hw.
  destruct Hcode as [-> | ->].
  - change (store_get User.referralCode "ANN00001" (users ring)) with (Some ring_a).
    apply IH; [done|by right].
  - change (store_get User.referralCode "BEN00002" (users ring)) with (Some ring_b).
    apply IH; [done|by left].
Qed.

(** On the ring [getUpline] never returns. *)
Lemma getUpline_on_ring fuel : (getUpline steady_env fuel "user_3_c" ring).1 = Pending.
Proof.
  unfold getUpline.
  rewrite (bind_fulfilled _ _ ring (Some ring_c) (next_request ring)) by reflexivity.
  change (truthy (User.referredBy ring_c)) with (Some "ANN00001"). cbv beta iota.
  rewrite (bind_fulfilled _ _ (next_request ring) (Some ring_a)
             (next_request (next_request ring))) by reflexivity.
  apply uplineWalk_on_ring; [done|by right].
Qed.

Lemma buildReferralTree_on_ring fuel : ∀ w, users w = users ring →
  (buildReferralTree steady_env fuel "user_1_a" w).1 = Pending ∧
  (buildReferralTree steady_env fuel "user_2_b" w).1 = Pending.
Proof.
  induction fuel as [|fuel IH]; intros w Hw; [done|].
  assert (∀ userId (user : User.t) (found : list User.t) (child : User.t) rest,
            store_get User.id userId (users ring) = Some user →
            filter (λ u, User.referredBy u = Some (User.referralCode user)) (users ring)
              = child :: rest →
            (∀ w', users w' = users ring →
               (buildReferralTree steady_env fuel (User.id child) w').1 = Pending) →
            (buildReferralTree steady_env (S fuel) userId w).1 = Pending) as Hstep.
  { intros userId user found child rest Hg Hfound Hchild. simpl.
    rewrite (bind_fulfilled _ _ w (Some user) (next_request w)).
    2:{ unfold getUserById. rewrite steady_request. cbn [users next_request]. by rewrite Hw, Hg. }
    rewrite (bind_fulfilled _ _ (next_request w) (child :: rest)
               (next_request (next_request (next_request w)))).
    2:{ unfold getDirectReferrals, getUserById, getAllUsers.
        unfold mbind, async_bind, mret, async_ret. rewrite steady_request.
        cbn [users next_request]. rewrite Hw, Hg. rewrite steady_request.
        cbn [users next_request]. by rewrite Hw, Hfound. }
    apply bind_pending. simpl. apply bind_pending, bind_pending. by apply Hchild. }
  split.
  - apply (Hstep "user_1_a" ring_a [] ring_b [ring_c]); [done..|]. intros w' Hw'. by apply IH.
  - apply (Hstep "user_2_b" ring_b [] ring_a []); [done..|]. intros w' Hw'. by apply IH.
Qed.

Lemma ring_is_cyclic : ¬ Acyclic (users ring).
Proof.
  intros Hac. apply (Hac "ANN00001").
  apply tc_l with "BEN00002"; [|apply tc_once].
  - exists ring_a. split; [apply list_elem_of_In; simpl; tauto|done].
  - exists ring_b. split; [apply list_elem_of_In; simpl; tauto|done].
Qed.

(** C8: when the referrer graph of a store that IndexedDB can hold has no
    cycle, the walk of [processNewReferral], the loop of [getUpline] and the
    recursion of [buildReferralTree] end for every argument and in every
    environment, within a number of steps that the size of the store bounds;
    on a store with a cycle none of the three needs to end: on [ring] they
    run for as long as they are given fuel. *)
Theorem walks_end_on_acyclic_stores env w :
  wf_users (users w) → Acyclic (users w) →
  (∀ fuel newUserId referralCode, (length (users w) ≤ fuel + 2)%nat →
     (processNewReferral env fuel newUserId referralCode w).1 ≠ Pending) ∧
  (∀ fuel userId, (length (users w) < fuel)%nat →
     (getUpline env fuel userId w).1 ≠ Pending) ∧
  (∀ fuel userId, (length (users w) < fuel)%nat →
     (buildReferralTree env fuel userId w).1 ≠ Pending) ∧
  (wf_users (users ring) ∧ ¬ Acyclic (users ring) ∧
   ∀ fuel,
     (processNewReferral steady_env fuel "user_3_c" "ANN00001" ring).1 = Pending ∧
     (getUpline steady_env fuel "user_3_c" ring).1 = Pending ∧
     (buildReferralTree steady_env fuel "user_1_a" ring).1 = Pending).
Proof.
  intros Hwf Hac. split; [|split; [|split]].
  - intros fuel newUserId referralCode Hfuel.
    destruct (lineage_exists (users w) referralCode Hac) as (ids & Hlin & Hlen).
    destruct (processNewReferral_spec env fuel newUserId referralCode w ids Hlin)
      as (r & w' & Hrun & _); [lia|]. by rewrite Hrun.
  - intros fuel userId Hfuel.
    destruct (query_getUpline env (users w) (referrals w) fuel userId Hac Hfuel w)
      as (_ & _ & Hres); [done..|].
    intros Hp. by rewrite Hp in Hres.
  - intros fuel userId Hfuel.
    destruct (query_buildReferralTree env (users w) (referrals w) fuel userId
                (wf_id _ Hwf) Hac Hfuel w) as (_ & _ & Hres); [done..|].
    intros Hp. by rewrite Hp in Hres.
  - split; [exact (calm_users _ _ _ (proj2 ring_like_ring 0%nat))|].
    split; [apply ring_is_cyclic|].
    intros fuel. split; [apply processNewReferral_on_ring|].
    split; [apply getUpline_on_ring|]. by apply buildReferralTree_on_ring.
Qed.

Lemma walks_end_on_acyclic_stores_witness :
  (∀ fuel newUserId referralCode, (length (users family) ≤ fuel + 2)%nat →
     (processNewReferral steady_env fuel newUserId referralCode family).1 ≠ Pending) ∧
  (∀ fuel userId, (length (users family) < fuel)%nat →
     (getUpline steady_env fuel userId family).1 ≠ Pending) ∧
  (∀ fuel userId, (length (users family) < fuel)%nat →
     (buildReferralTree steady_env fuel userId family).1 ≠ Pending) ∧
  (wf_users (users ring) ∧ ¬ Acyclic (users ring) ∧
   ∀ fuel,
     (processNewReferral steady_env fuel "user_3_c" "ANN00001" ring).1 = Pending ∧
     (getUpline steady_env fuel "user_3_c" ring).1 = Pending ∧
     (buildReferralTree steady_env fuel "user_1_a" ring).1 = Pending).
Proof.
  apply (walks_end_on_acyclic_stores steady_env family).
  - apply wf_users_by_computation; vm_compute; reflexivity.
  - apply referrers_come_first_acyclic. vm_compute. reflexivity.
Defined.






(** ** The examples, evaluated *)

(** Carol registers with the code of Bob: Bob and Alice are credited and two
    records are written. *)
Example trio_referral :
  processNewReferral steady_env 0 "user_3_c" "BOB00002" trio =
    (Fulfilled (mkResult true None),
     mkWorld [credit 2 60 alice; credit 1 100 bob; carol]
       [Referral.mk "ref_1700000000000_k3j9x0q2a" "user_2_b" "user_3_c" 1 100 1700000000001;
        Referral.mk "ref_1700000000002_k3j9x0q2a" "user_1_a" "user_3_c" 2 60 1700000000003]
       4 2 9).
Proof. vm_compute. reflexivity. Qed.

(** The same when the request that looks up the referrer of Bob fails: the
    call reports the failure, and the award to Bob stays. *)
Example trio_referral_interrupted :
  processNewReferral (failing_env 5) 0 "user_3_c" "BOB00002" trio =
    (Fulfilled (mkResult false (Some "The transaction was aborted.")),
     mkWorld [alice; credit 1 100 bob; carol]
       [Referral.mk "ref_1700000000000_k3j9x0q2a" "user_2_b" "user_3_c" 1 100 1700000000001]
       2 1 6).
Proof. vm_compute. reflexivity. Qed.

(** The same when the record of the award to Alice cannot be stored: Alice
    is credited all the same. *)
Example trio_referral_unrecorded :
  processNewReferral (failing_env 8) 0 "user_3_c" "BOB00002" trio =
    (Fulfilled (mkResult false (Some "The transaction was aborted.")),
     mkWorld [credit 2 60 alice; credit 1 100 bob; carol]
       [Referral.mk "ref_1700000000000_k3j9x0q2a" "user_2_b" "user_3_c" 1 100 1700000000001]
       4 2 9).
Proof. vm_compute. reflexivity. Qed.

(** Frank registers with the code of Erin: five awards, at the levels 1 to 5. *)
Example family_referral :
  attribution <$> referrals (processNewReferral steady_env 3 "user_6_f" "ERIN0005" family).2 =
    [Award.mk "user_5_e" "user_6_f" 1 100; Award.mk "user_4_d" "user_6_f" 2 60;
     Award.mk "user_3_c" "user_6_f" 3 40; Award.mk "user_2_b" "user_6_f" 4 20;
     Award.mk "user_1_a" "user_6_f" 5 20].
Proof. vm_compute. reflexivity. Qed.

Example family_upline :
  (getUpline steady_env 6 "user_4_d" family).1 = Fulfilled [carol; bob; alice].
Proof. vm_compute. reflexivity. Qed.

Example family_network :
  (getNetworkSize steady_env 7 "user_2_b" family).1 = Fulfilled 4%nat.
Proof. vm_compute. reflexivity. Qed.

Example family_stats :
  (λ stats, (Stats.directReferrals stats, Stats.totalReferrals stats,
             (λ depth : nat, Stats.levels stats !! depth) <$> [1; 2; 3; 4; 5]%nat)) <$>
    match (getReferralStats steady_env 7 "user_2_b" family).1 with
    | Fulfilled stats => stats
    | _ => None
    end = Some (1%nat, 4%nat, [Some 1; Some 1; Some 1; Some 1; None]%nat).
Proof. vm_compute. reflexivity. Qed.

(** Gina registers with the code of Carol, typed in lower case: she is
    stored with no earnings, and Carol, Bob and Alice are credited. *)
Example registration_of_gina :
  let res :=
    register steady_env 3 "Gina" "Gina@Example.org" "secret1" (Some "carol003") trio in
  res.1 =
    Fulfilled
      (Registration.mk true
         (Some (PublicUser.mk "user_1700000000000_k3j9x0q2a" "gina" "gina@example.org"
                  "BCDEFGHI" (Some "CAROL003") false 1700000000001 0
                  (EarningsByLevel.mk 0 0 0 0)))
         None) ∧
  (λ u, (User.username u, User.totalEarnings u)) <$> users res.2 =
    [("gina", 0); ("alice", 40); ("bob", 60); ("carol", 100)].
Proof. vm_compute. split; reflexivity. Qed.

Example registration_with_unknown_code :
  (register steady_env 3 "Gina" "Gina@Example.org" "secret1" (Some "nosuch00") trio).1 =
    Fulfilled (Registration.mk false None (Some "Invalid referral code")).
Proof. vm_compute. reflexivity. Qed.

(** ** What the operations ensure *)

Section Ensures.
Context (env : Environment).
Implicit Types (P I N : list User.t → list Referral.t → Prop).
Implicit Types (R : JsError → list User.t → list Referral.t → Prop).

Lemma ensures_ret {A} (a : A) P (Q : A → _) R N :
  (∀ l r, P l r → Q a l r) → ensures P (mret a) Q R N.
Proof. intros H w Hw. by apply H. Qed.

Lemma ensures_throw {A} e P (Q : A → _) R N :
  (∀ l r, P l r → R e l r) → ensures P (throw e) Q R N.
Proof. intros H w Hw. by apply H. Qed.

Lemma ensures_never {A} P (Q : A → _) R N :
  (∀ l r, P l r → N l r) → ensures P never Q R N.
Proof. intros H w Hw. by apply H. Qed.

Lemma ensures_bind {A B} (m : Async A) (k : A → Async B) P (Q : A → _) (Q' : B → _) R N :
  ensures P m Q R N → (∀ a, ensures (Q a) (k a) Q' R N) → ensures P (m ≫= k) Q' R N.
Proof.
  intros Hm Hk w Hw. specialize (Hm w Hw). unfold mbind, async_bind.
  destruct (m w) as [[a|e|] w']; [by apply Hk|done..].
Qed.

Lemma ensures_weaken {A} (m : Async A) P P' (Q Q' : A → _) R R' N N' :
  ensures P m Q R N →
  (∀ l r, P' l r → P l r) → (∀ a l r, Q a l r → Q' a l r) →
  (∀ e l r, R e l r → R' e l r) → (∀ l r, N l r → N' l r) →
  ensures P' m Q' R' N'.
Proof.
  intros Hm HP HQ HR HN w Hw. specialize (Hm w (HP _ _ Hw)).
  destruct (m w) as [[a|e|] w']; auto.
Qed.

Lemma ensures_post {A} (m : Async A) P (Q Q' : A → _) R N :
  ensures P m Q R N → (∀ a l r, Q a l r → Q' a l r) → ensures P m Q' R N.
Proof. intros Hm HQ. eapply ensures_weaken; [exact Hm|auto..]. Qed.

Lemma ensures_try_catch {A} (body : Async A) (handler : JsError → Async A)
    P (Q : A → _) R R' N :
  ensures P body Q R N → (∀ e, ensures (R e) (handler e) Q R' N) →
  ensures P (try_catch body handler) Q R' N.
Proof.
  intros Hbody Hhandler w Hw. specialize (Hbody w Hw). unfold try_catch.
  destruct (body w) as [[a|e|] w']; [done|by apply Hhandler|done].
Qed.

Lemma ensures_for_of {A B} (xs : list A) (body : B → A → Async B) (J : B → _) R N acc :
  (∀ acc x, ensures (J acc) (body acc x) J R N) →
  ensures (J acc) (for_of xs body acc) J R N.
Proof.
  intros Hbody. revert acc. induction xs as [|x xs IH]; intros acc; simpl.
  - by apply ensures_ret.
  - eapply ensures_bind; [apply Hbody|]. apply IH.
Qed.

(** A request that fails leaves the stores as they are. *)
Lemma ensures_request {A} (op : Async A) P (Q : A → _) R N :
  ensures P op Q R N → (∀ e l r, P l r → R e l r) → ensures P (request env op) Q R N.
Proof.
  intros Hop HR w Hw. unfold request. destruct (storage_fault env (requests w)) as [e|].
  - by apply HR.
  - by apply Hop.
Qed.

(** Reading: the value is that of the stores, which stay as they are. *)
Lemma ensures_read {A} (f : list User.t → list Referral.t → A) P R N :
  (∀ e l r, P l r → R e l r) →
  ensures P (request env (λ w, (Fulfilled (f (users w) (referrals w)), w)))
    (λ a l r, P l r ∧ a = f l r) R N.
Proof. intros HR. apply ensures_request; [|done]. by intros w Hw. Qed.

Lemma ensures_getUserById id P R N :
  (∀ e l r, P l r → R e l r) →
  ensures P (getUserById env id) (λ a l r, P l r ∧ a = store_get User.id id l) R N.
Proof. apply (ensures_read (λ l _, store_get User.id id l)). Qed.

Lemma ensures_getUserByUsername username P R N :
  (∀ e l r, P l r → R e l r) →
  ensures P (getUserByUsername env username)
    (λ a l r, P l r ∧ a = store_get User.username username l) R N.
Proof. apply (ensures_read (λ l _, store_get User.username username l)). Qed.

Lemma ensures_getUserByEmail email P R N :
  (∀ e l r, P l r → R e l r) →
  ensures P (getUserByEmail env email)
    (λ a l r, P l r ∧ a = store_get User.email email l) R N.
Proof. apply (ensures_read (λ l _, store_get User.email email l)). Qed.

Lemma ensures_getUserByReferralCode code P R N :
  (∀ e l r, P l r → R e l r) →
  ensures P (getUserByReferralCode env code)
    (λ a l r, P l r ∧ a = store_get User.referralCode code l) R N.
Proof. apply (ensures_read (λ l _, store_get User.referralCode code l)). Qed.

Lemma ensures_getAllUsers P R N :
  (∀ e l r, P l r → R e l r) →
  ensures P (getAllUsers env) (λ a l r, P l r ∧ a = l) R N.
Proof. apply (ensures_read (λ l _, l)). Qed.

Lemma ensures_getAllReferrals P R N :
  (∀ e l r, P l r → R e l r) →
  ensures P (getAllReferrals env) (λ a l r, P l r ∧ a = r) R N.
Proof. apply (ensures_read (λ _ r, r)). Qed.

Lemma ensures_getReferralsByReferrer userId P R N :
  (∀ e l r, P l r → R e l r) →
  ensures P (getReferralsByReferrer env userId)
    (λ a l r, P l r ∧ a = index_getAll Referral.referrerId userId r) R N.
Proof. apply (ensures_read (λ _ r, index_getAll Referral.referrerId userId r)). Qed.

(** Writing: a write that is refused leaves the stores as they are. *)
Lemma ensures_updateUser user P R N :
  (∀ e l r, P l r → R e l r) →
  ensures P (updateUser env user)
    (λ a l' r, a = user ∧ ∃ l, P l r ∧ index_conflict user l = false ∧
               l' = store_put User.id user l) R N.
Proof.
  intros HR. apply ensures_request; [|done]. intros w Hw. simpl.
  destruct (index_conflict user (users w)) eqn:Hc; simpl; [by apply HR|]. eauto 10.
Qed.

Lemma ensures_addUser user P R N :
  (∀ e l r, P l r → R e l r) →
  ensures P (addUser env user)
    (λ a l' r, a = user ∧ ∃ l, P l r ∧ store_get User.id (User.id user) l = None ∧
               index_conflict user l = false ∧ l' = store_put User.id user l) R N.
Proof.
  intros HR. apply ensures_request; [|done]. intros w Hw. simpl.
  case_bool_decide as Hk; simpl; [by apply HR|].
  destruct (index_conflict user (users w)) eqn:Hc; simpl; [by apply HR|].
  split; [done|]. exists (users w). split_and!; try done.
  destruct (store_get User.id (User.id user) (users w)) eqn:E; [|done].
  exfalso. apply Hk. by eexists.
Qed.

Lemma ensures_addReferral referral P R N :
  (∀ e l r, P l r → R e l r) →
  ensures P (addReferral env referral)
    (λ a l r', a = referral ∧ ∃ r, P l r ∧
               store_get Referral.id (Referral.id referral) r = None ∧
               r' = store_put Referral.id referral r) R N.
Proof.
  intros HR. apply ensures_request; [|done]. intros w Hw. simpl.
  case_bool_decide as Hk; simpl; [by apply HR|].
  split; [done|]. exists (referrals w). split_and!; try done.
  destruct (store_get Referral.id (Referral.id referral) (referrals w)) eqn:E; [|done].
  exfalso. apply Hk. by eexists.
Qed.

(** The clock and the draws leave the stores alone. *)
Lemma ensures_Date_now P R N : ensures P (Date_now env) (λ _, P) R N.
Proof. by intros w Hw. Qed.

Lemma ensures_generateReferralId P R N : ensures P (generateReferralId env) (λ _, P) R N.
Proof. by intros w Hw. Qed.

Lemma ensures_generateId P R N : ensures P (generateId env) (λ _, P) R N.
Proof. by intros w Hw. Qed.

Lemma ensures_generateId_form P R N :
  ensures P (generateId env)
    (λ id l r, P l r ∧
       ∃ t d, id = "user_" +:+ pretty (clock env t) +:+ "_" +:+ entropy env d) R N.
Proof. intros w Hw. simpl. split; [done|]. by eexists _, _. Qed.

Lemma ensures_hashPassword password P R N :
  ensures P (hashPassword env password) (λ a l r, P l r ∧ a = sha256_hex env password) R N.
Proof. by intros w Hw. Qed.

End Ensures.

(** ** What only reads, and what only awards *)

Section Maintains.
Context (env : Environment).
Implicit Types (I : list User.t → list Referral.t → Prop).

Lemma maintains_ret {A} (a : A) I : maintains I (mret a).
Proof. by apply ensures_ret. Qed.

Lemma maintains_bind {A B} (m : Async A) (k : A → Async B) I :
  maintains I m → (∀ a, maintains I (k a)) → maintains I (m ≫= k).
Proof. intros Hm Hk. eapply ensures_bind; [exact Hm|exact Hk]. Qed.

Lemma maintains_for_of {A B} (xs : list A) (body : B → A → Async B) I acc :
  (∀ acc x, maintains I (body acc x)) → maintains I (for_of xs body acc).
Proof. intros Hbody. by apply (ensures_for_of xs body (λ _, I)). Qed.

Lemma maintains_read {A} (f : list User.t → list Referral.t → A) I :
  maintains I (request env (λ w, (Fulfilled (f (users w) (referrals w)), w))).
Proof.
  eapply ensures_post; [by apply (ensures_read env f I (λ _, I) I)|]. by intros a l r [? _].
Qed.

Lemma maintains_getUserById id I : maintains I (getUserById env id).
Proof. apply (maintains_read (λ l _, store_get User.id id l)). Qed.

Lemma maintains_getUserByReferralCode code I : maintains I (getUserByReferralCode env code).
Proof. apply (maintains_read (λ l _, store_get User.referralCode code l)). Qed.

Lemma maintains_getDirectReferrals userId I : maintains I (getDirectReferrals env userId).
Proof.
  unfold getDirectReferrals. apply maintains_bind; [apply maintains_getUserById|].
  intros [user|]; [|apply maintains_ret].
  apply maintains_bind; [apply (maintains_read (λ l _, l))|]. intros ?. apply maintains_ret.
Qed.

Lemma maintains_buildReferralTree fuel userId I : maintains I (buildReferralTree env fuel userId).
Proof.
  revert userId. induction fuel as [|fuel IH]; intros userId; [by apply ensures_never|].
  simpl. apply maintains_bind; [apply maintains_getUserById|].
  intros [user|]; [|apply maintains_ret].
  apply maintains_bind; [apply maintains_getDirectReferrals|]. intros found.
  apply maintains_bind; [|intros ?; apply maintains_ret].
  apply maintains_for_of. intros children referral.
  apply maintains_bind; [apply IH|]. intros [childTree|]; apply maintains_ret.
Qed.

Lemma maintains_getReferralStats fuel userId I : maintains I (getReferralStats env fuel userId).
Proof.
  unfold getReferralStats. apply maintains_bind; [apply maintains_buildReferralTree|].
  intros [tree|]; apply maintains_ret.
Qed.

Lemma maintains_getNetworkSize fuel userId I : maintains I (getNetworkSize env fuel userId).
Proof.
  unfold getNetworkSize. apply maintains_bind; [apply maintains_buildReferralTree|].
  intros [tree|]; apply maintains_ret.
Qed.

Lemma maintains_uplineWalk fuel current upline I :
  maintains I (uplineWalk env fuel current upline).
Proof.
  revert current upline. induction fuel as [|fuel IH]; intros current upline;
    [by apply ensures_never|].
  simpl. destruct current as [u|]; [|apply maintains_ret].
  destruct (truthy (User.referredBy u)); [|apply maintains_ret].
  apply maintains_bind; [apply maintains_getUserByReferralCode|]. intros next. apply IH.
Qed.

Lemma maintains_getUpline fuel userId I : maintains I (getUpline env fuel userId).
Proof.
  unfold getUpline. apply maintains_bind; [apply maintains_getUserById|].
  intros [user|]; [|apply maintains_ret].
  destruct (truthy (User.referredBy user)); [|apply maintains_ret].
  apply maintains_bind; [apply maintains_getUserByReferralCode|]. intros current.
  apply maintains_uplineWalk.
Qed.

Lemma maintains_getEarningsBreakdown userId I :
  maintains I (getEarningsBreakdown env userId).
Proof.
  unfold getEarningsBreakdown.
  apply maintains_bind;
    [apply (maintains_read (λ _ r, index_getAll Referral.referrerId userId r))|].
  intros found. apply maintains_bind; [|intros ?; apply maintains_ret].
  apply maintains_for_of. intros breakdown ref.
  apply maintains_bind; [apply maintains_getUserById|]. intros ?. apply maintains_ret.
Qed.

Lemma maintains_getSystemStats I : maintains I (getSystemStats env).
Proof.
  unfold getSystemStats. apply maintains_bind; [apply (maintains_read (λ l _, l))|].
  intros allUsers. apply maintains_bind; [apply (maintains_read (λ _ r, r))|].
  intros allReferrals. apply maintains_ret.
Qed.

Lemma maintains_randomCharacters n code I : maintains I (randomCharacters env n code).
Proof.
  revert code. induction n as [|n IH]; intros code; simpl; [apply maintains_ret|].
  apply maintains_bind; [by intros w Hw|]. intros i. apply IH.
Qed.

Lemma maintains_generateReferralCode fuel I : maintains I (generateReferralCode env fuel).
Proof.
  induction fuel as [|fuel IH]; [by apply ensures_never|].
  change (generateReferralCode env (S fuel)) with
    (code ← randomCharacters env 8 EmptyString;
     existingUser ← getUserByReferralCode env code;
     match existingUser with
     | None => mret code
     | Some _ => generateReferralCode env fuel
     end).
  apply maintains_bind; [apply maintains_randomCharacters|]. intros code.
  apply maintains_bind; [apply maintains_getUserByReferralCode|].
  intros [existingUser|]; [apply IH|apply maintains_ret].
Qed.

(** A new key takes its place among the records, which keep theirs. *)
Lemma sublist_store_insert {T} (key : T → string) (x : T) (k : list T) :
  k `sublist_of` store_insert key x k.
Proof.
  induction k as [|y k IH]; simpl; [by apply sublist_nil_l|].
  destruct (String.ltb _ _); [by apply sublist_cons|by apply sublist_skip].
Qed.

Lemma sublist_store_put {T} (key : T → string) (x : T) (k : list T) :
  store_get key (key x) k = None → k `sublist_of` store_put key x k.
Proof.
  intros Hk. unfold store_put. rewrite Hk. case_bool_decide as H.
  - by destruct H.
  - apply sublist_store_insert.
Qed.

(** An award changes the earnings of the referrer and adds a record;
    whatever happens to it, that is all it does. *)
Lemma maintains_awardEarnings s r0 referrerId referredUserId level amount :
  maintains (unaltered s r0) (awardEarnings env referrerId referredUserId level amount).
Proof.
  unfold awardEarnings.
  eapply ensures_bind; [by apply ensures_getUserById|].
  intros [referrer|]; [|apply ensures_ret; by intros l r [? _]].
  eapply ensures_bind with (Q := λ _, unaltered s r0).
  { eapply ensures_post; [apply ensures_updateUser; by intros e l r [? _]|].
    intros _ l' r (_ & l & ((Hs & Hr) & Hget) & _ & ->). split; [|done].
    rewrite <- Hs. symmetry in Hget. apply store_get_Some in Hget as Hid.
    eapply store_put_fmap; [simpl; rewrite (proj2 Hid); exact Hget|done]. }
  intros user. eapply ensures_bind; [apply ensures_generateReferralId|]. intros id.
  eapply ensures_bind; [apply ensures_Date_now|]. intros createdAt.
  eapply ensures_bind; [by apply ensures_addReferral|].
  intros ?. apply ensures_ret. intros l r' (_ & r & (Hs & Hr) & Hnew & ->).
  split; [done|]. etrans; [exact Hr|]. by apply sublist_store_put.
Qed.

Lemma maintains_level4PlusWalk s r0 fuel newUserId currentReferrer level :
  maintains (unaltered s r0) (level4PlusWalk env fuel newUserId currentReferrer level).
Proof.
  revert currentReferrer level. induction fuel as [|fuel IH]; intros currentReferrer level;
    [by apply ensures_never|].
  simpl. destruct (truthy (User.referredBy currentReferrer)); [|apply maintains_ret].
  apply maintains_bind; [apply maintains_getUserByReferralCode|].
  intros [nextReferrer|]; [|apply maintains_ret].
  apply maintains_bind; [apply maintains_awardEarnings|]. intros _. apply IH.
Qed.

Lemma maintains_distribute s r0 fuel newUserId referralCode :
  maintains (unaltered s r0) (distribute env fuel newUserId referralCode).
Proof.
  unfold distribute. apply maintains_bind; [apply maintains_getUserById|].
  intros [newUser|]; [|by apply ensures_throw].
  apply maintains_bind; [apply maintains_getUserByReferralCode|].
  intros [level1Referrer|]; [|by apply ensures_throw].
  apply maintains_bind; [apply maintains_awardEarnings|]. intros _.
  apply maintains_bind; [|intros _; apply maintains_ret].
  destruct (truthy (User.referredBy level1Referrer)); [|apply maintains_ret].
  apply maintains_bind; [apply maintains_getUserByReferralCode|].
  intros [level2Referrer|]; [|apply maintains_ret].
  apply maintains_bind; [apply maintains_awardEarnings|]. intros _.
  destruct (truthy (User.referredBy level2Referrer)); [|apply maintains_ret].
  apply maintains_bind; [apply maintains_getUserByReferralCode|].
  intros [level3Referrer|]; [|apply maintains_ret].
  apply maintains_bind; [apply maintains_awardEarnings|]. intros _.
  apply maintains_level4PlusWalk.
Qed.

(** [processNewReferral] alters nothing but earnings, adds records and
    removes none, and is never rejected. *)
Lemma ensures_processNewReferral s r0 fuel newUserId referralCode :
  ensures (unaltered s r0) (processNewReferral env fuel newUserId referralCode)
    (λ _, unaltered s r0) (λ _ _ _, False) (unaltered s r0).
Proof.
  unfold processNewReferral. eapply ensures_try_catch; [apply maintains_distribute|].
  intros e. by apply ensures_ret.
Qed.

End Maintains.

(** ** Registration *)

Lemma ensures_pre {A} (m : Async A) (P : list User.t → list Referral.t → Prop) Q R N :
  (∀ l r, P l r → ensures (λ l' r', l' = l ∧ r' = r) m Q R N) → ensures P m Q R N.
Proof. intros H w Hw. by apply (H _ _ Hw w). Qed.

Lemma store_get_elem_of_fmap {T} (key : T → string) k (l : list T) x :
  store_get key k l = Some x → k ∈ key <$> l.
Proof. intros H. apply store_get_is_Some. by eexists. Qed.

Lemma truthy_idemp v : truthy (truthy v) = truthy v.
Proof. by destruct v as [[|]|]. Qed.

Lemma toUpperCase_empty s : toUpperCase s = EmptyString → s = EmptyString.
Proof. by destruct s. Qed.

Lemma truthy_referredBy_of referralCode :
  truthy (referredBy_of referralCode) = referredBy_of referralCode.
Proof.
  unfold referredBy_of. destruct (truthy referralCode) as [code|] eqn:E; [|done].
  case_bool_decide as Ht; [done|]. apply truthy_code. intros H%toUpperCase_empty.
  subst code. by destruct Ht.
Qed.

#[local] Arguments randomCharacters : simpl never.
#[local] Arguments generateReferralCode : simpl never.
#[local] Arguments processNewReferral : simpl never.

(** What [register] leaves, however it ends: a refusal leaves the stores as
    it found them; a success has stored one user, whom [addUser] accepted,
    and has then altered nothing but earnings, adding records; and
    [register] is never rejected. *)
Lemma ensures_register env fuel username email password referralCode l0 r0 :
  ensures (λ l r, l = l0 ∧ r = r0)
    (register env fuel username email password referralCode)
    (λ res l r,
       (Registration.success res = false ∧ Registration.user res = None ∧
        is_Some (Registration.error res) ∧ l = l0 ∧ r = r0) ∨
       (∃ n, res = Registration.mk true (Some (sanitizeUser n)) None ∧
             registers env username email password referralCode n l0 ∧
             unaltered (shape <$> store_put User.id n l0) r0 l r))
    (λ _ _ _, False)
    (λ l r,
       (l = l0 ∧ r = r0) ∨
       (∃ n, registers env username email password referralCode n l0 ∧
             unaltered (shape <$> store_put User.id n l0) r0 l r)).
Proof.
  unfold register. eapply ensures_try_catch with (R := λ _ l r, l = l0 ∧ r = r0).
  2: { intros e. apply ensures_ret. intros l r [-> ->]. left. simpl. eauto. }
  destruct (bool_decide (username = EmptyString) || _) eqn:V1; [by apply ensures_throw|].
  destruct (bool_decide (email = EmptyString) || _) eqn:V2; [by apply ensures_throw|].
  destruct (bool_decide (password = EmptyString) || _) eqn:V3; [by apply ensures_throw|].
  eapply ensures_bind; [by apply ensures_getUserByUsername|].
  intros [existingUsername|]; [apply ensures_throw; by intros l r [? _]|].
  eapply ensures_bind; [apply ensures_getUserByEmail; by intros e l r [? _]|].
  intros [existingEmail|]; [apply ensures_throw; by intros l r [[? _] _]|].
  eapply ensures_bind with
    (Q := λ referredBy l r, (l = l0 ∧ r = r0) ∧ referredBy = referredBy_of referralCode ∧
            ∀ d, referredBy = Some d → d ∈ User.referralCode <$> l0).
  { unfold referredBy_of. destruct (truthy referralCode) as [code|].
    2: { apply ensures_ret. by intros l r [[? _] _]. }
    destruct (bool_decide (trim code = EmptyString)).
    { apply ensures_ret. by intros l r [[? _] _]. }
    eapply ensures_bind;
      [apply ensures_getUserByReferralCode; by intros e l r [[? _] _]|].
    intros [referrer|]; [|apply ensures_throw; by intros l r [[[? _] _] _]].
    apply ensures_ret. intros l r [[[[-> ->] _] _] Hr]. split_and!; try done.
    intros d [= <-]. symmetry in Hr. by apply store_get_elem_of_fmap in Hr. }
  intros referredBy. apply ensures_pre. intros l r ([-> ->] & -> & Hcode).
  eapply ensures_bind; [apply ensures_generateId|]. intros id.
  eapply ensures_bind; [apply ensures_hashPassword|]. intros passwordHash.
  apply ensures_pre. intros l r ([-> ->] & ->).
  eapply ensures_bind.
  { eapply ensures_weaken with (Q' := λ _ l r, l = l0 ∧ r = r0);
      [apply (maintains_generateReferralCode env fuel (λ l r, l = l0 ∧ r = r0))|auto..]. }
  intros code. eapply ensures_bind; [apply ensures_Date_now|]. intros createdAt.
  eapply ensures_bind; [by apply ensures_addUser|]. intros user.
  apply ensures_pre. intros l r (-> & l' & [-> ->] & Hid & Hconflict & ->).
  set (n := User.mk id _ _ _ _ _ _ _ _ _) in *.
  assert (registers env username email password referralCode n l0) as Hn.
  { apply orb_false_elim in V1 as [_ V1], V2 as [_ V2], V3 as [_ V3].
    apply Nat.ltb_ge in V1, V3. apply negb_false_iff in V2. by repeat split. }
  eapply ensures_bind with
    (Q := λ _, unaltered (shape <$> store_put User.id n l0) r0).
  { rewrite truthy_referredBy_of. destruct (referredBy_of referralCode) as [d|].
    - eapply ensures_bind.
      + eapply ensures_weaken;
          [apply (ensures_processNewReferral env (shape <$> store_put User.id n l0) r0)|..].
        * by intros ? ? [-> ->].
        * intros a ? ? H. exact H.
        * done.
        * intros ? ? H. right. eauto.
      + intros ?. by apply ensures_ret.
    - apply ensures_ret. by intros ? ? [-> ->]. }
  intros _. apply ensures_ret. intros l r H. right. eauto.
Qed.

(** [createAdminUser] checks nothing and catches nothing: it stores the
    user that [addUser] accepts, and is rejected when [addUser] is. *)
Lemma ensures_createAdminUser env fuel username email password l0 r0 :
  ensures (λ l r, l = l0 ∧ r = r0) (createAdminUser env fuel username email password)
    (λ n l r,
       l = store_put User.id n l0 ∧ r = r0 ∧ admissible n l0 ∧
       User.username n = toLowerCase username ∧ User.email n = toLowerCase email ∧
       User.passwordHash n = sha256_hex env password ∧
       User.isAdmin n = true ∧ User.referredBy n = None)
    (λ _ l r, l = l0 ∧ r = r0)
    (λ l r, l = l0 ∧ r = r0).
Proof.
  unfold createAdminUser.
  eapply ensures_bind; [apply ensures_generateId|]. intros id.
  eapply ensures_bind; [apply ensures_hashPassword|]. intros passwordHash.
  apply ensures_pre. intros l r ([-> ->] & ->).
  eapply ensures_bind; [apply (maintains_generateReferralCode env fuel)|]. intros code.
  eapply ensures_bind; [apply ensures_Date_now|]. intros createdAt.
  eapply ensures_bind; [by apply ensures_addUser|]. intros user.
  apply ensures_ret. intros l r (-> & l' & [-> ->] & Hid & Hconflict & ->).
  by repeat split.
Qed.

(** ** The data model is kept *)

Lemma index_conflict_false n l :
  index_conflict n l = false →
  ∀ v, v ∈ l → User.id v ≠ User.id n →
    User.username v ≠ User.username n ∧ User.email v ≠ User.email n ∧
    User.referralCode v ≠ User.referralCode n.
Proof.
  unfold index_conflict. intros H v Hv Hid.
  assert (existsb (λ v, negb (bool_decide (User.id v = User.id n)) &&
            (bool_decide (User.username v = User.username n) ||
             bool_decide (User.email v = User.email n) ||
             bool_decide (User.referralCode v = User.referralCode n))) l ≠ true) as Hex
    by (by rewrite H).
  rewrite existsb_exists in Hex.
  split_and!; intros Heq; apply Hex; exists v; (split; [by apply list_elem_of_In|]);
    rewrite (bool_decide_eq_false_2 _ Hid); simpl; rewrite (bool_decide_eq_true_2 _ Heq);
    by rewrite ?orb_true_r.
Qed.

Lemma admissible_fresh n l :
  admissible n l →
  (User.id n ∉ User.id <$> l) ∧ (User.username n ∉ User.username <$> l) ∧
  (User.email n ∉ User.email <$> l) ∧ (User.referralCode n ∉ User.referralCode <$> l).
Proof.
  intros [Hid Hconflict _ _ _]. apply store_get_None in Hid.
  assert (∀ v, v ∈ l → User.id v ≠ User.id n) as Hne.
  { intros v Hv Heq. apply Hid. rewrite <- Heq. by apply list_elem_of_fmap_2. }
  split_and!; [done|..]; intros (v & Heq & Hv)%list_elem_of_fmap;
    destruct (index_conflict_false n l Hconflict v Hv (Hne v Hv)) as (? & ? & ?); congruence.
Qed.

Lemma Closed_shape l l' : shape <$> l = shape <$> l' → Closed l → Closed l'.
Proof.
  intros Hs Hc u d Hu Hd. symmetry in Hs.
  destruct (elem_of_same_shape l' l u Hs Hu) as (u' & Hu' & Hsh).
  rewrite <- (fmap_via_shape User.referralCode l l'); [|done|by symmetry].
  apply (Hc u'); [done|]. by rewrite (shape_referredBy _ _ Hsh).
Qed.

Lemma sound_shape l l' : shape <$> l = shape <$> l' → sound l → sound l'.
Proof.
  intros Hs [Hwf Hc Ha]. split; [by eapply wf_users_shape|by eapply Closed_shape|
    by eapply Acyclic_shape].
Qed.

(** No user refers to a code that has just been given out, and so a new
    user closes no cycle. *)
Lemma tc_refers_new n l l' c d :
  l' ≡ₚ n :: l → Closed l → admissible n l →
  tc (refers l') c d →
  d ≠ User.referralCode n ∧ (c ≠ User.referralCode n → tc (refers l) c d).
Proof.
  intros Hperm Hclosed Hn.
  destruct (admissible_fresh n l Hn) as (_ & _ & _ & Hcode).
  assert (∀ x y, refers l' x y →
            y ≠ User.referralCode n ∧ (x ≠ User.referralCode n → refers l x y)) as Hedge.
  { intros x y (u & Hu & Hx & Hy). rewrite Hperm in Hu.
    apply elem_of_cons in Hu as [->|Hu].
    - split; [|done]. intros ->. apply Hcode. by apply (admissible_referrer _ _ Hn).
    - split; [|by exists u]. intros ->. apply Hcode. by apply (Hclosed u). }
  induction 1 as [x y Hxy|x y z Hxy Hyz IH].
  - destruct (Hedge x y Hxy) as [? Hl]. split; [done|]. intros Hx. apply tc_once. by apply Hl.
  - destruct (Hedge x y Hxy) as [Hy Hl]. destruct IH as [Hz IH]. split; [done|].
    intros Hx. eapply tc_l; [by apply Hl|by apply IH].
Qed.

Lemma sound_store_put_new n l : sound l → admissible n l → sound (store_put User.id n l).
Proof.
  intros [[Hid Hname Hmail Hcode] Hclosed Hacyclic] Hn.
  destruct (admissible_fresh n l Hn) as (Hn1 & Hn2 & Hn3 & Hn4).
  assert (store_put User.id n l ≡ₚ n :: l) as Hperm
    by (apply store_put_new, (admissible_id _ _ Hn)).
  split.
  - split; rewrite Hperm, fmap_cons; by apply NoDup_cons.
  - intros u d Hu Hd. rewrite Hperm, fmap_cons. apply elem_of_cons. right.
    rewrite Hperm in Hu. apply elem_of_cons in Hu as [->|Hu].
    + by apply (admissible_referrer _ _ Hn).
    + by apply (Hclosed u).
  - intros c Hc. destruct (tc_refers_new n l _ c c Hperm Hclosed Hn Hc) as [Hne Hl].
    by apply (Hacyclic c), Hl.
Qed.

Lemma sound_nil : sound [].
Proof.
  split.
  - split; apply NoDup_nil_2.
  - by intros u d Hu%elem_of_nil.
  - intros c Hc.
    by destruct Hc as [? ? (u & Hu%elem_of_nil & _)|? ? ? (u & Hu%elem_of_nil & _) _].
Qed.

(** What an operation may do to the stores: add records, alter earnings,
    and, when it is one of the two that create users, first store one user
    that [addUser] accepts. *)
Lemma world_after_users env fuel op w :
  referrals w `sublist_of` referrals (world_after env fuel op w) ∧
  match op with
  | Register _ _ _ _ | CreateAdminUser _ _ _ =>
      shape <$> users (world_after env fuel op w) = shape <$> users w ∨
      ∃ n, admissible n (users w) ∧
           shape <$> users (world_after env fuel op w) =
             shape <$> store_put User.id n (users w)
  | _ => shape <$> users (world_after env fuel op w) = shape <$> users w
  end.
Proof.
  assert (∀ {A} (m : Async A),
            maintains (unaltered (shape <$> users w) (referrals w)) m →
            referrals w `sublist_of` referrals (m w).2 ∧
            shape <$> users (m w).2 = shape <$> users w) as Hkeep.
  { intros A m Hm. specialize (Hm w). destruct (m w) as [[a|e|] w']; simpl.
    all: by destruct Hm as [Hs Hr]; [by split|]. }
  destruct op; simpl.
  - apply Hkeep. eapply ensures_weaken; [apply ensures_processNewReferral|done..].
  - apply Hkeep, maintains_awardEarnings.
  - apply Hkeep, maintains_getDirectReferrals.
  - apply Hkeep, maintains_buildReferralTree.
  - apply Hkeep, maintains_getReferralStats.
  - apply Hkeep, maintains_getUpline.
  - apply Hkeep, maintains_getEarningsBreakdown.
  - apply Hkeep, maintains_getNetworkSize.
  - apply Hkeep, maintains_getSystemStats.
  - pose proof (ensures_register env fuel username email password referralCode
                  (users w) (referrals w) w) as H.
    destruct (register env fuel username email password referralCode w) as [[res|e|] w'];
      simpl; specialize (H (conj eq_refl eq_refl)).
    + destruct H as [(_ & _ & _ & -> & ->)|(n & _ & Hn & Hs & Hr)]; [by split; [|left]|].
      split; [done|]. right. exists n. split; [apply Hn|done].
    + done.
    + destruct H as [[-> ->]|(n & Hn & Hs & Hr)]; [by split; [|left]|].
      split; [done|]. right. exists n. split; [apply Hn|done].
  - pose proof (ensures_createAdminUser env fuel username email password
                  (users w) (referrals w) w) as H.
    destruct (createAdminUser env fuel username email password w) as [[n|e|] w'];
      simpl; specialize (H (conj eq_refl eq_refl)).
    + destruct H as (-> & -> & Hn & _). split; [done|]. right. by exists n.
    + destruct H as [-> ->]. by split; [|left].
    + destruct H as [-> ->]. by split; [|left].
Qed.

Lemma world_after_sound env fuel op w :
  sound (users w) → sound (users (world_after env fuel op w)).
Proof.
  intros Hw.
  assert (∀ l', shape <$> l' = shape <$> users w → sound l') as Hsame
    by (intros l' Hs; symmetry in Hs; by apply (sound_shape _ _ Hs)).
  assert (∀ l', (shape <$> l' = shape <$> users w ∨
                 ∃ n, admissible n (users w) ∧
                      shape <$> l' = shape <$> store_put User.id n (users w)) →
                sound l') as Hgrown.
  { intros l' [Hs|(n & Hn & Hs)]; [by apply Hsame|]. symmetry in Hs.
    apply (sound_shape _ _ Hs). by apply sound_store_put_new. }
  destruct (world_after_users env fuel op w) as [_ H]. destruct op; auto.
Qed.

Lemma replay_sound env ops w : sound (users w) → sound (users (replay env ops w)).
Proof.
  unfold replay. revert w. induction ops as [|[fuel op] ops IH]; intros w Hw; simpl; [done|].
  by apply IH, world_after_sound.
Qed.

(** ** Further properties of the operations *)

(** No operation of the engine, and neither of the two that create users,
    removes a user or a referral record, reorders them, or alters a stored
    record or the identity of a user (anything but the earnings), in any
    environment and however it ends; the two that create users add at most
    one user, the others none. *)
Theorem operations_remove_nothing env fuel op w :
  referrals w `sublist_of` referrals (world_after env fuel op w) ∧
  shape <$> users w `sublist_of` shape <$> users (world_after env fuel op w) ∧
  (length (users (world_after env fuel op w)) ≤ S (length (users w)))%nat ∧
  match op with
  | Register _ _ _ _ | CreateAdminUser _ _ _ => True
  | _ => shape <$> users (world_after env fuel op w) = shape <$> users w
  end.
Proof.
  destruct (world_after_users env fuel op w) as [Hr Hu]. split; [done|].
  assert (∀ l', shape <$> l' = shape <$> users w →
            shape <$> users w `sublist_of` shape <$> l' ∧
            (length l' ≤ S (length (users w)))%nat) as Hsame.
  { intros l' Hs. rewrite Hs. split; [done|].
    apply (f_equal length) in Hs. rewrite !length_fmap in Hs. lia. }
  assert (∀ l', (shape <$> l' = shape <$> users w ∨
                 ∃ n, admissible n (users w) ∧
                      shape <$> l' = shape <$> store_put User.id n (users w)) →
            shape <$> users w `sublist_of` shape <$> l' ∧
            (length l' ≤ S (length (users w)))%nat) as Hgrown.
  { intros l' [Hs|(n & Hn & Hs)]; [by apply Hsame|]. rewrite Hs. split.
    - apply fmap_sublist, sublist_store_put, (admissible_id _ _ Hn).
    - apply (f_equal length) in Hs. rewrite !length_fmap in Hs. rewrite Hs.
      by rewrite (store_put_new User.id n (users w) (admissible_id _ _ Hn)). }
  destruct op; (destruct (Hgrown _ Hu) as [? ?] || destruct (Hsame _ Hu) as [? ?]); auto.
Qed.

(** The data model is kept: a users store in which ids, usernames, emails
    and referral codes are unique, every [referredBy] names a stored code and
    the referrer graph has no cycle is left so by every sequence of
    operations of the engine and of registrations, in any environment and
    however each of them ends; and so on the store they leave
    [processNewReferral], [getUpline] and [buildReferralTree] end. *)
Theorem data_model_is_kept env ops w :
  sound (users w) →
  sound (users (replay env ops w)) ∧
  ∀ env' fuel,
    ((length (users (replay env ops w)) ≤ fuel + 2)%nat →
     ∀ newUserId referralCode,
       (processNewReferral env' fuel newUserId referralCode (replay env ops w)).1 ≠ Pending) ∧
    ((length (users (replay env ops w)) < fuel)%nat →
     ∀ userId,
       (getUpline env' fuel userId (replay env ops w)).1 ≠ Pending ∧
       (buildReferralTree env' fuel userId (replay env ops w)).1 ≠ Pending).
Proof.
  intros Hw. pose proof (replay_sound env ops w Hw) as [Hwf Hclosed Hac].
  split; [done|]. intros env' fuel. split.
  - intros Hfuel newUserId referralCode.
    destruct (lineage_exists _ referralCode Hac) as (ids & Hlin & Hlen).
    destruct (processNewReferral_spec env' fuel newUserId referralCode _ ids Hlin)
      as (r & w' & Hrun & _); [lia|]. by rewrite Hrun.
  - intros Hfuel userId. split.
    + destruct (query_getUpline env' _ (referrals (replay env ops w)) fuel userId Hac Hfuel
                  (replay env ops w)) as (_ & _ & Hres); [done..|].
      intros Hp. by rewrite Hp in Hres.
    + destruct (query_buildReferralTree env' _ (referrals (replay env ops w)) fuel userId
                  (wf_id _ Hwf) Hac Hfuel (replay env ops w)) as (_ & _ & Hres); [done..|].
      intros Hp. by rewrite Hp in Hres.
Qed.

Lemma data_model_is_kept_witness :
  sound (users (replay steady_env two_registrations nobody)) ∧
  ∀ env' fuel,
    ((length (users (replay steady_env two_registrations nobody)) ≤ fuel + 2)%nat →
     ∀ newUserId referralCode,
       (processNewReferral env' fuel newUserId referralCode
          (replay steady_env two_registrations nobody)).1 ≠ Pending) ∧
    ((length (users (replay steady_env two_registrations nobody)) < fuel)%nat →
     ∀ userId,
       (getUpline env' fuel userId (replay steady_env two_registrations nobody)).1 ≠ Pending ∧
       (buildReferralTree env' fuel userId
          (replay steady_env two_registrations nobody)).1 ≠ Pending).
Proof. apply (data_model_is_kept steady_env two_registrations nobody). apply sound_nil. Defined.

Example two_registrations_replayed :
  (λ u, (User.username u, User.referralCode u, User.referredBy u, User.totalEarnings u)) <$>
    users (replay steady_env two_registrations nobody) =
    [("alice", "BCDEFGHI", None, 100); ("bob", "KLMNOPQR", Some "BCDEFGHI", 0)].
Proof. vm_compute. reflexivity. Qed.

(** [register] is never rejected, and what it returns is all or nothing: a
    refusal carries a message and no user, and leaves the two stores as they
    were; a success has stored exactly one user, the one it returns without
    the password hash, with the names in lower case, the digest of the
    password, no administrator rights, no earnings and a referrer that is
    stored, and has done nothing else but what [processNewReferral] does. *)
Theorem register_outcome env fuel username email password referralCode w :
  match register env fuel username email password referralCode w with
  | (Fulfilled res, w') =>
      if Registration.success res
      then ∃ n, res = Registration.mk true (Some (sanitizeUser n)) None ∧
                registers env username email password referralCode n (users w) ∧
                shape <$> users w' = shape <$> store_put User.id n (users w) ∧
                referrals w `sublist_of` referrals w'
      else Registration.user res = None ∧ is_Some (Registration.error res) ∧
           users w' = users w ∧ referrals w' = referrals w
  | (Rejected _, _) => False
  | (Pending, _) => True
  end.
Proof.
  pose proof (ensures_register env fuel username email password referralCode
                (users w) (referrals w) w (conj eq_refl eq_refl)) as H.
  destruct (register env fuel username email password referralCode w) as [[res|e|] w'];
    [|done..].
  destruct H as [(-> & ? & ? & ? & ?)|(n & -> & Hn & Hs & Hr)]; [done|].
  simpl. by exists n.
Qed.

(** [createAdminUser] validates nothing and catches nothing: when it
    returns, the user it returns is stored as an administrator without
    referrer and without earnings, [addUser] having accepted it; when it is
    rejected, or does not return, the stores are as they were. *)
Theorem createAdminUser_outcome env fuel username email password w :
  match createAdminUser env fuel username email password w with
  | (Fulfilled n, w') =>
      users w' = store_put User.id n (users w) ∧ referrals w' = referrals w ∧
      admissible n (users w) ∧
      User.username n = toLowerCase username ∧ User.email n = toLowerCase email ∧
      User.passwordHash n = sha256_hex env password ∧
      User.isAdmin n = true ∧ User.referredBy n = None
  | (_, w') => users w' = users w ∧ referrals w' = referrals w
  end.
Proof.
  pose proof (ensures_createAdminUser env fuel username email password
                (users w) (referrals w) w (conj eq_refl eq_refl)) as H.
  by destruct (createAdminUser env fuel username email password w) as [[n|e|] w'].
Qed.

(** ** The users store under writes *)

Lemma request_calm {A} env (op : Async A) w :
  storage_fault env (requests w) = None → request env op w = op (next_request w).
Proof. unfold request. by intros ->. Qed.

Lemma elem_of_store_replace {T} (key : T → string) (x v : T) (k : list T) :
  v ∈ store_replace key x k → v = x ∨ v ∈ k.
Proof.
  induction k as [|y k IH]; simpl; [by intros ?%elem_of_nil|]. case_bool_decide.
  - intros [->|?]%elem_of_cons; [by left|]. right. by apply elem_of_cons; right.
  - intros [->|Hv]%elem_of_cons; [right; by apply elem_of_cons; left|].
    destruct (IH Hv) as [->|?]; [by left|]. right. by apply elem_of_cons; right.
Qed.

(** A record that replaces the one under its key leaves a field unique if no
    record under another key has its value of the field. *)
Lemma NoDup_store_replace {T} (key f : T → string) (x : T) (k : list T) :
  NoDup (key <$> k) → NoDup (f <$> k) →
  (∀ v, v ∈ k → key v ≠ key x → f v ≠ f x) →
  NoDup (f <$> store_replace key x k).
Proof.
  induction k as [|y k IH]; [done|]. csimpl.
  intros [Hy Hk]%NoDup_cons [Hfy Hfk]%NoDup_cons Hother. case_bool_decide as Hkey; csimpl.
  - apply NoDup_cons. split; [|done].
    intros (v & Hv & Hin)%list_elem_of_fmap. apply (Hother v); [by apply elem_of_cons; right| |done].
    intros Hvx. apply Hy. rewrite Hkey, <- Hvx. by apply list_elem_of_fmap_2.
  - apply NoDup_cons. split.
    + intros (v & Hv & [->|Hin]%elem_of_store_replace)%list_elem_of_fmap.
      * by apply (Hother y); [apply elem_of_cons; left|..].
      * apply Hfy. rewrite Hv. by apply list_elem_of_fmap_2.
    + apply IH; [done..|]. intros v Hv. apply Hother. by apply elem_of_cons; right.
Qed.

(** A write that breaks no unique index leaves the indexes unique. *)
Lemma wf_users_store_put u l :
  wf_users l → index_conflict u l = false → wf_users (store_put User.id u l).
Proof.
  intros [Hid Hname Hmail Hcode] Hconflict.
  pose proof (index_conflict_false u l Hconflict) as Hother.
  destruct (store_get User.id (User.id u) l) as [x|] eqn:Hget.
  - unfold store_put. rewrite Hget, bool_decide_eq_true_2 by by eexists. split.
    + rewrite (store_replace_fmap User.id User.id u l x); [done..|].
      by apply store_get_Some in Hget as [_ ->].
    + apply NoDup_store_replace; [done..|]. intros v Hv Hne. by apply Hother.
    + apply NoDup_store_replace; [done..|]. intros v Hv Hne. by apply Hother.
    + apply NoDup_store_replace; [done..|]. intros v Hv Hne. by apply Hother.
  - pose proof (store_put_new User.id u l Hget) as Hperm.
    assert (∀ v, v ∈ l → User.id v ≠ User.id u) as Hne.
    { intros v Hv Heq. apply store_get_None in Hget. apply Hget. rewrite <- Heq.
      by apply list_elem_of_fmap_2. }
    split; rewrite Hperm, fmap_cons; apply NoDup_cons; (split; [|done]).
    + by apply store_get_None.
    + intros (v & Heq & Hv)%list_elem_of_fmap.
      destruct (Hother v Hv (Hne v Hv)) as (? & ? & ?). congruence.
    + intros (v & Heq & Hv)%list_elem_of_fmap.
      destruct (Hother v Hv (Hne v Hv)) as (? & ? & ?). congruence.
    + intros (v & Heq & Hv)%list_elem_of_fmap.
      destruct (Hother v Hv (Hne v Hv)) as (? & ? & ?). congruence.
Qed.

(** When a write is refused, another record holds one of the three values. *)
Lemma index_conflict_true u l :
  index_conflict u l = true →
  ∃ v, v ∈ l ∧ User.id v ≠ User.id u ∧
       (User.username v = User.username u ∨ User.email v = User.email u ∨
        User.referralCode v = User.referralCode u).
Proof.
  unfold index_conflict. intros (v & Hv & H)%existsb_exists. exists v.
  apply andb_true_iff in H as [Hid H]. apply negb_true_iff, bool_decide_eq_false in Hid.
  split; [by apply list_elem_of_In|]. split; [done|].
  apply orb_true_iff in H as [H|H]; [apply orb_true_iff in H as [H|H]|];
    apply bool_decide_eq_true in H; auto.
Qed.

Lemma getUserById_calm env id w :
  storage_fault env (requests w) = None →
  (getUserById env id w).1 = Fulfilled (store_get User.id id (users w)).
Proof. intros H. unfold getUserById. by rewrite request_calm. Qed.

Lemma getUserByUsername_calm env username w :
  storage_fault env (requests w) = None →
  (getUserByUsername env username w).1 =
    Fulfilled (store_get User.username username (users w)).
Proof. intros H. unfold getUserByUsername. by rewrite request_calm. Qed.

Lemma getUserByEmail_calm env email w :
  storage_fault env (requests w) = None →
  (getUserByEmail env email w).1 = Fulfilled (store_get User.email email (users w)).
Proof. intros H. unfold getUserByEmail. by rewrite request_calm. Qed.

Lemma getUserByReferralCode_calm env code w :
  storage_fault env (requests w) = None →
  (getUserByReferralCode env code w).1 =
    Fulfilled (store_get User.referralCode code (users w)).
Proof. intros H. unfold getUserByReferralCode. by rewrite request_calm. Qed.

(** [addUser] on a store that IndexedDB can hold, when no request fails:
    it stores the user, who is then found under the id, the username, the
    email and the referral code, the other users being found as before; or it
    is rejected with a [ConstraintError], the stores unchanged, because a
    stored user has the id, the username, the email or the referral code. *)
Theorem addUser_outcome env user w :
  (∀ k, storage_fault env k = None) → wf_users (users w) →
  match addUser env user w with
  | (Fulfilled a, w') =>
      a = user ∧ users w' ≡ₚ user :: users w ∧ referrals w' = referrals w ∧
      wf_users (users w') ∧
      (getUserById env (User.id user) w').1 = Fulfilled (Some user) ∧
      (getUserByUsername env (User.username user) w').1 = Fulfilled (Some user) ∧
      (getUserByEmail env (User.email user) w').1 = Fulfilled (Some user) ∧
      (getUserByReferralCode env (User.referralCode user) w').1 = Fulfilled (Some user) ∧
      ∀ id, id ≠ User.id user → (getUserById env id w').1 = (getUserById env id w).1
  | (Rejected e, w') =>
      name e = "ConstraintError" ∧ users w' = users w ∧ referrals w' = referrals w ∧
      ∃ v, v ∈ users w ∧
           (User.id v = User.id user ∨ User.username v = User.username user ∨
            User.email v = User.email user ∨ User.referralCode v = User.referralCode user)
  | (Pending, _) => False
  end.
Proof.
  intros Hcalm Hwf. unfold addUser. rewrite request_calm by done. simpl.
  case_bool_decide as Hkey; simpl.
  { split_and!; try done. destruct Hkey as [v Hv]. apply store_get_Some in Hv as [Hv Hid].
    exists v. auto. }
  destruct (index_conflict user (users w)) eqn:Hconflict; simpl.
  { split_and!; try done. apply index_conflict_true in Hconflict as (v & Hv & _ & H).
    exists v. split; [done|]. destruct H as [?|[?|?]]; auto. }
  assert (store_get User.id (User.id user) (users w) = None) as Hnew.
  { destruct (store_get User.id (User.id user) (users w)) eqn:E; [|done].
    destruct Hkey. by eexists. }
  pose proof (wf_users_store_put user (users w) Hwf Hconflict) as Hwf'.
  pose proof (store_put_new User.id user (users w) Hnew) as Hperm.
  assert (user ∈ store_put User.id user (users w)) as Hin
    by (rewrite Hperm; by apply elem_of_cons; left).
  split_and!; try done.
  - rewrite getUserById_calm by done. simpl. by rewrite store_get_put_eq.
  - rewrite getUserByUsername_calm by done. simpl.
    by rewrite (store_get_NoDup User.username _ user (wf_username _ Hwf') Hin).
  - rewrite getUserByEmail_calm by done. simpl.
    by rewrite (store_get_NoDup User.email _ user (wf_email _ Hwf') Hin).
  - rewrite getUserByReferralCode_calm by done. simpl.
    by rewrite (store_get_NoDup User.referralCode _ user (wf_referralCode _ Hwf') Hin).
  - intros id Hid. rewrite !getUserById_calm by done. simpl.
    by rewrite store_get_put_ne.
Qed.

Lemma addUser_outcome_witness :
  match addUser steady_env zed trio with
  | (Fulfilled a, w') =>
      a = zed ∧ users w' ≡ₚ zed :: users trio ∧ referrals w' = referrals trio ∧
      wf_users (users w') ∧
      (getUserById steady_env (User.id zed) w').1 = Fulfilled (Some zed) ∧
      (getUserByUsername steady_env (User.username zed) w').1 = Fulfilled (Some zed) ∧
      (getUserByEmail steady_env (User.email zed) w').1 = Fulfilled (Some zed) ∧
      (getUserByReferralCode steady_env (User.referralCode zed) w').1 =
        Fulfilled (Some zed) ∧
      ∀ id, id ≠ User.id zed →
        (getUserById steady_env id w').1 = (getUserById steady_env id trio).1
  | (Rejected e, w') =>
      name e = "ConstraintError" ∧ users w' = users trio ∧ referrals w' = referrals trio ∧
      ∃ v, v ∈ users trio ∧
           (User.id v = User.id zed ∨ User.username v = User.username zed ∨
            User.email v = User.email zed ∨ User.referralCode v = User.referralCode zed)
  | (Pending, _) => False
  end.
Proof.
  apply (addUser_outcome steady_env zed trio).
  - done.
  - apply wf_users_by_computation; vm_compute; reflexivity.
Defined.

(** [updateUser] is a [put]: it stores the user whether or not the id is
    stored, replacing the user under the id if there is one and adding the
    user if there is none; the user is then found under the id and the others
    as before; it is rejected, the stores unchanged, exactly when another
    user holds the username, the email or the referral code. *)
Theorem updateUser_outcome env user w :
  (∀ k, storage_fault env k = None) → wf_users (users w) →
  match updateUser env user w with
  | (Fulfilled a, w') =>
      a = user ∧ referrals w' = referrals w ∧ wf_users (users w') ∧
      (getUserById env (User.id user) w').1 = Fulfilled (Some user) ∧
      (∀ id, id ≠ User.id user → (getUserById env id w').1 = (getUserById env id w).1) ∧
      length (users w') =
        match store_get User.id (User.id user) (users w) with
        | Some _ => length (users w)
        | None => S (length (users w))
        end
  | (Rejected e, w') =>
      e = ConstraintError env (S (requests w)) ∧
      users w' = users w ∧ referrals w' = referrals w ∧
      ∃ v, v ∈ users w ∧ User.id v ≠ User.id user ∧
           (User.username v = User.username user ∨ User.email v = User.email user ∨
            User.referralCode v = User.referralCode user)
  | (Pending, _) => False
  end.
Proof.
  intros Hcalm Hwf. unfold updateUser. rewrite request_calm by done. simpl.
  destruct (index_conflict user (users w)) eqn:Hconflict; simpl.
  { split_and!; try done. by apply index_conflict_true. }
  split_and!; try done.
  - by apply wf_users_store_put.
  - rewrite getUserById_calm by done. simpl. by rewrite store_get_put_eq.
  - intros id Hid. rewrite !getUserById_calm by done. simpl. by rewrite store_get_put_ne.
  - destruct (store_get User.id (User.id user) (users w)) as [x|] eqn:Hget.
    + rewrite <- (length_fmap User.id (store_put _ _ _)), <- (length_fmap User.id (users w)).
      f_equal. apply (store_put_fmap User.id User.id user (users w) x Hget).
      by apply store_get_Some in Hget as [_ ->].
    + by rewrite (store_put_new User.id user (users w) Hget).
Qed.

Lemma updateUser_outcome_witness :
  match updateUser steady_env zed trio with
  | (Fulfilled a, w') =>
      a = zed ∧ referrals w' = referrals trio ∧ wf_users (users w') ∧
      (getUserById steady_env (User.id zed) w').1 = Fulfilled (Some zed) ∧
      (∀ id, id ≠ User.id zed →
         (getUserById steady_env id w').1 = (getUserById steady_env id trio).1) ∧
      length (users w') =
        match store_get User.id (User.id zed) (users trio) with
        | Some _ => length (users trio)
        | None => S (length (users trio))
        end
  | (Rejected e, w') =>
      e = ConstraintError steady_env (S (requests trio)) ∧
      users w' = users trio ∧ referrals w' = referrals trio ∧
      ∃ v, v ∈ users trio ∧ User.id v ≠ User.id zed ∧
           (User.username v = User.username zed ∨ User.email v = User.email zed ∨
            User.referralCode v = User.referralCode zed)
  | (Pending, _) => False
  end.
Proof.
  apply (updateUser_outcome steady_env zed trio).
  - done.
  - apply wf_users_by_computation; vm_compute; reflexivity.
Defined.

Lemma store_get_delete_eq {T} (key : T → string) k (l : list T) :
  store_get key k (store_delete key k l) = None.
Proof.
  apply store_get_None. intros (x & -> & Hx)%list_elem_of_fmap.
  by apply list_elem_of_filter in Hx as [Hx _].
Qed.

Lemma store_get_delete_ne {T} (key : T → string) k k' (l : list T) :
  k' ≠ k → store_get key k' (store_delete key k l) = store_get key k' l.
Proof.
  intros Hne. unfold store_delete, store_get.
  induction l as [|x l IH]; [done|]. rewrite filter_cons. simpl.
  destruct (decide (key x ≠ k)) as [Hx|Hx]; simpl.
  - by rewrite IH.
  - rewrite bool_decide_eq_false_2; [done|]. intros Hk. apply Hx. by rewrite Hk.
Qed.

Lemma wf_users_sublist l l' : l' `sublist_of` l → wf_users l → wf_users l'.
Proof.
  intros Hsub [? ? ? ?].
  split; (eapply sublist_NoDup; [|by apply fmap_sublist]; done).
Qed.

(** [deleteUser] removes the user under the id, if there is one, and
    nothing else: the other users and all the referral records stay, also
    the users that the deleted one referred and the records of its awards;
    the id and the referral code of the deleted user then resolve to no
    one, so that the [referredBy] of those users names nobody. *)
Theorem deleteUser_outcome env id w :
  (∀ k, storage_fault env k = None) → wf_users (users w) →
  ∃ w', deleteUser env id w = (Fulfilled tt, w') ∧
    referrals w' = referrals w ∧
    users w' `sublist_of` users w ∧ wf_users (users w') ∧
    (getUserById env id w').1 = Fulfilled None ∧
    (∀ other, other ≠ id → (getUserById env other w').1 = (getUserById env other w).1) ∧
    (∀ u, store_get User.id id (users w) = Some u →
       (getUserByReferralCode env (User.referralCode u) w').1 = Fulfilled None ∧
       ∀ v, v ∈ users w → User.id v ≠ id → User.referredBy v = Some (User.referralCode u) →
         v ∈ users w' ∧ ¬ Closed (users w')).
Proof.
  intros Hcalm Hwf. unfold deleteUser. rewrite request_calm by done. simpl.
  eexists. split; [done|]. simpl.
  assert (store_delete User.id id (users w) `sublist_of` users w) as Hsub
    by apply sublist_filter.
  split_and!; try done.
  - by apply (wf_users_sublist (users w)).
  - rewrite getUserById_calm by done. simpl. by rewrite store_get_delete_eq.
  - intros other Hne. rewrite !getUserById_calm by done. simpl.
    by rewrite store_get_delete_ne.
  - intros u Hu. apply store_get_Some in Hu as [Hu Hid].
    assert (User.referralCode u ∉ User.referralCode <$> store_delete User.id id (users w))
      as Hgone.
    { intros (x & Hcode & Hx)%list_elem_of_fmap.
      apply list_elem_of_filter in Hx as [Hne Hx].
      apply Hne. rewrite <- Hid. f_equal.
      by apply (NoDup_fmap_eq User.referralCode (users w)); [apply Hwf|..]. }
    split.
    + rewrite getUserByReferralCode_calm by done. simpl. f_equal. by apply store_get_None.
    + intros v Hv Hne Hby.
      assert (v ∈ store_delete User.id id (users w)) as Hstays
        by by apply list_elem_of_filter.
      split; [done|]. intros Hclosed. apply Hgone. by apply (Hclosed v).
Qed.

Lemma deleteUser_outcome_witness :
  ∃ w', deleteUser steady_env "user_1_a" trio = (Fulfilled tt, w') ∧
    referrals w' = referrals trio ∧
    users w' `sublist_of` users trio ∧ wf_users (users w') ∧
    (getUserById steady_env "user_1_a" w').1 = Fulfilled None ∧
    (∀ other, other ≠ "user_1_a" →
       (getUserById steady_env other w').1 = (getUserById steady_env other trio).1) ∧
    (∀ u, store_get User.id "user_1_a" (users trio) = Some u →
       (getUserByReferralCode steady_env (User.referralCode u) w').1 = Fulfilled None ∧
       ∀ v, v ∈ users trio → User.id v ≠ "user_1_a" →
         User.referredBy v = Some (User.referralCode u) →
         v ∈ users w' ∧ ¬ Closed (users w')).
Proof.
  apply (deleteUser_outcome steady_env "user_1_a" trio).
  - done.
  - apply wf_users_by_computation; vm_compute; reflexivity.
Defined.

(** [clearAllData] empties the two stores in one transaction: when it is
    fulfilled no user and no record is left, and every lookup of the storage
    manager and every query of the engine answers as on a new database, the
    four lookups of a user, [buildReferralTree] and [getReferralStats] with
    [null], the listings with the empty list, [getNetworkSize] with 0 and
    [getSystemStats] with zeros; when the transaction fails both stores are
    as they were. *)
Theorem clearAllData_outcome env fuel w :
  match clearAllData env w with
  | (Fulfilled _, w') =>
      users w' = [] ∧ referrals w' = [] ∧ sound (users w') ∧
      ((∀ k, storage_fault env k = None) →
       (getSystemStats env w').1 =
         Fulfilled (SystemStats.mk 0 0 0 (EarningsByLevel.mk 0 0 0 0) []) ∧
       (getAllUsers env w').1 = Fulfilled [] ∧
       (getAllReferrals env w').1 = Fulfilled [] ∧
       ∀ userId,
         (getUserById env userId w').1 = Fulfilled None ∧
         (getUserByUsername env userId w').1 = Fulfilled None ∧
         (getUserByEmail env userId w').1 = Fulfilled None ∧
         (getUserByReferralCode env userId w').1 = Fulfilled None ∧
         (getReferralsByReferrer env userId w').1 = Fulfilled [] ∧
         (getDirectReferrals env userId w').1 = Fulfilled [] ∧
         (buildReferralTree env (S fuel) userId w').1 = Fulfilled None ∧
         (getReferralStats env (S fuel) userId w').1 = Fulfilled None ∧
         (getUpline env fuel userId w').1 = Fulfilled [] ∧
         (getNetworkSize env (S fuel) userId w').1 = Fulfilled 0%nat ∧
         (getEarningsBreakdown env userId w').1 = Fulfilled [])
  | (Rejected e, w') =>
      storage_fault env (requests w) = Some e ∧
      users w' = users w ∧ referrals w' = referrals w
  | (Pending, _) => False
  end.
Proof.
  unfold clearAllData, request. destruct (storage_fault env (requests w)) as [e|] eqn:Hf.
  { done. }
  simpl. split_and!; try done; [apply sound_nil|]. intros Hcalm.
  split; [|split; [|split; [|intros userId; split_and!]]];
    repeat (progress (
      unfold getSystemStats, getAllUsers, getAllReferrals, getDirectReferrals, getUpline,
        getNetworkSize, getReferralStats, getEarningsBreakdown, getReferralsByReferrer,
        getUserById, getUserByUsername, getUserByEmail, getUserByReferralCode, request;
      run; rewrite ?Hcalm)); done.
Qed.

Lemma clearAllData_outcome_witness :
  users (clearAllData steady_env trio).2 = [] ∧
  referrals (clearAllData steady_env trio).2 = [] ∧
  (getSystemStats steady_env (clearAllData steady_env trio).2).1 =
    Fulfilled (SystemStats.mk 0 0 0 (EarningsByLevel.mk 0 0 0 0) []) ∧
  (getUserById steady_env "user_1_a" (clearAllData steady_env trio).2).1 = Fulfilled None ∧
  (getReferralStats steady_env 4 "user_1_a" (clearAllData steady_env trio).2).1 =
    Fulfilled None ∧
  (getNetworkSize steady_env 4 "user_1_a" (clearAllData steady_env trio).2).1 =
    Fulfilled 0%nat.
Proof.
  pose proof (clearAllData_outcome steady_env 3 trio) as H.
  destruct (clearAllData steady_env trio) as [[[]|e|] w'] eqn:Hrun;
    [|vm_compute in Hrun; discriminate..].
  destruct H as (Husers & Hreferrals & _ & Hafter).
  destruct (Hafter (λ k, eq_refl)) as (Hstats & _ & _ & Hqueries).
  destruct (Hqueries "user_1_a") as (Hid & _ & _ & _ & _ & _ & _ & Hnone & _ & Hsize & _).
  by split_and!.
Defined.

(** ** Sorting *)

Lemma descending_nil {A} (key : A → Z) : descending key [].
Proof. by intros i j a b _ ?. Qed.

Lemma descending_cons {A} (key : A → Z) a xs :
  descending key (a :: xs) ↔ Forall (λ b, key b ≤ key a) xs ∧ descending key xs.
Proof.
  split.
  - intros H. split.
    + apply Forall_lookup. intros j b Hb. by apply (H 0%nat (S j) a b); [lia|..].
    + intros i j x y Hij Hx Hy. by apply (H (S i) (S j) x y); [lia|..].
  - intros [Ha Hl] [|i] [|j] x y Hij Hx Hy; simpl in *; try lia.
    + injection Hx as <-. by apply (proj1 (Forall_lookup _ _) Ha j).
    + by apply (Hl i j x y); [lia|..].
Qed.

Lemma sort_insert_perm {A} (compare : A → A → Z) a xs : sort_insert compare a xs ≡ₚ a :: xs.
Proof.
  induction xs as [|b xs IH]; simpl; [done|]. destruct (0 <? compare a b); [|done].
  by rewrite IH, Permutation_swap.
Qed.

Lemma sort_perm {A} (compare : A → A → Z) xs : sort compare xs ≡ₚ xs.
Proof.
  unfold sort. induction xs as [|a xs IH]; simpl; [done|]. by rewrite sort_insert_perm, IH.
Qed.

Lemma descending_sort_insert {A} (key : A → Z) a xs :
  descending key xs → descending key (sort_insert (λ a b, key b - key a) a xs).
Proof.
  induction xs as [|b xs IH]; simpl; intros Hl.
  - apply descending_cons. split; [done|apply descending_nil].
  - apply descending_cons in Hl as [Hb Hl]. destruct (Z.ltb_spec 0 (key b - key a)).
    + apply descending_cons. split; [|by apply IH].
      rewrite sort_insert_perm. constructor; [lia|done].
    + apply descending_cons. split.
      * constructor; [lia|]. eapply Forall_impl; [exact Hb|]. simpl. intros. lia.
      * by apply descending_cons.
Qed.

Lemma descending_sort {A} (key : A → Z) xs : descending key (sort (λ a b, key b - key a) xs).
Proof.
  unfold sort. induction xs as [|a xs IH]; simpl; [apply descending_nil|].
  by apply descending_sort_insert.
Qed.

(** The sort is stable: elements with the same key keep their order. *)
Lemma filter_sort_insert {A} (key : A → Z) (v : Z) a xs :
  filter (λ x, key x = v) (sort_insert (λ a b, key b - key a) a xs) =
  filter (λ x, key x = v) (a :: xs).
Proof.
  induction xs as [|b xs IH]; simpl; [done|]. destruct (Z.ltb_spec 0 (key b - key a)); [|done].
  rewrite (filter_cons _ b), IH, !(filter_cons _ a), (filter_cons _ b).
  destruct (decide (key a = v)), (decide (key b = v)); try done. lia.
Qed.

Lemma filter_sort {A} (key : A → Z) (v : Z) xs :
  filter (λ x, key x = v) (sort (λ a b, key b - key a) xs) = filter (λ x, key x = v) xs.
Proof.
  unfold sort. induction xs as [|a xs IH]; simpl; [done|].
  by rewrite filter_sort_insert, !filter_cons, IH.
Qed.

(** ** The two reports *)

Lemma query_getEarningsBreakdown env l (r : list Referral.t) userId :
  query env l r (getEarningsBreakdown env userId)
    (λ breakdown,
       breakdown =
         sort (λ a b, Breakdown.date b - Breakdown.date a)
           (breakdown_entry l <$> index_getAll Referral.referrerId userId r)).
Proof.
  unfold getEarningsBreakdown.
  eapply query_bind.
  { apply (query_request env l r
             (λ w, index_getAll Referral.referrerId userId (referrals w))
             (λ found, found = index_getAll Referral.referrerId userId r)).
    by intros w _ ->. }
  intros found ->. eapply query_bind.
  { apply (query_for_of_visited env l r _ _
             (λ visited breakdown, breakdown = breakdown_entry l <$> visited)); [done|].
    intros visited ref breakdown _ ->.
    eapply query_bind; [apply query_getUserById|]. intros referredUser ->.
    apply query_ret. by rewrite fmap_app. }
  intros breakdown ->. by apply query_ret.
Qed.

(** [getEarningsBreakdown] when no request fails: one entry for each record
    that names the user as referrer, with the level, the amount and the date
    of the record and the referred user as stored, [undefined] if that user
    is not stored; the entries are in descending order of date, those of the
    same date in the order of the records; the stores are unchanged. *)
Theorem getEarningsBreakdown_is_newest_first env userId w :
  (∀ k, storage_fault env k = None) →
  ∃ breakdown w',
    getEarningsBreakdown env userId w = (Fulfilled breakdown, w') ∧
    users w' = users w ∧ referrals w' = referrals w ∧
    breakdown ≡ₚ
      breakdown_entry (users w) <$>
        filter (λ ref, Referral.referrerId ref = userId) (referrals w) ∧
    descending Breakdown.date breakdown ∧
    ∀ date,
      filter (λ entry, Breakdown.date entry = date) breakdown =
      breakdown_entry (users w) <$>
        filter (λ ref, Referral.createdAt ref = date)
          (filter (λ ref, Referral.referrerId ref = userId) (referrals w)).
Proof.
  intros Hcalm.
  destruct (query_getEarningsBreakdown env (users w) (referrals w) userId w eq_refl eq_refl)
    as (Hu & Hr & Hres).
  destruct (getEarningsBreakdown env userId w) as [[breakdown|e|] w']; simpl in *;
    [|done..].
  exists breakdown, w'. subst breakdown. split_and!; try done.
  - apply sort_perm.
  - apply descending_sort.
  - intros date. rewrite (filter_sort Breakdown.date). unfold index_getAll.
    generalize (filter (λ ref, Referral.referrerId ref = userId) (referrals w)).
    intros found. induction found as [|ref found IH]; [done|]. csimpl.
    rewrite !filter_cons. simpl. destruct (decide (Referral.createdAt ref = date)); csimpl;
      by rewrite IH.
Qed.

Lemma getEarningsBreakdown_is_newest_first_witness :
  ∃ breakdown w',
    getEarningsBreakdown steady_env "user_2_b" after_two_referrals =
      (Fulfilled breakdown, w') ∧
    users w' = users after_two_referrals ∧ referrals w' = referrals after_two_referrals ∧
    breakdown ≡ₚ
      breakdown_entry (users after_two_referrals) <$>
        filter (λ ref, Referral.referrerId ref = "user_2_b")
          (referrals after_two_referrals) ∧
    descending Breakdown.date breakdown ∧
    ∀ date,
      filter (λ entry, Breakdown.date entry = date) breakdown =
      breakdown_entry (users after_two_referrals) <$>
        filter (λ ref, Referral.createdAt ref = date)
          (filter (λ ref, Referral.referrerId ref = "user_2_b")
             (referrals after_two_referrals)).
Proof. by apply (getEarningsBreakdown_is_newest_first steady_env "user_2_b"). Defined.

Example breakdown_of_bob :
  (λ entry, (User.username <$> Breakdown.referredUser entry, Breakdown.level entry,
             Breakdown.earnings entry, Breakdown.date entry)) <$>
    default [] (match (getEarningsBreakdown steady_env "user_2_b" after_two_referrals).1 with
                | Fulfilled breakdown => Some breakdown
                | _ => None
                end) =
    [(Some "ed_", 1, 100, 1700000000009); (Some "dora", 1, 100, 1700000000003)].
Proof. vm_compute. reflexivity. Qed.

(** The sign of a difference of doubles is that of the difference, so that
    [sort] ranks by [Number_sub] as by [-]. *)
Lemma to_double_sign z : (0 <? to_double z) = (0 <? z).
Proof.
  destruct (Z.ltb_spec 0 z) as [Hpos|Hneg].
  - apply Z.ltb_lt. by apply to_double_pos.
  - apply Z.ltb_ge. by apply to_double_nonpos.
Qed.

Lemma sort_insert_ext {A} (c1 c2 : A → A → Z) a xs :
  (∀ a b, (0 <? c1 a b) = (0 <? c2 a b)) → sort_insert c1 a xs = sort_insert c2 a xs.
Proof. intros Hc. induction xs as [|b xs IH]; simpl; [done|]. by rewrite Hc, IH. Qed.

Lemma sort_ext {A} (c1 c2 : A → A → Z) xs :
  (∀ a b, (0 <? c1 a b) = (0 <? c2 a b)) → sort c1 xs = sort c2 xs.
Proof.
  intros Hc. unfold sort. induction xs as [|a xs IH]; simpl; [done|].
  by rewrite IH, (sort_insert_ext c1 c2).
Qed.

Lemma sum_of_nonneg {A} (f : A → Z) (xs : list A) : Forall (λ x, 0 ≤ f x) xs → 0 ≤ sum_of f xs.
Proof. induction 1 as [|x xs Hx _ IH]; simpl; lia. Qed.

(** A sum of amounts that are not negative, added up from the left as
    [reduce] and [forEach] do, is exact as long as it is below [MAX_EXACT]. *)
Lemma fold_left_sum_of {A} (f : A → Z) (xs : list A) (a : Z) :
  0 ≤ a → Forall (λ x, 0 ≤ f x) xs → a + sum_of f xs < MAX_EXACT →
  fold_left (λ sum x, Number_add sum (f x)) xs a = a + sum_of f xs.
Proof.
  intros Ha Hxs. revert a Ha. induction Hxs as [|x xs Hx Hxs IH]; intros a Ha Hsum; simpl.
  - lia.
  - pose proof (sum_of_nonneg f xs Hxs) as Hrest. simpl in Hsum.
    rewrite Number_add_exact by lia. rewrite IH by lia. lia.
Qed.

Lemma fold_left_earningsByLevel (xs : list User.t) (acc : EarningsByLevel.t) :
  fold_left (λ acc user,
      let e := User.earningsByLevel user in
      EarningsByLevel.mk
        (Number_add (EarningsByLevel.level1 acc) (EarningsByLevel.level1 e))
        (Number_add (EarningsByLevel.level2 acc) (EarningsByLevel.level2 e))
        (Number_add (EarningsByLevel.level3 acc) (EarningsByLevel.level3 e))
        (Number_add (EarningsByLevel.level4Plus acc) (EarningsByLevel.level4Plus e))) xs acc =
  EarningsByLevel.mk
    (fold_left (λ sum u, Number_add sum (EarningsByLevel.level1 (User.earningsByLevel u))) xs
       (EarningsByLevel.level1 acc))
    (fold_left (λ sum u, Number_add sum (EarningsByLevel.level2 (User.earningsByLevel u))) xs
       (EarningsByLevel.level2 acc))
    (fold_left (λ sum u, Number_add sum (EarningsByLevel.level3 (User.earningsByLevel u))) xs
       (EarningsByLevel.level3 acc))
    (fold_left (λ sum u, Number_add sum (EarningsByLevel.level4Plus (User.earningsByLevel u)))
       xs (EarningsByLevel.level4Plus acc)).
Proof.
  revert acc. induction xs as [|x xs IH]; intros acc; simpl; [by destruct acc|].
  by rewrite IH.
Qed.

Lemma sum_of_balanced (xs : list User.t) :
  Forall balanced xs →
  sum_of (λ u, EarningsByLevel.level1 (User.earningsByLevel u)) xs +
  sum_of (λ u, EarningsByLevel.level2 (User.earningsByLevel u)) xs +
  sum_of (λ u, EarningsByLevel.level3 (User.earningsByLevel u)) xs +
  sum_of (λ u, EarningsByLevel.level4Plus (User.earningsByLevel u)) xs =
  sum_of User.totalEarnings xs.
Proof.
  induction 1 as [|x xs Hx Hxs IH]; simpl; [done|]. unfold balanced in Hx. lia.
Qed.

(** [getSystemStats] when no request fails: the numbers of users and of
    records, and as top earners the first ten of the users ranked by
    descending total, users with the same total in the order of the store.
    The sums are added up as doubles: when no amount is negative and the sum
    of the totals and the sum of all buckets are below [MAX_EXACT], they are
    the sum of the totals of the users and the sums of their four buckets,
    which add up to the sum of the totals when every user is balanced. *)
Theorem getSystemStats_report env w :
  (∀ k, storage_fault env k = None) →
  ∃ stats ranking w',
    getSystemStats env w = (Fulfilled stats, w') ∧
    users w' = users w ∧ referrals w' = referrals w ∧
    SystemStats.totalUsers stats = length (users w) ∧
    SystemStats.totalReferrals stats = length (referrals w) ∧
    (Forall no_negative_amount (users w) →
     sum_of User.totalEarnings (users w) < MAX_EXACT →
     sum_of (λ u, EarningsByLevel.level1 (User.earningsByLevel u)) (users w) +
     sum_of (λ u, EarningsByLevel.level2 (User.earningsByLevel u)) (users w) +
     sum_of (λ u, EarningsByLevel.level3 (User.earningsByLevel u)) (users w) +
     sum_of (λ u, EarningsByLevel.level4Plus (User.earningsByLevel u)) (users w) <
       MAX_EXACT →
     SystemStats.totalEarnings stats = sum_of User.totalEarnings (users w) ∧
     SystemStats.earningsByLevel stats =
       EarningsByLevel.mk
         (sum_of (λ u, EarningsByLevel.level1 (User.earningsByLevel u)) (users w))
         (sum_of (λ u, EarningsByLevel.level2 (User.earningsByLevel u)) (users w))
         (sum_of (λ u, EarningsByLevel.level3 (User.earningsByLevel u)) (users w))
         (sum_of (λ u, EarningsByLevel.level4Plus (User.earningsByLevel u)) (users w)) ∧
     (Forall balanced (users w) →
      EarningsByLevel.level1 (SystemStats.earningsByLevel stats) +
      EarningsByLevel.level2 (SystemStats.earningsByLevel stats) +
      EarningsByLevel.level3 (SystemStats.earningsByLevel stats) +
      EarningsByLevel.level4Plus (SystemStats.earningsByLevel stats) =
      SystemStats.totalEarnings stats)) ∧
    SystemStats.topEarners stats = top_earner <$> take 10 ranking ∧
    (length (SystemStats.topEarners stats) = 10 `min` length (users w))%nat ∧
    ranking ≡ₚ users w ∧ descending User.totalEarnings ranking ∧
    ∀ total,
      filter (λ u, User.totalEarnings u = total) ranking =
      filter (λ u, User.totalEarnings u = total) (users w).
Proof.
  intros Hcalm. unfold getSystemStats, getAllUsers, getAllReferrals, request. run.
  rewrite !Hcalm. simpl.
  rewrite (sort_ext _ (λ a b, User.totalEarnings b - User.totalEarnings a))
    by (intros a b; apply to_double_sign).
  eexists _, (sort (λ a b, User.totalEarnings b - User.totalEarnings a) (users w)), _.
  split; [done|]. simpl.
  split_and!; try done.
  - intros Hpos Htotal Hbuckets. rewrite fold_left_earningsByLevel. simpl.
    assert (Forall (λ u, 0 ≤ User.totalEarnings u) (users w) ∧
            Forall (λ u, 0 ≤ EarningsByLevel.level1 (User.earningsByLevel u)) (users w) ∧
            Forall (λ u, 0 ≤ EarningsByLevel.level2 (User.earningsByLevel u)) (users w) ∧
            Forall (λ u, 0 ≤ EarningsByLevel.level3 (User.earningsByLevel u)) (users w) ∧
            Forall (λ u, 0 ≤ EarningsByLevel.level4Plus (User.earningsByLevel u)) (users w))
      as (H0 & H1 & H2 & H3 & H4).
    { split_and!; (eapply Forall_impl; [exact Hpos|]); intros u Hu; apply Hu. }
    pose proof (sum_of_nonneg _ _ H1). pose proof (sum_of_nonneg _ _ H2).
    pose proof (sum_of_nonneg _ _ H3). pose proof (sum_of_nonneg _ _ H4).
    rewrite !fold_left_sum_of by (done || lia). simpl.
    split_and!; try done. intros Hb. by apply sum_of_balanced.
  - by rewrite length_map, length_take, (Permutation_length (sort_perm _ _)).
  - apply sort_perm.
  - apply descending_sort.
  - intros total. apply (filter_sort User.totalEarnings).
Qed.

Lemma getSystemStats_report_witness :
  ∃ stats ranking w',
    getSystemStats steady_env after_two_referrals = (Fulfilled stats, w') ∧
    users w' = users after_two_referrals ∧ referrals w' = referrals after_two_referrals ∧
    SystemStats.totalUsers stats = length (users after_two_referrals) ∧
    SystemStats.totalReferrals stats = length (referrals after_two_referrals) ∧
    (SystemStats.totalEarnings stats = sum_of User.totalEarnings (users after_two_referrals) ∧
     SystemStats.earningsByLevel stats =
       EarningsByLevel.mk
         (sum_of (λ u, EarningsByLevel.level1 (User.earningsByLevel u))
            (users after_two_referrals))
         (sum_of (λ u, EarningsByLevel.level2 (User.earningsByLevel u))
            (users after_two_referrals))
         (sum_of (λ u, EarningsByLevel.level3 (User.earningsByLevel u))
            (users after_two_referrals))
         (sum_of (λ u, EarningsByLevel.level4Plus (User.earningsByLevel u))
            (users after_two_referrals)) ∧
     EarningsByLevel.level1 (SystemStats.earningsByLevel stats) +
     EarningsByLevel.level2 (SystemStats.earningsByLevel stats) +
     EarningsByLevel.level3 (SystemStats.earningsByLevel stats) +
     EarningsByLevel.level4Plus (SystemStats.earningsByLevel stats) =
     SystemStats.totalEarnings stats) ∧
    SystemStats.topEarners stats = top_earner <$> take 10 ranking ∧
    (length (SystemStats.topEarners stats) = 10 `min` length (users after_two_referrals))%nat ∧
    ranking ≡ₚ users after_two_referrals ∧ descending User.totalEarnings ranking ∧
    ∀ total,
      filter (λ u, User.totalEarnings u = total) ranking =
      filter (λ u, User.totalEarnings u = total) (users after_two_referrals).
Proof.
  destruct (getSystemStats_report steady_env after_two_referrals)
    as (stats & ranking & w' & Hrun & Hu & Hr & Hn & Hm & Hsums & Hrest);
    [reflexivity|].
  exists stats, ranking, w'.
  do 5 (split; [assumption|]). split; [|exact Hrest].
  destruct Hsums as (H1 & H2 & H3).
  - vm_compute. repeat (apply Forall_cons_2; [by repeat split|]). apply Forall_nil_2.
  - vm_compute. reflexivity.
  - vm_compute. reflexivity.
  - split; [exact H1|]. split; [exact H2|]. apply H3.
    vm_compute. repeat (apply Forall_cons_2; [reflexivity|]). apply Forall_nil_2.
Defined.

Example system_stats_after_two_referrals :
  (getSystemStats steady_env after_two_referrals).1 =
    Fulfilled
      (SystemStats.mk 5 4 320 (EarningsByLevel.mk 200 120 0 0)
         [TopEarner.mk "bob" 200 "BOB00002"; TopEarner.mk "alice" 120 "ALICE001";
          TopEarner.mk "dora" 0 "BCDEFGHI"; TopEarner.mk "ed_" 0 "MNOPQRST";
          TopEarner.mk "carol" 0 "CAROL003"]).
Proof. vm_compute. reflexivity. Qed.

(** ** The referral tree and its statistics *)

Lemma buildReferralTree_returns env fuel w u :
  wf_users (users w) → Acyclic (users w) → (∀ k, storage_fault env k = None) →
  u ∈ users w → (length (users w) < fuel)%nat →
  ∃ t w', buildReferralTree env fuel (User.id u) w = (Fulfilled (Some t), w') ∧
    users w' = users w ∧ referrals w' = referrals w ∧
    user_of t = u ∧ is_tree (users w) t.
Proof.
  intros [Hids _ _ _] Hac Hcalm Hin Hfuel.
  destruct (query_buildReferralTree env (users w) (referrals w) fuel (User.id u)
              Hids Hac Hfuel w eq_refl eq_refl) as (Hu & Hr & Hres).
  rewrite (store_get_NoDup User.id (users w) u Hids Hin) in Hres.
  destruct (buildReferralTree env fuel (User.id u) w) as [[tree|e|] w']; cbn [fst snd] in *;
    [|done..]. destruct Hres as (t & -> & Ht & Htree). by exists t, w'.
Qed.

Lemma raise_raise count (a b : nat) : raise (raise count a) b = raise count (a + b).
Proof. destruct a, b; simpl; try done; f_equal; lia. Qed.

Lemma countReferrals_levels_below t : ∀ (lvl : nat) stats (d : nat), (0 < lvl)%nat →
  Stats.levels (countReferrals t lvl stats) !! d =
    raise (Stats.levels stats !! d) (if decide (lvl ≤ d)%nat then width t (d - lvl) else 0).
Proof.
  induction t as [user children IH] using Tree_forall_ind. intros lvl stats d Hlvl. simpl.
  assert (∀ s, Stats.levels
                 (fold_left (λ s c, countReferrals c (lvl + 1) s) children s) !! d =
               raise (Stats.levels s !! d)
                 (if decide (lvl + 1 ≤ d)%nat
                  then sum_list (map (λ c, width c (d - (lvl + 1))) children) else 0))
    as Hchildren.
  { induction IH as [|c children Hc _ IHc]; intros s; simpl.
    - by destruct (decide _).
    - rewrite IHc, Hc by lia. rewrite raise_raise.
      destruct (decide (lvl + 1 ≤ d)%nat); [done|]. by rewrite Nat.add_0_r. }
  rewrite Hchildren. destruct (Nat.ltb_spec 0 lvl) as [_|]; [|lia].
  assert (Stats.levels
            (if (lvl =? 1)%nat
             then Stats.mk (S (Stats.directReferrals stats)) (Stats.totalReferrals stats)
                    (Stats.levels stats)
             else stats) = Stats.levels stats) as Hsame by (by destruct (lvl =? 1)%nat).
  simpl. rewrite Hsame. destruct (decide (d = lvl)) as [->|Hne].
  - rewrite lookup_insert_eq. destruct (decide (lvl + 1 ≤ lvl)%nat); [lia|].
    destruct (decide (lvl ≤ lvl)%nat); [|lia]. rewrite Nat.sub_diag. by destruct user.
  - rewrite lookup_insert_ne by done. destruct (decide (lvl + 1 ≤ d)%nat), (decide (lvl ≤ d)%nat);
      try lia; [|done].
    replace (d - lvl)%nat with (S (d - (lvl + 1))) by lia. done.
Qed.

Lemma countReferrals_direct_below t : ∀ (lvl : nat) stats, (0 < lvl)%nat →
  Stats.directReferrals (countReferrals t lvl stats) =
    (Stats.directReferrals stats + (if (lvl =? 1)%nat then 1 else 0))%nat.
Proof.
  induction t as [user children IH] using Tree_forall_ind. intros lvl stats Hlvl. simpl.
  assert (∀ s, Stats.directReferrals
                 (fold_left (λ s c, countReferrals c (lvl + 1) s) children s) =
               Stats.directReferrals s) as Hchildren.
  { induction IH as [|c children Hc _ IHc]; intros s; simpl; [done|].
    rewrite IHc, Hc by lia. destruct (Nat.eqb_spec (lvl + 1) 1); lia. }
  rewrite Hchildren. destruct (Nat.ltb_spec 0 lvl) as [_|]; [|lia].
  destruct (lvl =? 1)%nat; simpl; lia.
Qed.

Lemma sum_levels_insert (levels : gmap nat nat) (d n : nat) :
  sum_levels (<[d := n]> levels) = (n + sum_levels (delete d levels))%nat.
Proof.
  unfold sum_levels.
  rewrite (map_fold_delete_L _ _ d n (<[d := n]> levels)).
  - by rewrite delete_insert_eq.
  - intros. lia.
  - apply lookup_insert_eq.
Qed.

Lemma sum_levels_delete (levels : gmap nat nat) (d : nat) :
  sum_levels levels = (default 0 (levels !! d) + sum_levels (delete d levels))%nat.
Proof.
  unfold sum_levels. destruct (levels !! d) as [n|] eqn:E; simpl.
  - apply (map_fold_delete_L _ _ d n levels); [intros; lia|done].
  - by rewrite delete_id.
Qed.

Lemma countReferrals_sum_levels_below t : ∀ (lvl : nat) stats, (0 < lvl)%nat →
  sum_levels (Stats.levels (countReferrals t lvl stats)) =
    (sum_levels (Stats.levels stats) + length (members t))%nat.
Proof.
  induction t as [user children IH] using Tree_forall_ind. intros lvl stats Hlvl. simpl.
  assert (∀ s, sum_levels (Stats.levels
                 (fold_left (λ s c, countReferrals c (lvl + 1) s) children s)) =
               (sum_levels (Stats.levels s) +
                length (concat (map members children)))%nat) as Hchildren.
  { induction IH as [|c children Hc _ IHc]; intros s; simpl; [lia|].
    rewrite IHc, Hc, length_app by lia. lia. }
  rewrite Hchildren. destruct (Nat.ltb_spec 0 lvl) as [_|]; [|lia].
  assert (Stats.levels
            (if (lvl =? 1)%nat
             then Stats.mk (S (Stats.directReferrals stats)) (Stats.totalReferrals stats)
                    (Stats.levels stats)
             else stats) = Stats.levels stats) as Hsame by (by destruct (lvl =? 1)%nat).
  simpl. rewrite Hsame, sum_levels_insert, (sum_levels_delete (Stats.levels stats) lvl). lia.
Qed.

Lemma width_0 t : width t 0 = 1%nat.
Proof. by destruct t. Qed.

Lemma width_1 t : width t 1 = length (children_of t).
Proof.
  destruct t as [user children]. simpl. induction children as [|c children IH]; [done|].
  simpl. by rewrite width_0, IH.
Qed.

Lemma countReferrals_root t stats :
  Stats.directReferrals (countReferrals t 0 stats) =
    (Stats.directReferrals stats + length (children_of t))%nat ∧
  (∀ d : nat, Stats.levels (countReferrals t 0 stats) !! d =
     raise (Stats.levels stats !! d) (match d with O => 0 | S _ => width t d end)) ∧
  sum_levels (Stats.levels (countReferrals t 0 stats)) =
    (sum_levels (Stats.levels stats) + length (descendants t))%nat.
Proof.
  destruct t as [user children]. unfold descendants. simpl. revert stats.
  induction children as [|c children IH]; intros s; simpl.
  - split_and!; [lia| |lia]. by intros [|d].
  - destruct (IH (countReferrals c 1 s)) as (H1 & H2 & H3). split_and!.
    + rewrite H1, countReferrals_direct_below by lia. simpl. lia.
    + intros d. rewrite H2, countReferrals_levels_below, raise_raise by lia.
      destruct d as [|d]; simpl; [done|]. by rewrite Nat.sub_0_r.
    + rewrite H3, countReferrals_sum_levels_below, length_app by lia. lia.
Qed.

(** *** The tree of a user holds the downline of that user *)

Lemma is_tree_inv l user children :
  is_tree l (Node user children) →
  user ∈ l ∧
  user_of <$> children =
    filter (λ c, User.referredBy c = Some (User.referralCode user)) l ∧
  Forall (is_tree l) children.
Proof. by inversion 1. Qed.

Lemma is_tree_child l t c :
  is_tree l t → c ∈ children_of t →
  is_tree l c ∧ user_of c ∈ l ∧
  refers l (User.referralCode (user_of c)) (User.referralCode (user_of t)).
Proof.
  destruct t as [user children]. intros (Hu & Hcs & Hall)%is_tree_inv Hc. simpl in *.
  split; [by apply (proj1 (Forall_forall _ _) Hall)|].
  assert (user_of c ∈ filter (λ c, User.referredBy c = Some (User.referralCode user)) l)
    as [Hby Hin]%list_elem_of_filter by (rewrite <- Hcs; by apply list_elem_of_fmap_2).
  split; [done|]. by exists (user_of c).
Qed.

Lemma elem_of_concat_map {T V} (f : T → list V) (xs : list T) (v : V) :
  v ∈ concat (map f xs) ↔ ∃ x, x ∈ xs ∧ v ∈ f x.
Proof.
  induction xs as [|x xs IH]; simpl.
  - split; [by intros ?%elem_of_nil|by intros (x & ?%elem_of_nil & _)].
  - rewrite elem_of_app, IH. split.
    + intros [Hv|(y & Hy & Hv)]; [exists x|exists y]; (split; [|done]);
        apply elem_of_cons; auto.
    + intros (y & [->|Hy]%elem_of_cons & Hv); [by left|]. right. by exists y.
Qed.

Lemma members_children t c : c ∈ children_of t → members c ⊆ descendants t.
Proof. intros Hc v Hv. unfold descendants. apply elem_of_concat_map. by exists c. Qed.

Lemma descendants_members t v :
  v ∈ descendants t → ∃ c, c ∈ children_of t ∧ v ∈ members c.
Proof. unfold descendants. by intros ?%elem_of_concat_map. Qed.

Lemma members_cons t : members t = user_of t :: descendants t.
Proof. by destruct t. Qed.

(** Every member of the tree but the root refers to the root, directly or
    through others. *)
Lemma members_reach l t :
  is_tree l t → ∀ v, v ∈ members t →
    v ∈ l ∧ (v = user_of t ∨
             tc (refers l) (User.referralCode v) (User.referralCode (user_of t))).
Proof.
  induction t as [user children IH] using Tree_forall_ind. intros Ht v.
  rewrite members_cons. intros [->|Hv]%elem_of_cons.
  { split; [|by left]. by apply is_tree_inv in Ht as [? _]. }
  apply descendants_members in Hv as (c & Hc & Hv).
  destruct (is_tree_child l _ c Ht Hc) as (Htc & Hin & Hedge).
  destruct (proj1 (Forall_forall _ _) IH c Hc Htc v Hv) as [Hvl [->|Hpath]].
  - split; [done|]. right. by apply tc_once.
  - split; [done|]. right. eapply tc_r; [exact Hpath|exact Hedge].
Qed.

(** Every stored user who refers to the root, directly or through others,
    is in the tree. *)
Lemma downline_in_tree l v :
  NoDup (User.referralCode <$> l) → v ∈ l →
  ∀ d, rtc (refers l) (User.referralCode v) d →
    ∀ t, is_tree l t → refers l d (User.referralCode (user_of t)) → v ∈ descendants t.
Proof.
  intros Hcodes Hv.
  assert (∀ d t, is_tree l t → refers l d (User.referralCode (user_of t)) →
            ∃ c, c ∈ children_of t ∧ User.referralCode (user_of c) = d) as Hchild.
  { intros d [user children] (Hu & Hcs & Hall)%is_tree_inv (x & Hx & Hd & Hby). simpl in *.
    assert (x ∈ user_of <$> children) as (c & -> & Hc)%list_elem_of_fmap
      by (rewrite Hcs; by apply list_elem_of_filter).
    by exists c. }
  apply (rtc_ind_r (λ d, ∀ t, is_tree l t → refers l d (User.referralCode (user_of t)) →
                           v ∈ descendants t)).
  - intros t Ht Hedge. destruct (Hchild _ t Ht Hedge) as (c & Hc & Hcode).
    apply (members_children t c Hc). rewrite members_cons. apply elem_of_cons. left.
    destruct (is_tree_child l t c Ht Hc) as (_ & Hin & _).
    by apply (NoDup_fmap_eq User.referralCode l).
  - intros y z _ Hyz IH t Ht Hedge. destruct (Hchild _ t Ht Hedge) as (c & Hc & Hcode).
    destruct (is_tree_child l t c Ht Hc) as (Htc & _ & _).
    apply (members_children t c Hc). rewrite members_cons. apply elem_of_cons. right.
    apply IH; [done|]. by rewrite Hcode.
Qed.

Lemma refers_functional l c d d' :
  NoDup (User.referralCode <$> l) → refers l c d → refers l c d' → d = d'.
Proof.
  intros Hcodes (x & Hx & Hxc & Hxd) (y & Hy & Hyc & Hyd).
  assert (x = y) as -> by (apply (NoDup_fmap_eq User.referralCode l); congruence).
  congruence.
Qed.

Lemma tc_functional_next {T} (R : relation T) x y z :
  (∀ a b b', R a b → R a b' → b = b') → R x y → tc R x z → y = z ∨ tc R y z.
Proof.
  intros Hfun Hxy Hxz. destruct Hxz as [x z Hxz|x y' z Hxy' Hy'z].
  - left. by apply (Hfun x).
  - right. by rewrite (Hfun x y y').
Qed.

Lemma tc_functional_order {T} (R : relation T) x y z :
  (∀ a b b', R a b → R a b' → b = b') → tc R x y → tc R x z →
  y = z ∨ tc R y z ∨ tc R z y.
Proof.
  intros Hfun Hxy. revert z. induction Hxy as [x y Hxy|x y' y Hxy' Hy'y IH]; intros z Hxz.
  - destruct (tc_functional_next R x y z Hfun Hxy Hxz); auto.
  - destruct (tc_functional_next R x y' z Hfun Hxy' Hxz) as [<-|Hy'z]; [auto|].
    by apply IH.
Qed.

(** Two users referred by the same user are not above one another. *)
Lemma siblings_apart l (a b u : string) :
  NoDup (User.referralCode <$> l) → Acyclic l →
  refers l a u → refers l b u → ¬ tc (refers l) a b.
Proof.
  intros Hcodes Hac Ha Hb Hab.
  destruct (tc_functional_next (refers l) a u b) as [->|Hub]; [|done..| |].
  - intros x y y'. by apply refers_functional.
  - by apply (Hac b), tc_once.
  - apply (Hac u). eapply tc_r; [exact Hub|exact Hb].
Qed.

Lemma siblings_disjoint l c1 c2 (u : string) v :
  NoDup (User.referralCode <$> l) → Acyclic l →
  is_tree l c1 → is_tree l c2 →
  refers l (User.referralCode (user_of c1)) u → refers l (User.referralCode (user_of c2)) u →
  user_of c1 ≠ user_of c2 → v ∈ members c1 → v ∈ members c2 → False.
Proof.
  intros Hcodes Hac Ht1 Ht2 He1 He2 Hne Hv1 Hv2.
  destruct (members_reach l c1 Ht1 v Hv1) as [_ H1].
  destruct (members_reach l c2 Ht2 v Hv2) as [_ H2].
  destruct H1 as [->|H1], H2 as [H2|H2].
  - done.
  - by apply (siblings_apart l _ _ u Hcodes Hac He1 He2).
  - subst v. by apply (siblings_apart l _ _ u Hcodes Hac He2 He1).
  - destruct (tc_functional_order (refers l) _ _ _
                (λ x y y', refers_functional l x y y' Hcodes) H1 H2) as [Heq|[H|H]].
    + apply Hne.
      destruct He1 as (x & Hx & Hxc & _), He2 as (y & Hy & Hyc & _).
      assert (x = y) as -> by (apply (NoDup_fmap_eq User.referralCode l); congruence).
      assert (user_of c1 ∈ l) by (by apply (members_reach l c1 Ht1);
        rewrite members_cons; apply elem_of_cons; left).
      assert (user_of c2 ∈ l) by (by apply (members_reach l c2 Ht2);
        rewrite members_cons; apply elem_of_cons; left).
      apply (NoDup_fmap_eq User.referralCode l); congruence.
    + by apply (siblings_apart l _ _ u Hcodes Hac He1 He2).
    + by apply (siblings_apart l _ _ u Hcodes Hac He2 He1).
Qed.

(** No user is twice in the tree. *)
Lemma NoDup_members l t :
  wf_users l → Acyclic l → is_tree l t → NoDup (members t).
Proof.
  intros Hwf Hac. pose proof (wf_referralCode _ Hwf) as Hcodes.
  induction t as [user children IH] using Tree_forall_ind. intros Ht.
  rewrite members_cons. apply NoDup_cons. split.
  - intros (c & Hc & Hv)%descendants_members.
    destruct (is_tree_child l _ c Ht Hc) as (Htc & _ & Hedge). simpl in Hedge.
    destruct (members_reach l c Htc user Hv) as [_ [->|Hpath]].
    + by apply (Hac (User.referralCode (user_of c))), tc_once.
    + apply (Hac (User.referralCode user)). eapply tc_r; [exact Hpath|exact Hedge].
  - assert (NoDup (user_of <$> children)) as Hnd.
    { apply is_tree_inv in Ht as (_ & -> & _). apply NoDup_filter.
      apply (NoDup_fmap_1 User.id), Hwf. }
    assert (∀ c, c ∈ children →
              is_tree l c ∧ NoDup (members c) ∧
              refers l (User.referralCode (user_of c)) (User.referralCode user)) as Hcs.
    { intros c Hc. destruct (is_tree_child l _ c Ht Hc) as (Htc & _ & Hedge).
      split; [done|]. split; [|done]. by apply (proj1 (Forall_forall _ _) IH c Hc). }
    clear IH Ht. unfold descendants. simpl.
    induction children as [|c children IHc]; simpl; [apply NoDup_nil_2|].
    rewrite fmap_cons in Hnd. apply NoDup_cons in Hnd as [Hc Hnd].
    destruct (Hcs c) as (Htc & Hndc & Hedge); [by apply elem_of_cons; left|].
    apply NoDup_app. split; [done|]. split.
    + intros v Hv (c' & Hc' & Hv')%elem_of_concat_map.
      destruct (Hcs c') as (Htc' & _ & Hedge'); [by apply elem_of_cons; right|].
      apply (siblings_disjoint l c c' _ v Hcodes Hac Htc Htc' Hedge Hedge'); [|done..].
      intros Heq. apply Hc. rewrite Heq. by apply list_elem_of_fmap_2.
    + apply IHc; [done|]. intros c' Hc'. apply Hcs. by apply elem_of_cons; right.
Qed.

(** [getReferralStats] of a stored user, on a store that IndexedDB can hold
    and that has no cycle, when no request fails: [directReferrals] is the
    number of users whose [referredBy] is the code of the user; [levels] has
    for each depth from 1 on at which the tree of the user has nodes the
    number of those nodes, and no other entry, none for depth 0; the entries
    of [levels] add up to [totalReferrals]. *)
Theorem getReferralStats_counts_by_depth env fuel w u :
  wf_users (users w) → Acyclic (users w) → (∀ k, storage_fault env k = None) →
  u ∈ users w → (length (users w) < fuel)%nat →
  ∃ t stats w',
    getReferralStats env fuel (User.id u) w = (Fulfilled (Some stats), w') ∧
    user_of t = u ∧ is_tree (users w) t ∧
    Stats.directReferrals stats =
      length (filter (λ v, User.referredBy v = Some (User.referralCode u)) (users w)) ∧
    (∀ depth : nat,
       Stats.levels stats !! depth =
         if decide (depth = 0 ∨ width t depth = 0)%nat then None
         else Some (width t depth)) ∧
    Stats.levels stats !! 1%nat =
      (if decide (Stats.directReferrals stats = 0)%nat then None
       else Some (Stats.directReferrals stats)) ∧
    sum_levels (Stats.levels stats) = Stats.totalReferrals stats.
Proof.
  intros Hwf Hac Hcalm Hin Hfuel.
  destruct (buildReferralTree_returns env fuel w u Hwf Hac Hcalm Hin Hfuel)
    as (t & w' & Hrun & _ & _ & Hroot & Htree).
  exists t, (countReferrals t 0 (Stats.mk 0 0 ∅)), w'.
  unfold getReferralStats, mbind, async_bind. rewrite Hrun.
  destruct (countReferrals_root t (Stats.mk 0 0 ∅)) as (Hdirect & Hlevels & Hsum).
  simpl in Hdirect, Hlevels, Hsum.
  assert (∀ depth : nat,
            Stats.levels (countReferrals t 0 (Stats.mk 0 0 ∅)) !! depth =
              if decide (depth = 0 ∨ width t depth = 0)%nat then None
              else Some (width t depth)) as Hdepth.
  { intros depth. rewrite Hlevels, lookup_empty. destruct depth as [|depth].
    - by rewrite decide_True by by left.
    - destruct (decide (S depth = 0 ∨ width t (S depth) = 0)%nat) as [[?|Hz]|Hn];
        [lia|by rewrite Hz|].
      destruct (width t (S depth)) as [|n]; [|done]. destruct Hn. by right. }
  split_and!; try done.
  - rewrite Hdirect. destruct t as [user children]. simpl in *. subst user.
    apply is_tree_inv in Htree as (_ & <- & _). by rewrite length_fmap.
  - rewrite Hdepth, Hdirect, width_1.
    destruct (decide (1 = 0 ∨ length (children_of t) = 0)%nat) as [[?|Hz]|Hn]; [lia| |].
    + by rewrite decide_True.
    + rewrite decide_False; [done|]. intros Hz. apply Hn. by right.
  - rewrite Hsum, countReferrals_total. simpl.
    assert (sum_levels ∅ = 0%nat) as -> by apply map_fold_empty. lia.
Qed.

Lemma getReferralStats_counts_by_depth_witness :
  ∃ t stats w',
    getReferralStats steady_env 7 (User.id alice) family = (Fulfilled (Some stats), w') ∧
    user_of t = alice ∧ is_tree (users family) t ∧
    Stats.directReferrals stats =
      length (filter (λ v, User.referredBy v = Some (User.referralCode alice))
                (users family)) ∧
    (∀ depth : nat,
       Stats.levels stats !! depth =
         if decide (depth = 0 ∨ width t depth = 0)%nat then None
         else Some (width t depth)) ∧
    Stats.levels stats !! 1%nat =
      (if decide (Stats.directReferrals stats = 0)%nat then None
       else Some (Stats.directReferrals stats)) ∧
    sum_levels (Stats.levels stats) = Stats.totalReferrals stats.
Proof.
  apply (getReferralStats_counts_by_depth steady_env 7 family alice).
  - apply wf_users_by_computation; vm_compute; reflexivity.
  - apply referrers_come_first_acyclic. vm_compute. reflexivity.
  - done.
  - by apply elem_of_cons; left.
  - simpl. lia.
Defined.

Lemma tc_last {T} (R : relation T) x z : tc R x z → ∃ y, rtc R x y ∧ R y z.
Proof.
  induction 1 as [x z Hxz|x y z Hxy _ (y' & Hyy' & Hy'z)].
  - by exists x.
  - exists y'. split; [by eapply rtc_l|done].
Qed.

(** The tree that [buildReferralTree] returns for a stored user holds the
    downline of that user: the users below its root are the stored users
    who refer to the user directly or through others, each of them once;
    [getNetworkSize] is their number, which is less than the number of
    users. *)
Theorem network_is_the_downline env fuel w u :
  wf_users (users w) → Acyclic (users w) → (∀ k, storage_fault env k = None) →
  u ∈ users w → (length (users w) < fuel)%nat →
  ∃ t w1 w2,
    buildReferralTree env fuel (User.id u) w = (Fulfilled (Some t), w1) ∧
    getNetworkSize env fuel (User.id u) w = (Fulfilled (length (descendants t)), w2) ∧
    user_of t = u ∧
    (∀ v, v ∈ descendants t ↔
          v ∈ users w ∧
          tc (refers (users w)) (User.referralCode v) (User.referralCode u)) ∧
    NoDup (descendants t) ∧ (u ∉ descendants t) ∧
    (length (descendants t) < length (users w))%nat.
Proof.
  intros Hwf Hac Hcalm Hin Hfuel.
  destruct (buildReferralTree_returns env fuel w u Hwf Hac Hcalm Hin Hfuel)
    as (t & w' & Hrun & _ & _ & Hroot & Htree).
  pose proof (NoDup_members (users w) t Hwf Hac Htree) as Hnd.
  rewrite members_cons, Hroot in Hnd. apply NoDup_cons in Hnd as [Hu Hnd].
  assert (∀ v, v ∈ members t → v ∈ users w) as Hsub
    by (intros v Hv; by apply (members_reach (users w) t Htree)).
  exists t, w', w'. split; [done|]. split.
  { unfold getNetworkSize, mbind, async_bind. rewrite Hrun. simpl.
    by rewrite countNodes_descendants. }
  split_and!; try done.
  - intros v. split.
    + intros Hv. destruct (members_reach (users w) t Htree v) as [Hvl [->|Hpath]].
      * rewrite members_cons. by apply elem_of_cons; right.
      * by rewrite Hroot in Hv.
      * by rewrite Hroot in Hpath.
    + intros [Hv Hpath]. rewrite <- Hroot in Hpath.
      apply tc_last in Hpath as (d & Hrtc & Hedge).
      by apply (downline_in_tree (users w) v (wf_referralCode _ Hwf) Hv d Hrtc t).
  - assert (length (members t) ≤ length (users w))%nat as Hlen.
    { apply submseteq_length, NoDup_submseteq.
      - apply (NoDup_members (users w)); done.
      - exact Hsub. }
    rewrite members_cons in Hlen. simpl in Hlen. lia.
Qed.

Lemma network_is_the_downline_witness :
  ∃ t w1 w2,
    buildReferralTree steady_env 7 (User.id alice) family = (Fulfilled (Some t), w1) ∧
    getNetworkSize steady_env 7 (User.id alice) family =
      (Fulfilled (length (descendants t)), w2) ∧
    user_of t = alice ∧
    (∀ v, v ∈ descendants t ↔
          v ∈ users family ∧
          tc (refers (users family)) (User.referralCode v) (User.referralCode alice)) ∧
    NoDup (descendants t) ∧ (alice ∉ descendants t) ∧
    (length (descendants t) < length (users family))%nat.
Proof.
  apply (network_is_the_downline steady_env 7 family alice).
  - apply wf_users_by_computation; vm_compute; reflexivity.
  - apply referrers_come_first_acyclic. vm_compute. reflexivity.
  - done.
  - by apply elem_of_cons; left.
  - simpl. lia.
Defined.

(** ** The upline *)

Lemma ensures_uplineWalk env l0 fuel : ∀ current upline,
  ensures (λ l r, l = l0) (uplineWalk env fuel current upline)
    (λ result l r,
       l = l0 ∧ ∃ xs, result = upline ++ xs ∧
         match current with
         | None => xs = []
         | Some u => ∃ xs', xs = u :: xs' ∧ Chain l0 (User.referredBy u) xs'
         end)
    (λ _ _ _, True) (λ _ _, True).
Proof.
  induction fuel as [|fuel IH]; intros current upline; [by apply ensures_never|].
  simpl. destruct current as [u|].
  2: { apply ensures_ret. intros l r ->. split; [done|]. exists []. by rewrite app_nil_r. }
  destruct (truthy (User.referredBy u)) as [code|] eqn:Hv.
  - eapply ensures_bind; [by apply ensures_getUserByReferralCode|]. intros next.
    apply ensures_pre. intros l r [-> ->].
    eapply ensures_weaken; [apply IH|by intros ? ? [-> _]| |done..].
    intros result l r' (-> & xs & -> & Hxs).
    split; [done|]. exists (u :: xs). split; [by rewrite <- app_assoc|].
    exists xs. split; [done|].
    destruct (store_get User.referralCode code l0) as [x|] eqn:Hget.
    + destruct Hxs as (xs' & -> & Hchain). by eapply Chain_step.
    + subst xs. by eapply Chain_broken.
  - apply ensures_ret. intros l r ->. split; [done|]. exists [u]. split; [done|].
    exists []. split; [done|]. by apply Chain_root.
Qed.

Lemma ensures_getUpline env l0 fuel userId :
  ensures (λ l r, l = l0) (getUpline env fuel userId)
    (λ upline l r,
       match store_get User.id userId l0 with
       | None => upline = []
       | Some user => Chain l0 (User.referredBy user) upline
       end)
    (λ _ _ _, True) (λ _ _, True).
Proof.
  unfold getUpline. eapply ensures_bind; [by apply ensures_getUserById|]. intros user.
  apply ensures_pre. intros l r [-> ->].
  destruct (store_get User.id userId l0) as [user|]; [|by apply ensures_ret].
  destruct (truthy (User.referredBy user)) as [code|] eqn:Hv.
  - eapply ensures_bind; [by apply ensures_getUserByReferralCode|]. intros current.
    apply ensures_pre. intros l r2 [[-> _] ->].
    eapply ensures_weaken; [apply ensures_uplineWalk|by intros ? ? [-> _]| |done..].
    intros result l r' (-> & xs & -> & Hxs). simpl.
    destruct (store_get User.referralCode code l0) as [x|] eqn:Hget.
    + destruct Hxs as (xs' & -> & Hchain). by eapply Chain_step.
    + subst xs. by eapply Chain_broken.
  - apply ensures_ret. intros ? ? _. by apply Chain_root.
Qed.

Lemma getUpline_returns env fuel w u :
  wf_users (users w) → Acyclic (users w) → (∀ k, storage_fault env k = None) →
  u ∈ users w → (length (users w) < fuel)%nat →
  ∃ upline w', getUpline env fuel (User.id u) w = (Fulfilled upline, w') ∧
    users w' = users w ∧ referrals w' = referrals w ∧
    Chain (users w) (User.referredBy u) upline.
Proof.
  intros Hwf Hac Hcalm Hin Hfuel.
  destruct (query_getUpline env (users w) (referrals w) fuel (User.id u) Hac Hfuel w
              eq_refl eq_refl) as (Hu & Hr & Hres).
  pose proof (ensures_getUpline env (users w) fuel (User.id u) w eq_refl) as Hchain.
  rewrite (store_get_NoDup User.id (users w) u (wf_id _ Hwf) Hin) in Hchain.
  destruct (getUpline env fuel (User.id u) w) as [[upline|e|] w']; cbn [fst snd] in *;
    [|done..]. by exists upline, w'.
Qed.

Lemma Chain_in l v xs : Chain l v xs → Forall (λ x, x ∈ l) xs.
Proof.
  induction 1 as [| |v code x xs Hv Hget _ IH]; [done..|]. constructor; [|done].
  by apply store_get_Some in Hget as [? _].
Qed.

(** Every user of the chain above [c] is referred to from [c]. *)
Lemma Chain_reach l v xs :
  Chain l v xs → ∀ c, (∀ d, truthy v = Some d → refers l c d) →
  ∀ x, x ∈ xs → tc (refers l) c (User.referralCode x).
Proof.
  induction 1 as [| |v code x xs Hv Hget _ IH]; intros c Hc y Hy;
    [by apply elem_of_nil in Hy..|].
  apply store_get_Some in Hget as [Hx Hcode].
  assert (refers l c (User.referralCode x)) as Hedge by (rewrite Hcode; by apply Hc).
  apply elem_of_cons in Hy as [->|Hy]; [by apply tc_once|].
  eapply tc_l; [exact Hedge|]. apply IH; [|done].
  intros d Hd%truthy_Some. by exists x.
Qed.

Lemma Chain_NoDup l v xs : Acyclic l → Chain l v xs → NoDup xs.
Proof.
  intros Hac. induction 1 as [| |v code x xs Hv Hget Hchain IH]; [apply NoDup_nil_2..|].
  apply NoDup_cons. split; [|done]. intros Hx.
  apply (Hac (User.referralCode x)). apply (Chain_reach l _ xs Hchain); [|done].
  intros d Hd%truthy_Some. exists x. by apply store_get_Some in Hget as [? _].
Qed.

(** Every stored user that [s] refers to, directly or through others, is in
    the chain above [s], when no referral code is the empty string. *)

(** Every stored user that [s] refers to, directly or through others, is in
    the chain above [s], when no referral code is the empty string. *)
Lemma Chain_complete l xs v :
  NoDup (User.referralCode <$> l) → (EmptyString ∉ User.referralCode <$> l) →
  Chain l v xs →
  ∀ s, s ∈ l → User.referredBy s = v →
  ∀ y, y ∈ l → tc (refers l) (User.referralCode s) (User.referralCode y) → y ∈ xs.
Proof.
  intros Hcodes Hempty.
  assert (∀ c d, tc (refers l) c d → c ∈ User.referralCode <$> l) as Hstart.
  { intros c d [? ? (x & Hx & <- & _)|? ? ? (x & Hx & <- & _) _];
      by apply list_elem_of_fmap_2. }
  assert (∀ s y, s ∈ l → y ∈ l →
            tc (refers l) (User.referralCode s) (User.referralCode y) →
            ∃ d, User.referredBy s = Some d ∧ d ∈ User.referralCode <$> l ∧
                 (d = User.referralCode y ∨ tc (refers l) d (User.referralCode y)))
    as Hfirst.
  { intros s y Hs Hy Hpath.
    assert (∀ d, refers l (User.referralCode s) d → User.referredBy s = Some d) as Hnext.
    { intros d (x & Hx & Hxc & Hxd).
      by rewrite <- (NoDup_fmap_eq User.referralCode l x s Hcodes Hx Hs Hxc). }
    remember (User.referralCode s) as c eqn:Hc. remember (User.referralCode y) as e eqn:He.
    destruct Hpath as [c e H|c d e H Hrest]; subst c e.
    - eexists. split; [by apply Hnext|]. split; [by apply list_elem_of_fmap_2|by left].
    - exists d. split; [by apply Hnext|]. split; [by apply (Hstart _ _ Hrest)|by right]. }
  induction 1 as [v Hv|v code Hv Hget|v code x xs Hv Hget Hchain IH];
    intros s Hs Hby y Hy Hpath;
    destruct (Hfirst s y Hs Hy Hpath) as (d & Hd & Hin & Hrest);
    subst v; rewrite Hd in Hv.
  - by destruct d.
  - assert (d = code) as -> by (destruct d; [done|]; simpl in Hv; congruence).
    by apply store_get_None in Hget.
  - assert (d = code) as -> by (destruct d; [done|]; simpl in Hv; congruence).
    apply store_get_Some in Hget as Hx. destruct Hx as [Hx Hcode].
    destruct Hrest as [Heq|Hrest].
    + apply elem_of_cons. left.
      apply (NoDup_fmap_eq User.referralCode l); [done..|congruence].
    + apply elem_of_cons. right. apply (IH x); [done..|]. by rewrite Hcode.
Qed.

(** [getUpline] of a stored user, on a store that IndexedDB can hold and
    that has no cycle, when no request fails: it returns the chain of
    referrers above the user, nearest first, each found by the code that the
    one before names, up to the first without referrer or with a code that
    resolves to no one; the users of the chain are stored, distinct and other
    than the user, and are users that the user refers to directly or through
    others; all of those, when no referral code is the empty string. *)
Theorem getUpline_is_the_chain env fuel w u :
  wf_users (users w) → Acyclic (users w) → (∀ k, storage_fault env k = None) →
  u ∈ users w → (length (users w) < fuel)%nat →
  ∃ upline w',
    getUpline env fuel (User.id u) w = (Fulfilled upline, w') ∧
    users w' = users w ∧ referrals w' = referrals w ∧
    Chain (users w) (User.referredBy u) upline ∧
    Forall (λ x, x ∈ users w) upline ∧ NoDup upline ∧ (u ∉ upline) ∧
    (length upline < length (users w))%nat ∧
    (∀ v, v ∈ upline →
       tc (refers (users w)) (User.referralCode u) (User.referralCode v)) ∧
    ((EmptyString ∉ User.referralCode <$> users w) →
     ∀ v, v ∈ users w →
       tc (refers (users w)) (User.referralCode u) (User.referralCode v) → v ∈ upline).
Proof.
  intros Hwf Hac Hcalm Hin Hfuel.
  destruct (getUpline_returns env fuel w u Hwf Hac Hcalm Hin Hfuel)
    as (upline & w' & Hrun & Hu & Hr & Hchain).
  exists upline, w'.
  assert (∀ v, v ∈ upline →
            tc (refers (users w)) (User.referralCode u) (User.referralCode v)) as Hreach.
  { apply (Chain_reach (users w) _ upline Hchain). intros d Hd%truthy_Some. by exists u. }
  assert (u ∉ upline) as Hnot by (intros H%Hreach; by apply (Hac _ H)).
  pose proof (Chain_NoDup (users w) _ upline Hac Hchain) as Hnd.
  pose proof (Chain_in (users w) _ upline Hchain) as Hall.
  split_and!; try done.
  - assert (length (u :: upline) ≤ length (users w))%nat as Hlen; [|simpl in Hlen; lia].
    apply submseteq_length, NoDup_submseteq; [by apply NoDup_cons|].
    intros x [->|Hx]%elem_of_cons; [done|]. by apply (proj1 (Forall_forall _ _) Hall).
  - intros Hempty v Hv Hpath.
    by apply (Chain_complete (users w) upline _ (wf_referralCode _ Hwf) Hempty Hchain u).
Qed.

Lemma getUpline_is_the_chain_witness :
  ∃ upline w',
    getUpline steady_env 7 (User.id frank) family = (Fulfilled upline, w') ∧
    users w' = users family ∧ referrals w' = referrals family ∧
    Chain (users family) (User.referredBy frank) upline ∧
    Forall (λ x, x ∈ users family) upline ∧ NoDup upline ∧ (frank ∉ upline) ∧
    (length upline < length (users family))%nat ∧
    (∀ v, v ∈ upline →
       tc (refers (users family)) (User.referralCode frank) (User.referralCode v)) ∧
    ((EmptyString ∉ User.referralCode <$> users family) →
     ∀ v, v ∈ users family →
       tc (refers (users family)) (User.referralCode frank) (User.referralCode v) →
       v ∈ upline).
Proof.
  apply (getUpline_is_the_chain steady_env 7 family frank).
  - apply wf_users_by_computation; vm_compute; reflexivity.
  - apply referrers_come_first_acyclic. vm_compute. reflexivity.
  - done.
  - simpl. rewrite !elem_of_cons. auto 10.
  - simpl. lia.
Defined.

(** The upline and the downline are converse: on a store that IndexedDB can
    hold, without cycle and without empty referral code, and when no request
    fails, a stored user [v] is in [getUpline] of a stored user [u] exactly
    when [u] is below the root of the tree that [buildReferralTree] returns
    for [v]. *)
Theorem upline_is_converse_of_downline env fuel w u v :
  wf_users (users w) → Acyclic (users w) → (∀ k, storage_fault env k = None) →
  (EmptyString ∉ User.referralCode <$> users w) →
  u ∈ users w → v ∈ users w → (length (users w) < fuel)%nat →
  ∃ upline t w1 w2,
    getUpline env fuel (User.id u) w = (Fulfilled upline, w1) ∧
    buildReferralTree env fuel (User.id v) w = (Fulfilled (Some t), w2) ∧
    (v ∈ upline ↔ u ∈ descendants t).
Proof.
  intros Hwf Hac Hcalm Hempty Hu Hv Hfuel.
  destruct (getUpline_returns env fuel w u Hwf Hac Hcalm Hu Hfuel)
    as (upline & w1 & Hrun1 & _ & _ & Hchain).
  destruct (buildReferralTree_returns env fuel w v Hwf Hac Hcalm Hv Hfuel)
    as (t & w2 & Hrun2 & _ & _ & Hroot & Htree).
  exists upline, t, w1, w2. split; [done|]. split; [done|]. split.
  - intros Hin.
    assert (tc (refers (users w)) (User.referralCode u) (User.referralCode v)) as Hpath.
    { apply (Chain_reach (users w) _ upline Hchain); [|done].
      intros d Hd%truthy_Some. by exists u. }
    rewrite <- Hroot in Hpath. apply tc_last in Hpath as (d & Hrtc & Hedge).
    by apply (downline_in_tree (users w) u (wf_referralCode _ Hwf) Hu d Hrtc t).
  - intros Hin.
    apply (Chain_complete (users w) upline _ (wf_referralCode _ Hwf) Hempty Hchain u);
      [done..|].
    destruct (members_reach (users w) t Htree u) as [_ [->|Hpath]].
    + rewrite members_cons. by apply elem_of_cons; right.
    + pose proof (NoDup_members (users w) t Hwf Hac Htree) as Hnd.
      rewrite members_cons in Hnd. by apply NoDup_cons in Hnd as [? _].
    + by rewrite Hroot in Hpath.
Qed.

Lemma upline_is_converse_of_downline_witness :
  ∃ upline t w1 w2,
    getUpline steady_env 7 (User.id frank) family = (Fulfilled upline, w1) ∧
    buildReferralTree steady_env 7 (User.id bob) family = (Fulfilled (Some t), w2) ∧
    (bob ∈ upline ↔ frank ∈ descendants t).
Proof.
  apply (upline_is_converse_of_downline steady_env 7 family frank bob).
  - apply wf_users_by_computation; vm_compute; reflexivity.
  - apply referrers_come_first_acyclic. vm_compute. reflexivity.
  - done.
  - simpl. rewrite !elem_of_cons, elem_of_nil. intros [?|[?|[?|[?|[?|[?|?]]]]]]; done.
  - simpl. rewrite !elem_of_cons. auto 10.
  - simpl. rewrite !elem_of_cons. auto 10.
  - simpl. lia.
Defined.

(** ** The awards and the upline *)

Lemma calm_le env w (m n : nat) : calm env w n → (m ≤ n)%nat → calm env w m.
Proof.
  intros [Hf Hwf Hids] Hle. split; [done..|].
  eapply sublist_NoDup; [exact Hids|]. apply sublist_app; [|done].
  unfold upcoming_ids. replace n with (m + (n - m))%nat by lia.
  rewrite seq_app, fmap_app. by apply sublist_inserts_r.
Qed.


(** A chain that ends meets no user twice. *)
Lemma Upline_functional l v ids ids' : Upline l v ids → Upline l v ids' → ids = ids'.
Proof.
  intros H. revert ids'.
  induction H as [v Hv|v code Hv Hget|v code u ids Hv Hget _ IH]; intros ids' H';
    inversion H' as [? Hv'|? code' Hv' Hget'|? code' u' ids0 Hv' Hget' Hrest]; subst;
    try done; try congruence.
  assert (code' = code) as -> by congruence.
  assert (u' = u) as -> by congruence. f_equal. by apply IH.
Qed.

Lemma Upline_after l v ids u :
  NoDup (User.id <$> l) → Upline l v ids → u ∈ l → User.id u ∈ ids →
  ∃ rest, Upline l (User.referredBy u) rest ∧ (length rest < length ids)%nat.
Proof.
  intros Hids H Hu. induction H as [v Hv|v code Hv Hget|v code x ids Hv Hget Hup IH];
    intros Hin; [by apply elem_of_nil in Hin..|].
  apply elem_of_cons in Hin as [Heq|Hin].
  - apply store_get_Some in Hget as [Hx _].
    assert (u = x) as -> by (by apply (NoDup_fmap_eq User.id l)).
    exists ids. split; [done|]. simpl. lia.
  - destruct (IH Hin) as (rest & Hrest & Hlen). exists rest. split; [done|]. simpl. lia.
Qed.

Lemma Upline_fresh l u ids :
  NoDup (User.id <$> l) → u ∈ l → Upline l (User.referredBy u) ids → User.id u ∉ ids.
Proof.
  intros Hids Hu Hup Hin.
  destruct (Upline_after l _ ids u Hids Hup Hu Hin) as (rest & Hrest & Hlen).
  rewrite (Upline_functional l _ _ _ Hrest Hup) in Hlen. lia.
Qed.

Lemma Upline_NoDup l v ids : NoDup (User.id <$> l) → Upline l v ids → NoDup ids.
Proof.
  intros Hids. induction 1 as [| |v code u ids Hv Hget Hup IH]; [apply NoDup_nil_2..|].
  apply NoDup_cons. split; [|done]. apply (Upline_fresh l u ids Hids); [|done].
  by apply store_get_Some in Hget as [? _].
Qed.

Lemma Lineage_NoDup l code ids : NoDup (User.id <$> l) → Lineage l code ids → NoDup ids.
Proof.
  intros Hids [Hget|u ids' Hget Hup]; [apply NoDup_nil_2|].
  apply NoDup_cons. split; [|by apply (Upline_NoDup l (User.referredBy u))].
  apply (Upline_fresh l u ids' Hids); [|done]. by apply store_get_Some in Hget as [? _].
Qed.

Lemma pay_ids l a : User.id <$> pay l a = User.id <$> l.
Proof.
  unfold pay. destruct (store_get User.id (Award.referrerId a) l) as [u|] eqn:Hget; [|done].
  pose proof (store_get_Some User.id _ _ _ Hget) as [_ Hid].
  apply (store_put_fmap User.id User.id _ l u); [|done]. simpl. by rewrite Hid.
Qed.

(** Awards to distinct referrers: each stored referrer is credited with its
    award, and the other users are as they were. *)
Lemma pay_all_once (awards : list Award.t) : ∀ l,
  NoDup (Award.referrerId <$> awards) →
  (∀ a u, a ∈ awards → store_get User.id (Award.referrerId a) l = Some u →
     store_get User.id (Award.referrerId a) (pay_all awards l) =
       Some (credit (Award.level a) (Award.earnings a) u)) ∧
  (∀ i, i ∉ Award.referrerId <$> awards →
     store_get User.id i (pay_all awards l) = store_get User.id i l).
Proof.
  unfold pay_all. induction awards as [|a0 awards IH]; intros l Hnd; simpl.
  { split; [by intros a u ?%elem_of_nil|done]. }
  rewrite fmap_cons in Hnd. apply NoDup_cons in Hnd as [Hnew Hnd].
  destruct (IH (pay l a0) Hnd) as [IH1 IH2].
  assert (∀ i, i ≠ Award.referrerId a0 →
            store_get User.id i (pay l a0) = store_get User.id i l) as Hother.
  { intros i Hi. unfold pay.
    destruct (store_get User.id (Award.referrerId a0) l) as [u|] eqn:Hget; [|done].
    pose proof (store_get_Some User.id _ _ _ Hget) as [_ Hid].
    apply store_get_put_ne. simpl. by rewrite Hid. }
  split.
  - intros a u [->|Ha]%elem_of_cons Hget.
    + rewrite IH2 by done. unfold pay. rewrite Hget.
      apply store_get_Some in Hget as [_ Hid].
      rewrite <- Hid at 1.
      by rewrite <- (store_get_put_eq User.id (credit (Award.level a0) (Award.earnings a0) u) l).
    + apply IH1; [done|]. rewrite Hother; [done|].
      intros Heq. apply Hnew. rewrite <- Heq. by apply list_elem_of_fmap_2.
  - intros i Hi. apply not_elem_of_cons in Hi as [Hne Hi].
    by rewrite IH2, Hother.
Qed.

Lemma awards_along_referrers nid level ids :
  Award.referrerId <$> awards_along nid level ids = ids.
Proof.
  revert level. induction ids as [|i ids IH]; intros level; csimpl; [done|]. by rewrite IH.
Qed.



(** ** The books *)

Lemma sum_of_app {T} (f : T → Z) (xs ys : list T) :
  sum_of f (xs ++ ys) = sum_of f xs + sum_of f ys.
Proof. induction xs as [|x xs IH]; simpl; lia. Qed.

Lemma sum_of_perm {T} (f : T → Z) (xs ys : list T) : xs ≡ₚ ys → sum_of f xs = sum_of f ys.
Proof. induction 1; simpl; lia. Qed.

Lemma sum_of_attribution (i : string) (new : list Referral.t) :
  sum_of Award.earnings (filter (λ a, Award.referrerId a = i) (attribution <$> new)) =
  sum_of Referral.earnings (filter (λ ref, Referral.referrerId ref = i) new).
Proof.
  induction new as [|ref new IH]; [done|]. csimpl. rewrite !filter_cons. simpl.
  destruct (decide (Referral.referrerId ref = i)); simpl; lia.
Qed.

Lemma Upline_stored l v ids : Upline l v ids → Forall (λ i, i ∈ User.id <$> l) ids.
Proof.
  induction 1 as [| |v code u ids Hv Hget _ IH]; [done..|]. constructor; [|done].
  apply store_get_Some in Hget as [Hu _]. by apply list_elem_of_fmap_2.
Qed.

Lemma Lineage_stored l code ids : Lineage l code ids → Forall (λ i, i ∈ User.id <$> l) ids.
Proof.
  intros [Hget|u ids' Hget Hup]; [done|]. constructor; [|by eapply Upline_stored].
  apply store_get_Some in Hget as [Hu _]. by apply list_elem_of_fmap_2.
Qed.

Lemma filter_none {A} (P : A → Prop) `{∀ x, Decision (P x)} (xs : list A) :
  (∀ x, x ∈ xs → ¬ P x) → filter P xs = [].
Proof.
  induction xs as [|x xs IH]; intros Hnone; [done|]. rewrite filter_cons.
  rewrite decide_False by (apply Hnone; by left). apply IH. intros y Hy. apply Hnone. by right.
Qed.

Lemma filter_NoDup_fmap {A B} `{EqDecision B} (f : A → B) (xs : list A) a :
  NoDup (f <$> xs) → a ∈ xs → filter (λ x, f x = f a) xs = [a].
Proof.
  induction xs as [|x xs IH]; intros Hnd Ha; [by apply elem_of_nil in Ha|].
  rewrite fmap_cons in Hnd. apply NoDup_cons in Hnd as [Hx Hnd]. rewrite filter_cons.
  apply elem_of_cons in Ha as [->|Ha].
  - rewrite decide_True by done. f_equal. apply filter_none.
    intros y Hy Heq. simpl in Heq. apply Hx. rewrite <- Heq. by apply list_elem_of_fmap_2.
  - rewrite decide_False; [by apply IH|].
    intros Heq. apply Hx. rewrite Heq. by apply list_elem_of_fmap_2.
Qed.

Lemma reward_of_range level : 0 ≤ reward_of level ≤ 100.
Proof.
  unfold reward_of. destruct (level =? 1), (level =? 2), (level =? 3); lia.
Qed.

(** Awards of at most 100 each to distinct stored referrers whose totals are
    not negative and leave room for 100 below [MAX_EXACT]: the total of each
    user has grown by the sum of the awards that name the user. *)
Lemma pay_all_total (awards : list Award.t) l :
  NoDup (User.id <$> l) → NoDup (Award.referrerId <$> awards) →
  Forall (λ a, 0 ≤ Award.earnings a ≤ 100) awards →
  ∀ u, u ∈ l → 0 ≤ User.totalEarnings u → User.totalEarnings u + 100 < MAX_EXACT →
    ∃ u', store_get User.id (User.id u) (pay_all awards l) = Some u' ∧
      User.totalEarnings u' =
        User.totalEarnings u +
        sum_of Award.earnings (filter (λ a, Award.referrerId a = User.id u) awards).
Proof.
  intros Hids Hnd Hrange u Hu Hpos Hroom.
  destruct (pay_all_once awards l Hnd) as [Hpaid Hrest].
  pose proof (store_get_NoDup User.id l u Hids Hu) as Hget.
  destruct (decide (User.id u ∈ Award.referrerId <$> awards)) as [Hin|Hout].
  - apply list_elem_of_fmap in Hin as (a & Heq & Ha).
    exists (credit (Award.level a) (Award.earnings a) u). split.
    + rewrite Heq. apply Hpaid; [done|]. by rewrite <- Heq.
    + rewrite Heq, (filter_NoDup_fmap Award.referrerId awards a Hnd Ha). simpl.
      pose proof (proj1 (Forall_forall _ _) Hrange a Ha) as Hamount. simpl in Hamount.
      unfold credit. simpl. rewrite Number_add_exact by lia. lia.
  - exists u. split; [by rewrite Hrest|].
    replace (filter (λ a, Award.referrerId a = User.id u) awards) with (@nil Award.t).
    + simpl. lia.
    + symmetry. apply filter_none. intros a Ha Heq. simpl in Heq.
      apply Hout. rewrite <- Heq. by apply list_elem_of_fmap_2.
Qed.

(** [processNewReferral] keeps the books when nothing fails and no sum is
    rounded: if the total of every user is the sum of the earnings of the
    records that name the user as referrer, is not negative and leaves room
    for an award of 100 below [MAX_EXACT], the totals are those sums again
    when [processNewReferral] has returned for a stored new user, on a store
    without cycle.  They are not when a request fails between the update of
    a referrer and the record of the award: the referrer is credited and no
    record says so. *)
Theorem processNewReferral_keeps_the_books env fuel w newUserId referralCode :
  calm env w (length (users w)) → Acyclic (users w) →
  is_Some (store_get User.id newUserId (users w)) → (length (users w) ≤ fuel + 2)%nat →
  Forall (λ u, 0 ≤ User.totalEarnings u ∧ User.totalEarnings u + 100 < MAX_EXACT)
    (users w) →
  books_agree (users w) (referrals w) →
  (∃ res w',
     processNewReferral env fuel newUserId referralCode w = (Fulfilled res, w') ∧
     books_agree (users w') (referrals w')) ∧
  (books_agree (users trio) (referrals trio) ∧
   ¬ books_agree
       (users (processNewReferral (failing_env 8) 0 "user_3_c" "BOB00002" trio).2)
       (referrals (processNewReferral (failing_env 8) 0 "user_3_c" "BOB00002" trio).2)).
Proof.
  intros Hcalm Hac Hnew Hfuel Hroom Hbooks. split.
  2: { split.
       - intros u Hu. simpl in Hu. rewrite !elem_of_cons, elem_of_nil in Hu.
         by destruct Hu as [->|[->|[->|[]]]].
       - intros H. specialize (H (credit 2 60 alice)). vm_compute in H.
         by specialize (H ltac:(by apply elem_of_cons; left)). }
  pose proof (calm_users _ _ _ Hcalm) as Hwf. pose proof (wf_id _ Hwf) as Hids.
  destruct (lineage_exists (users w) referralCode Hac) as (ids & Hlin & Hlen).
  destruct (processNewReferral_spec env fuel newUserId referralCode w ids Hlin)
    as (r & w' & Hrun & _ & Hshape & new & paid & Htrail & Hfull & Hok); [lia|].
  exists r, w'. split; [done|].
  assert (attribution <$> new = awards_along newUserId 1 ids) as Hattr.
  { destruct ids as [|i ids].
    - destruct Htrail as [_ Hrec Hpaid _ _]. apply prefix_nil_inv in Hpaid. subst paid.
      by apply prefix_nil_inv in Hrec.
    - assert (r = mkResult true None) as ->; [|by apply Hfull].
      apply Hok; [by apply (calm_le env w _ (length (users w)))|done..]. }
  destruct (trail_full _ _ _ _ _ Htrail Hattr) as [_ Husers].
  pose proof (trail_referrals _ _ _ _ _ Htrail) as Hrefs.
  assert (User.id <$> users w' = User.id <$> users w) as Hsame
    by (by apply (fmap_via_shape User.id)).
  intros u' Hu'.
  assert (User.id u' ∈ User.id <$> users w) as (u & Hid & Hu)%list_elem_of_fmap
    by (rewrite <- Hsame; by apply list_elem_of_fmap_2).
  destruct (proj1 (Forall_forall _ _) Hroom u Hu) as [Hpos Hlt].
  destruct (pay_all_total (awards_along newUserId 1 ids) (users w) Hids) with (u := u)
    as (u'' & Hget & Htotal); [| |done..|].
  { rewrite awards_along_referrers. by apply (Lineage_NoDup (users w) referralCode). }
  { apply Forall_forall. intros a (j & Ha)%list_elem_of_lookup.
    rewrite awards_along_lookup in Ha. destruct (ids !! j); [|done]. injection Ha as <-.
    apply reward_of_range. }
  rewrite <- Husers, <- Hid in Hget.
  rewrite (store_get_NoDup User.id (users w') u') in Hget; [|by rewrite Hsame|done].
  injection Hget as <-.
  rewrite Htotal, (Hbooks u Hu), <- Hattr, sum_of_attribution, Hid.
  rewrite (sum_of_perm _ _ _ (filter_Permutation _ _ _ Hrefs)), filter_app, sum_of_app. lia.
Qed.

Lemma processNewReferral_keeps_the_books_witness :
  (∃ res w',
     processNewReferral steady_env 7 "user_6_f" "ERIN0005" family = (Fulfilled res, w') ∧
     books_agree (users w') (referrals w')) ∧
  (books_agree (users trio) (referrals trio) ∧
   ¬ books_agree
       (users (processNewReferral (failing_env 8) 0 "user_3_c" "BOB00002" trio).2)
       (referrals (processNewReferral (failing_env 8) 0 "user_3_c" "BOB00002" trio).2)).
Proof.
  apply (processNewReferral_keeps_the_books steady_env 7 family "user_6_f" "ERIN0005").
  - apply calm_steady; vm_compute; reflexivity.
  - apply referrers_come_first_acyclic. vm_compute. reflexivity.
  - by eexists.
  - simpl. lia.
  - repeat (apply Forall_cons_2; [by vm_compute|]). apply Forall_nil_2.
  - intros u Hu. simpl in Hu. rewrite !elem_of_cons, elem_of_nil in Hu.
    by destruct Hu as [->|[->|[->|[->|[->|[->|[]]]]]]].
Defined.

(** ** The awards along the chain *)

(** C1: along a chain of [N] referrers above the new user, a chain that ends
    and so has no cycle, [processNewReferral] performs exactly these awards:
    100 at level 1 to the first referrer, 60 at level 2 to the second, 40 at
    level 3 to the third, as far as the chain goes, and 20 to each referrer
    after the third, at the levels 4, 5, 6 and so on.  Each award is
    recorded and is credited to its referrer, whose total has the reward
    added, as doubles add, and who is stored as [credit] leaves the user; the
    users off the chain are as they were, and the call reports success when
    the chain is not empty.  Nothing fails in the environment of the
    statement. *)
Theorem processNewReferral_awards_the_chain env fuel newUserId referralCode w ids :
  is_Some (store_get User.id newUserId (users w)) →
  Lineage (users w) referralCode ids →
  calm env w (length ids) →
  (length ids ≤ fuel + 2)%nat →
  ∃ r w' (new : list Referral.t),
    processNewReferral env fuel newUserId referralCode w = (Fulfilled r, w') ∧
    (ids ≠ [] → r = mkResult true None) ∧
    referrals w' ≡ₚ new ++ referrals w ∧
    attribution <$> new = awards_along newUserId 1 ids ∧
    count_awards 1 rewardStructure.level1 (attribution <$> new) = (length ids `min` 1)%nat ∧
    count_awards 2 rewardStructure.level2 (attribution <$> new) =
      ((length ids - 1) `min` 1)%nat ∧
    count_awards 3 rewardStructure.level3 (attribution <$> new) =
      ((length ids - 2) `min` 1)%nat ∧
    length new = length ids ∧
    (∀ (j : nat) a, (3 ≤ j)%nat → (attribution <$> new) !! j = Some a →
       ids !! j = Some (Award.referrerId a) ∧
       Award.referredId a = newUserId ∧
       Award.level a = Z.of_nat j + 1 ∧
       Award.earnings a = rewardStructure.level4Plus) ∧
    (∀ (j : nat) i, ids !! j = Some i →
       ∃ u, store_get User.id i (users w) = Some u ∧
         store_get User.id i (users w') =
           Some (credit (Z.of_nat j + 1) (reward_of (Z.of_nat j + 1)) u) ∧
         User.totalEarnings (credit (Z.of_nat j + 1) (reward_of (Z.of_nat j + 1)) u) =
           Number_add (User.totalEarnings u) (reward_of (Z.of_nat j + 1))) ∧
    (∀ i, i ∉ ids → store_get User.id i (users w') = store_get User.id i (users w)).
Proof.
  intros Hnew Hlin Hcalm Hfuel.
  destruct (processNewReferral_spec env fuel newUserId referralCode w ids Hlin Hfuel)
    as (r & w' & Hrun & Hr & _ & new & paid & Htrail & Hfull & Hok).
  assert (attribution <$> new = awards_along newUserId 1 ids) as Hawards.
  { destruct ids as [|i ids].
    - destruct Htrail as [_ Hrec Hpaid _ _]. simpl in Hpaid.
      apply prefix_nil_inv in Hpaid. subst paid. by apply prefix_nil_inv in Hrec.
    - apply Hfull. by rewrite (Hok Hcalm). }
  destruct (trail_full _ _ _ _ _ Htrail Hawards) as [_ Husers].
  pose proof (wf_id _ (calm_users _ _ _ Hcalm)) as Hids.
  destruct (pay_all_once (awards_along newUserId 1 ids) (users w)) as [Hpaid Hrest].
  { rewrite awards_along_referrers. by apply (Lineage_NoDup (users w) referralCode). }
  rewrite awards_along_referrers in Hrest.
  exists r, w', new. split; [done|]. split; [by intros Hne; apply Hok|].
  split; [by destruct Htrail|]. split; [done|].
  rewrite Hawards. destruct (count_awards_first_levels newUserId ids) as (H1 & H2 & H3).
  split; [done|]. split; [done|]. split; [done|]. split.
  { by rewrite <- (length_fmap attribution), Hawards, length_awards_along. }
  split; [|split].
  - intros j a Hj Ha. rewrite awards_along_lookup in Ha.
    destruct (ids !! j) as [i|]; [|done]. injection Ha as <-. simpl.
    split; [done|]. split; [done|]. split; [lia|].
    unfold reward_of. by rewrite !(proj2 (Z.eqb_neq _ _)) by lia.
  - intros j i Hj.
    assert (is_Some (store_get User.id i (users w))) as [u Hu].
    { apply store_get_is_Some.
      apply (proj1 (Forall_forall _ _) (Lineage_stored _ _ _ Hlin)).
      by eapply list_elem_of_lookup_2. }
    exists u. split; [done|]. split; [|done]. rewrite Husers.
    assert (awards_along newUserId 1 ids !! j =
              Some (Award.mk i newUserId (Z.of_nat j + 1) (reward_of (Z.of_nat j + 1))))
      as Ha.
    { rewrite awards_along_lookup, Hj. simpl.
      by replace (1 + Z.of_nat j) with (Z.of_nat j + 1) by lia. }
    by apply (Hpaid _ u (list_elem_of_lookup_2 _ _ _ Ha)).
  - intros i Hi. rewrite Husers. by apply Hrest.
Qed.

Lemma processNewReferral_awards_the_chain_witness :
  ∃ r w' (new : list Referral.t),
    processNewReferral steady_env 3 "user_6_f" "ERIN0005" family = (Fulfilled r, w') ∧
    (["user_5_e"; "user_4_d"; "user_3_c"; "user_2_b"; "user_1_a"] ≠ [] →
     r = mkResult true None) ∧
    referrals w' ≡ₚ new ++ referrals family ∧
    attribution <$> new =
      awards_along "user_6_f" 1 ["user_5_e"; "user_4_d"; "user_3_c"; "user_2_b"; "user_1_a"] ∧
    count_awards 1 100 (attribution <$> new) = 1%nat ∧
    count_awards 2 60 (attribution <$> new) = 1%nat ∧
    count_awards 3 40 (attribution <$> new) = 1%nat ∧
    length new = 5%nat ∧
    (∀ (j : nat) a, (3 ≤ j)%nat → (attribution <$> new) !! j = Some a →
       ["user_5_e"; "user_4_d"; "user_3_c"; "user_2_b"; "user_1_a"] !! j =
         Some (Award.referrerId a) ∧
       Award.referredId a = "user_6_f" ∧
       Award.level a = Z.of_nat j + 1 ∧
       Award.earnings a = 20) ∧
    (∀ (j : nat) i,
       ["user_5_e"; "user_4_d"; "user_3_c"; "user_2_b"; "user_1_a"] !! j = Some i →
       ∃ u, store_get User.id i (users family) = Some u ∧
         store_get User.id i (users w') =
           Some (credit (Z.of_nat j + 1) (reward_of (Z.of_nat j + 1)) u) ∧
         User.totalEarnings (credit (Z.of_nat j + 1) (reward_of (Z.of_nat j + 1)) u) =
           Number_add (User.totalEarnings u) (reward_of (Z.of_nat j + 1))) ∧
    (∀ i, i ∉ ["user_5_e"; "user_4_d"; "user_3_c"; "user_2_b"; "user_1_a"] →
       store_get User.id i (users w') = store_get User.id i (users family)).
Proof.
  apply (processNewReferral_awards_the_chain steady_env 3 "user_6_f" "ERIN0005" family
           ["user_5_e"; "user_4_d"; "user_3_c"; "user_2_b"; "user_1_a"]).
  - by exists frank.
  - apply (Lineage_some _ _ erin); [reflexivity|].
    apply (Upline_step _ _ "DAVE0004" dave); [reflexivity..|].
    apply (Upline_step _ _ "CAROL003" carol); [reflexivity..|].
    apply (Upline_step _ _ "BOB00002" bob); [reflexivity..|].
    apply (Upline_step _ _ "ALICE001" alice); [reflexivity..|].
    apply Upline_root. reflexivity.
  - apply calm_steady; vm_compute; reflexivity.
  - simpl. lia.
Defined.

(** The awards above Frank, evaluated: the totals and the buckets of his
    five referrers. *)
Example awards_above_frank :
  (λ u, (User.username u, User.totalEarnings u, User.earningsByLevel u)) <$>
    users (processNewReferral steady_env 3 "user_6_f" "ERIN0005" family).2 =
    [("alice", 20, EarningsByLevel.mk 0 0 0 20); ("bob", 20, EarningsByLevel.mk 0 0 0 20);
     ("carol", 40, EarningsByLevel.mk 0 0 40 0); ("dave", 60, EarningsByLevel.mk 0 60 0 0);
     ("erin", 100, EarningsByLevel.mk 100 0 0 0); ("frank", 0, EarningsByLevel.mk 0 0 0 0)].
Proof. vm_compute. reflexivity. Qed.

(** ** Referral codes *)

Lemma map_chars_append f (a s : string) :
  map_chars f (a +:+ s) = map_chars f a +:+ map_chars f s.
Proof. induction a as [|c a IH]; simpl; [done|]. by rewrite IH. Qed.

Lemma list_ascii_of_string_append (a s : string) :
  String.list_ascii_of_string (a +:+ s) =
    String.list_ascii_of_string a ++ String.list_ascii_of_string s.
Proof. induction a as [|c a IH]; simpl; [done|]. by rewrite IH. Qed.

Lemma elem_of_by_computation (c : Ascii.ascii) (cs : list Ascii.ascii) :
  bool_decide (c ∈ cs) = true → c ∈ cs.
Proof. apply bool_decide_eq_true_1. Qed.

(** Every index below 36 finds one character of the alphabet, a capital
    letter or a digit. *)
Lemma charAt_chars (i : nat) :
  (i < 36)%nat →
  ∃ c, charAt i chars = String c EmptyString ∧ upper c = c ∧ upper (lower c) = c ∧
       c ∈ String.list_ascii_of_string chars.
Proof.
  intros Hi.
  do 36 (destruct i as [|i];
    [eexists; split; [reflexivity|split; [reflexivity|split;
       [reflexivity|apply elem_of_by_computation; vm_compute; reflexivity]]]|]).
  lia.
Qed.

Lemma code_like_next (n i : nat) (s : string) :
  code_like n s → (i < 36)%nat → code_like (S n) (s +:+ charAt i chars).
Proof.
  intros (Hlen & Hup & Hback & Hall) Hi.
  destruct (charAt_chars i Hi) as (c & -> & Hc & Hlc & Hin).
  split_and!.
  - rewrite length_append, Hlen. simpl. lia.
  - unfold toUpperCase in *. rewrite map_chars_append, Hup. simpl. by rewrite Hc.
  - unfold toUpperCase, toLowerCase in *. rewrite !map_chars_append, Hback. simpl.
    by rewrite Hlc.
  - rewrite list_ascii_of_string_append. apply Forall_app. split; [done|].
    simpl. by constructor.
Qed.

Lemma ensures_randomCharacters env n code k
    (P : list User.t → list Referral.t → Prop) R N :
  (∀ j, scaled env j 36 < 36)%nat → code_like k code →
  ensures P (randomCharacters env n code) (λ res l r, P l r ∧ code_like (k + n) res) R N.
Proof.
  intros Hdraw. revert code k. induction n as [|n IH]; intros code k Hcode.
  - apply ensures_ret. intros l r HP. by rewrite Nat.add_0_r.
  - change (randomCharacters env (S n) code) with
      (i ← Math_floor_random_times env (String.length chars);
       randomCharacters env n (code +:+ charAt i chars)).
    eapply ensures_bind with
      (Q := λ i l r, P l r ∧ (i < 36)%nat).
    { intros w Hw. simpl. split; [done|]. apply Hdraw. }
    intros i. apply ensures_pre. intros l r [HP Hi].
    eapply ensures_weaken; [apply (IH _ (S k)), code_like_next; done| | |done..].
    + by intros ? ? [-> ->].
    + intros res ? ? [? Hres]. simpl in *. by replace (k + S n)%nat with (S k + n)%nat by lia.
Qed.

Lemma ensures_generateReferralCode env fuel l0 r0 :
  (∀ j, scaled env j 36 < 36)%nat →
  ensures (λ l r, l = l0 ∧ r = r0) (generateReferralCode env fuel)
    (λ code l r,
       (l = l0 ∧ r = r0) ∧ code_like 8 code ∧
       store_get User.referralCode code l0 = None)
    (λ _ l r, l = l0 ∧ r = r0) (λ l r, l = l0 ∧ r = r0).
Proof.
  intros Hdraw. induction fuel as [|fuel IH]; [by apply ensures_never|].
  change (generateReferralCode env (S fuel)) with
    (code ← randomCharacters env 8 EmptyString;
     existingUser ← getUserByReferralCode env code;
     match existingUser with
     | None => mret code
     | Some _ => generateReferralCode env fuel
     end).
  eapply ensures_bind; [by apply (ensures_randomCharacters env 8 EmptyString 0)|].
  intros code. apply ensures_pre. intros l r [[-> ->] Hcode].
  eapply ensures_bind; [by apply ensures_getUserByReferralCode|].
  intros existingUser. apply ensures_pre. intros l r' [[-> ->] ->].
  destruct (store_get User.referralCode code l0) eqn:Hget.
  - eapply ensures_weaken; [apply IH|by intros ? ? [-> ->]|done..].
  - apply ensures_ret. by intros ? ? [-> ->].
Qed.

(** [generateReferralCode], when [Math.floor(Math.random() * 36)] is below
    36 as it always is: the code it returns has 8 characters, each a capital
    letter or a digit of its alphabet, so that [toUpperCase] leaves it as it
    is and gives it back from its lower case, and it is the referral code of
    no stored user; the stores are unchanged however it ends. *)
Theorem generateReferralCode_outcome env fuel w :
  (∀ j, scaled env j 36 < 36)%nat →
  match generateReferralCode env fuel w with
  | (Fulfilled code, w') =>
      String.length code = 8%nat ∧
      Forall (λ c, c ∈ String.list_ascii_of_string chars)
        (String.list_ascii_of_string code) ∧
      toUpperCase code = code ∧ toUpperCase (toLowerCase code) = code ∧
      store_get User.referralCode code (users w) = None ∧
      users w' = users w ∧ referrals w' = referrals w
  | (_, w') => users w' = users w ∧ referrals w' = referrals w
  end.
Proof.
  intros Hdraw.
  pose proof (ensures_generateReferralCode env fuel (users w) (referrals w) Hdraw w
                (conj eq_refl eq_refl)) as H.
  destruct (generateReferralCode env fuel w) as [[code|e|] w']; [|done..].
  by destruct H as ([-> ->] & (Hlen & Hup & Hback & Hall) & Hfresh).
Qed.

Lemma generateReferralCode_outcome_witness :
  match generateReferralCode steady_env 3 trio with
  | (Fulfilled code, w') =>
      String.length code = 8%nat ∧
      Forall (λ c, c ∈ String.list_ascii_of_string chars)
        (String.list_ascii_of_string code) ∧
      toUpperCase code = code ∧ toUpperCase (toLowerCase code) = code ∧
      store_get User.referralCode code (users trio) = None ∧
      users w' = users trio ∧ referrals w' = referrals trio
  | (_, w') => users w' = users trio ∧ referrals w' = referrals trio
  end.
Proof.
  apply (generateReferralCode_outcome steady_env 3 trio).
  intros j. change (scaled steady_env j 36) with (j `mod` 36)%nat.
  apply Nat.mod_upper_bound. lia.
Defined.

Example referral_code_of_the_first_draws :
  (generateReferralCode steady_env 1 trio).1 = Fulfilled "ABCDEFGH".
Proof. vm_compute. reflexivity. Qed.

(** ** Registration when no request fails *)

Section Calm.
Context (env : Environment).
Hypothesis Hcalm : ∀ k, storage_fault env k = None.
Implicit Types (P N : list User.t → list Referral.t → Prop).
Implicit Types (R : JsError → list User.t → list Referral.t → Prop).

Lemma calm_ensures_request {A} (op : Async A) P (Q : A → _) R N :
  ensures P op Q R N → ensures P (request env op) Q R N.
Proof. intros Hop w Hw. unfold request. rewrite Hcalm. by apply Hop. Qed.

Lemma calm_ensures_read {A} (f : list User.t → list Referral.t → A) P R N :
  ensures P (request env (λ w, (Fulfilled (f (users w) (referrals w)), w)))
    (λ a l r, P l r ∧ a = f l r) R N.
Proof. apply calm_ensures_request. by intros w Hw. Qed.

Lemma calm_ensures_addUser user P R N :
  (∀ k l r, P l r → is_Some (store_get User.id (User.id user) l) →
     R (ConstraintError env k) l r) →
  (∀ k l r, P l r → store_get User.id (User.id user) l = None →
     index_conflict user l = true → R (ConstraintError env k) l r) →
  ensures P (addUser env user)
    (λ a l' r, a = user ∧ ∃ l, P l r ∧ store_get User.id (User.id user) l = None ∧
               index_conflict user l = false ∧ l' = store_put User.id user l) R N.
Proof.
  intros Hkey Hindex. apply calm_ensures_request. intros w Hw. simpl.
  case_bool_decide as Hk; simpl; [by apply Hkey|].
  assert (store_get User.id (User.id user) (users w) = None) as Hnew.
  { destruct (store_get User.id (User.id user) (users w)) eqn:E; [|done].
    destruct Hk. by eexists. }
  destruct (index_conflict user (users w)) eqn:Hc; simpl; [by apply Hindex|].
  split; [done|]. by exists (users w).
Qed.

Lemma calm_ensures_randomCharacters n code P R N :
  ensures P (randomCharacters env n code) (λ _, P) R N.
Proof.
  revert code. induction n as [|n IH]; intros code; [by apply ensures_ret|].
  change (randomCharacters env (S n) code) with
    (i ← Math_floor_random_times env (String.length chars);
     randomCharacters env n (code +:+ charAt i chars)).
  eapply ensures_bind with (Q := λ _, P); [by intros w Hw|]. intros i. apply IH.
Qed.

Lemma calm_ensures_generateReferralCode fuel l0 r0 R N :
  (∀ l r, l = l0 ∧ r = r0 → N l r) →
  ensures (λ l r, l = l0 ∧ r = r0) (generateReferralCode env fuel)
    (λ code l r, (l = l0 ∧ r = r0) ∧ store_get User.referralCode code l0 = None) R N.
Proof.
  intros HN. induction fuel as [|fuel IH]; [by apply ensures_never|].
  change (generateReferralCode env (S fuel)) with
    (code ← randomCharacters env 8 EmptyString;
     existingUser ← getUserByReferralCode env code;
     match existingUser with
     | None => mret code
     | Some _ => generateReferralCode env fuel
     end).
  eapply ensures_bind; [apply calm_ensures_randomCharacters|]. intros code.
  eapply ensures_bind;
    [apply (calm_ensures_read (λ l _, store_get User.referralCode code l))|].
  intros existingUser. apply ensures_pre. intros l r [[-> ->] ->].
  destruct (store_get User.referralCode code l0) eqn:Hget.
  - eapply ensures_weaken; [apply IH|by intros ? ? [-> ->]|done..].
  - apply ensures_ret. by intros ? ? [-> ->].
Qed.

End Calm.

(** What [register] returns for arguments that pass its three checks, when
    no request fails: a refusal with the message of its cause, the stores as
    they were, or the success of [ensures_register]. *)
Lemma calm_ensures_register env fuel username email password referralCode l0 r0 :
  (∀ k, storage_fault env k = None) →
  (3 ≤ String.length username)%nat → includes "@" email = true →
  (6 ≤ String.length password)%nat →
  ensures (λ l r, l = l0 ∧ r = r0)
    (register env fuel username email password referralCode)
    (λ res l r,
       (∃ e, res = Registration.mk false None (Some (message e)) ∧
             refusal env username email referralCode l0 e ∧ l = l0 ∧ r = r0) ∨
       (∃ n, res = Registration.mk true (Some (sanitizeUser n)) None ∧
             registers env username email password referralCode n l0 ∧
             store_get User.username username l0 = None ∧
             store_get User.email email l0 = None ∧
             unaltered (shape <$> store_put User.id n l0) r0 l r))
    (λ _ _ _, False)
    (λ _ _, store_get User.username username l0 = None ∧
            store_get User.email email l0 = None ∧
            ∀ d, referredBy_of referralCode = Some d → d ∈ User.referralCode <$> l0).
Proof.
  intros Hcalm V1 V2 V3. unfold register.
  eapply ensures_try_catch with
    (R := λ e l r, (l = l0 ∧ r = r0) ∧ refusal env username email referralCode l0 e).
  2: { intros e. apply ensures_ret. intros l r [[-> ->] He]. left. by exists e. }
  assert (bool_decide (username = EmptyString) || (String.length username <? 3)%nat = false)
    as ->.
  { apply orb_false_intro; [|by apply Nat.ltb_ge].
    apply bool_decide_eq_false. intros ->. simpl in V1. lia. }
  assert (bool_decide (email = EmptyString) || negb (includes "@" email) = false) as ->.
  { apply orb_false_intro; [|by rewrite V2]. apply bool_decide_eq_false. by intros ->. }
  assert (bool_decide (password = EmptyString) || (String.length password <? 6)%nat = false)
    as ->.
  { apply orb_false_intro; [|by apply Nat.ltb_ge].
    apply bool_decide_eq_false. intros ->. simpl in V3. lia. }
  eapply ensures_bind;
    [apply (calm_ensures_read env Hcalm (λ l _, store_get User.username username l))|].
  intros existingUsername. apply ensures_pre. intros l r [[-> ->] ->].
  destruct (store_get User.username username l0) as [existingUsername|] eqn:Hname.
  { apply ensures_throw. intros ? ? [-> ->]. split; [done|]. left. by rewrite Hname. }
  eapply ensures_bind;
    [apply (calm_ensures_read env Hcalm (λ l _, store_get User.email email l))|].
  intros existingEmail. apply ensures_pre. intros l r' [[-> ->] ->].
  destruct (store_get User.email email l0) as [existingEmail|] eqn:Hmail.
  { apply ensures_throw. intros ? ? [-> ->]. split; [done|]. right. left.
    by rewrite Hmail. }
  eapply ensures_bind with
    (Q := λ referredBy l r, (l = l0 ∧ r = r0) ∧ referredBy = referredBy_of referralCode ∧
            ∀ d, referredBy = Some d → d ∈ User.referralCode <$> l0).
  { destruct (truthy referralCode) as [code|] eqn:Ht.
    2: { apply ensures_ret. intros l r [-> ->]. unfold referredBy_of. by rewrite Ht. }
    destruct (bool_decide (trim code = EmptyString)) eqn:Hb.
    { apply ensures_ret. intros l r [-> ->]. unfold referredBy_of. by rewrite Ht, Hb. }
    assert (referredBy_of referralCode = Some (toUpperCase code)) as Hby
      by (unfold referredBy_of; by rewrite Ht, Hb).
    eapply ensures_bind;
      [apply (calm_ensures_read env Hcalm
                (λ l _, store_get User.referralCode (toUpperCase code) l))|].
    intros referrer. apply ensures_pre. intros l r'' [[-> ->] ->].
    destruct (store_get User.referralCode (toUpperCase code) l0) as [referrer|] eqn:Hcode.
    - apply ensures_ret. intros ? ? [-> ->]. rewrite Hby. split_and!; try done.
      intros d [= <-]. by apply store_get_elem_of_fmap in Hcode.
    - apply ensures_throw. intros ? ? [-> ->]. split; [done|]. right. right. left.
      split_and!; try done. by exists code. }
  intros referredBy. apply ensures_pre. intros l r'' ([-> ->] & -> & Hcode).
  eapply ensures_bind; [apply ensures_generateId_form|]. intros id.
  eapply ensures_bind; [apply ensures_hashPassword|]. intros passwordHash.
  apply ensures_pre. intros l r3 (([-> ->] & Hform) & ->).
  eapply ensures_bind; [by apply (calm_ensures_generateReferralCode env Hcalm fuel l0 r0)|].
  intros code. apply ensures_pre. intros l r4 ([-> ->] & Hfresh).
  assert (∀ d, referredBy_of referralCode = Some d → d ∈ User.referralCode <$> l0)
    as Hresolves by done.
  eapply ensures_bind; [apply ensures_Date_now|]. intros createdAt.
  set (n := User.mk id _ _ _ _ _ _ _ _ _).
  eapply ensures_bind.
  { apply (calm_ensures_addUser env Hcalm n).
    - intros k ? ? [-> ->] [v Hkey]. split; [done|]. do 3 right.
      split_and!; try done; [by exists k|].
      apply store_get_Some in Hkey as [Hv Hid]. exists v. split; [done|]. left.
      by rewrite Hid.
    - intros k ? ? [-> ->] Hkey Hconflict. split; [done|]. do 3 right.
      split_and!; try done; [by exists k|].
      apply index_conflict_true in Hconflict as (v & Hv & _ & [H|[H|H]]).
      + exists v. auto.
      + exists v. auto.
      + apply store_get_None in Hfresh. destruct Hfresh. simpl in H. rewrite <- H.
        by apply list_elem_of_fmap_2. }
  intros user. apply ensures_pre. intros l r5 (-> & l' & [-> ->] & Hid & Hconflict & ->).
  assert (registers env username email password referralCode n l0) as Hn
    by by repeat split.
  eapply ensures_bind with
    (Q := λ _, unaltered (shape <$> store_put User.id n l0) r0).
  { rewrite truthy_referredBy_of. destruct (referredBy_of referralCode) as [d|] eqn:Hby.
    - eapply ensures_bind.
      + eapply ensures_weaken;
          [apply (ensures_processNewReferral env (shape <$> store_put User.id n l0) r0)|..].
        * by intros ? ? [-> ->].
        * intros a ? ? H. exact H.
        * done.
        * intros ? ? _. by split_and!.
      + intros ?. by apply ensures_ret.
    - apply ensures_ret. by intros ? ? [-> ->]. }
  intros _. apply ensures_ret. intros l r6 H. right. exists n. by split_and!.
Qed.

(** [register] checks its arguments first, in the order username, email,
    password, and refuses with the message of the first check that fails
    before it has made any request or read the clock: the world is the one
    it found. *)
Theorem register_checks_its_arguments env fuel username email password referralCode w :
  ((String.length username < 3)%nat →
   register env fuel username email password referralCode w =
     (Fulfilled (Registration.mk false None (Some "Username must be at least 3 characters")),
      w)) ∧
  ((3 ≤ String.length username)%nat → includes "@" email = false →
   register env fuel username email password referralCode w =
     (Fulfilled (Registration.mk false None (Some "Invalid email address")), w)) ∧
  ((3 ≤ String.length username)%nat → includes "@" email = true →
   (String.length password < 6)%nat →
   register env fuel username email password referralCode w =
     (Fulfilled (Registration.mk false None (Some "Password must be at least 6 characters")),
      w)).
Proof.
  assert (∀ s n, (n ≤ String.length s)%nat → (0 < n)%nat →
            bool_decide (s = EmptyString) || (String.length s <? n)%nat = false) as Hlong.
  { intros s n Hn Hpos. apply orb_false_intro; [|by apply Nat.ltb_ge].
    apply bool_decide_eq_false. intros ->. simpl in Hn. lia. }
  unfold register, try_catch. split_and!.
  - intros H. apply Nat.ltb_lt in H. by rewrite H, orb_true_r.
  - intros H1 H2. rewrite (Hlong username 3%nat) by lia. by rewrite H2, orb_true_r.
  - intros H1 H2 H3. rewrite (Hlong username 3%nat) by lia. rewrite H2. simpl.
    assert (bool_decide (email = EmptyString) = false) as ->
      by (apply bool_decide_eq_false; by intros ->).
    apply Nat.ltb_lt in H3. by rewrite H3, orb_true_r.
Qed.

Lemma register_checks_its_arguments_witness :
  register steady_env 3 "al" "al@example.org" "secret1" None trio =
    (Fulfilled (Registration.mk false None (Some "Username must be at least 3 characters")),
     trio) ∧
  register steady_env 3 "alice" "alice.example.org" "secret1" None trio =
    (Fulfilled (Registration.mk false None (Some "Invalid email address")), trio) ∧
  register steady_env 3 "alice" "alice@example.org" "abc" None trio =
    (Fulfilled (Registration.mk false None (Some "Password must be at least 6 characters")),
     trio).
Proof.
  split_and!.
  - apply (register_checks_its_arguments steady_env 3 "al" "al@example.org" "secret1" None
             trio). simpl. lia.
  - apply (register_checks_its_arguments steady_env 3 "alice" "alice.example.org" "secret1"
             None trio); [simpl; lia|reflexivity].
  - apply (register_checks_its_arguments steady_env 3 "alice" "alice@example.org" "abc" None
             trio); [simpl; lia|reflexivity|simpl; lia].
Defined.

(** [register] says why it refuses.  For arguments that pass the three
    checks, and when no request fails, a refusal leaves the stores as they
    were and carries the message of its cause: the username as typed is
    stored; or the email as typed is; or the referral code, in upper case, is
    the code of no stored user; or [addUser] was refused with a
    [ConstraintError], the generated id being stored or a stored user having
    the username or the email in lower case.  It succeeds only when none of
    these is the case, and it can fail to return only after the lookups of
    username, email and referral code. *)
Theorem register_says_why env fuel username email password referralCode w :
  (∀ k, storage_fault env k = None) →
  (3 ≤ String.length username)%nat → includes "@" email = true →
  (6 ≤ String.length password)%nat →
  match register env fuel username email password referralCode w with
  | (Fulfilled res, w') =>
      (∃ e, res = Registration.mk false None (Some (message e)) ∧
            refusal env username email referralCode (users w) e ∧
            users w' = users w ∧ referrals w' = referrals w) ∨
      (Registration.success res = true ∧
       store_get User.username username (users w) = None ∧
       store_get User.email email (users w) = None ∧
       (∀ d, referredBy_of referralCode = Some d → d ∈ User.referralCode <$> users w) ∧
       ∀ v, v ∈ users w →
         User.username v ≠ toLowerCase username ∧ User.email v ≠ toLowerCase email)
  | (Rejected _, _) => False
  | (Pending, _) =>
      store_get User.username username (users w) = None ∧
      store_get User.email email (users w) = None ∧
      ∀ d, referredBy_of referralCode = Some d → d ∈ User.referralCode <$> users w
  end.
Proof.
  intros Hcalm V1 V2 V3.
  pose proof (calm_ensures_register env fuel username email password referralCode
                (users w) (referrals w) Hcalm V1 V2 V3 w (conj eq_refl eq_refl)) as H.
  destruct (register env fuel username email password referralCode w) as [[res|e|] w'];
    [|done..].
  destruct H as [(e & -> & He & -> & ->)|(n & -> & Hn & Hname & Hmail & _)].
  { left. by exists e. }
  right. destruct Hn as [_ Hu He _ _ Hby [Hid Hconflict Href _ _]].
  split_and!; try done.
  - intros d Hd. apply Href. by rewrite Hby.
  - intros v Hv.
    assert (User.id v ≠ User.id n) as Hne.
    { intros Heq. apply store_get_None in Hid. apply Hid. rewrite <- Heq.
      by apply list_elem_of_fmap_2. }
    destruct (index_conflict_false n (users w) Hconflict v Hv Hne) as (H1 & H2 & _).
    by rewrite <- Hu, <- He.
Qed.

Lemma register_says_why_witness :
  match register steady_env 3 "Alice" "alice@elsewhere.org" "secret1" None trio with
  | (Fulfilled res, w') =>
      (∃ e, res = Registration.mk false None (Some (message e)) ∧
            refusal steady_env "Alice" "alice@elsewhere.org" None (users trio) e ∧
            users w' = users trio ∧ referrals w' = referrals trio) ∨
      (Registration.success res = true ∧
       store_get User.username "Alice" (users trio) = None ∧
       store_get User.email "alice@elsewhere.org" (users trio) = None ∧
       (∀ d, referredBy_of None = Some d → d ∈ User.referralCode <$> users trio) ∧
       ∀ v, v ∈ users trio →
         User.username v ≠ toLowerCase "Alice" ∧
         User.email v ≠ toLowerCase "alice@elsewhere.org")
  | (Rejected _, _) => False
  | (Pending, _) =>
      store_get User.username "Alice" (users trio) = None ∧
      store_get User.email "alice@elsewhere.org" (users trio) = None ∧
      ∀ d, referredBy_of None = Some d → d ∈ User.referralCode <$> users trio
  end.
Proof.
  apply (register_says_why steady_env 3 "Alice" "alice@elsewhere.org" "secret1" None trio).
  - done.
  - simpl. lia.
  - reflexivity.
  - simpl. lia.
Defined.

Lemma randomCharacters_draws env n : ∀ code w,
  randomCharacters env n code w =
    (Fulfilled (drawn env n (draws w) code),
     mkWorld (users w) (referrals w) (ticks w) (n + draws w) (requests w)).
Proof.
  induction n as [|n IH]; intros code w; [by destruct w|].
  change (randomCharacters env (S n) code) with
    (i ← Math_floor_random_times env (String.length chars);
     randomCharacters env n (code +:+ charAt i chars)).
  unfold mbind, async_bind, Math_floor_random_times. rewrite IH. simpl.
  do 2 f_equal. lia.
Qed.

(** [generateReferralCode] returns the code it draws first when no stored
    user has it. *)
Lemma generateReferralCode_first env fuel w :
  storage_fault env (requests w) = None →
  store_get User.referralCode (drawn env 8 (draws w) EmptyString) (users w) = None →
  generateReferralCode env (S fuel) w =
    (Fulfilled (drawn env 8 (draws w) EmptyString),
     mkWorld (users w) (referrals w) (ticks w) (8 + draws w) (S (requests w))).
Proof.
  intros Hcalm Hfresh.
  change (generateReferralCode env (S fuel)) with
    (code ← randomCharacters env 8 EmptyString;
     existingUser ← getUserByReferralCode env code;
     match existingUser with
     | None => mret code
     | Some _ => generateReferralCode env fuel
     end).
  unfold mbind, async_bind. rewrite randomCharacters_draws.
  unfold getUserByReferralCode, request. cbn [requests users]. rewrite Hcalm.
  cbn [next_request users referrals ticks draws requests]. by rewrite Hfresh.
Qed.

(** [register] looks for the username and the email as they were typed,
    and stores them in lower case: when a stored user has the username or
    the email in lower case and the two as typed are not stored, no request
    fails and the code drawn first is new, the registration is refused all
    the same, the stores unchanged: not by the checks of [register], but by
    [addUser], its fourth request, and with the message of the
    [ConstraintError] of that request. *)
Theorem register_compares_names_as_typed env fuel username email password w v :
  (∀ k, storage_fault env k = None) →
  (3 ≤ String.length username)%nat → includes "@" email = true →
  (6 ≤ String.length password)%nat →
  store_get User.username username (users w) = None →
  store_get User.email email (users w) = None →
  v ∈ users w →
  User.username v = toLowerCase username ∨ User.email v = toLowerCase email →
  store_get User.referralCode (drawn env 8 (S (draws w)) EmptyString) (users w) = None →
  register env (S fuel) username email password None w =
    (Fulfilled
       (Registration.mk false None (Some (constraint_message env (4 + requests w)))),
     mkWorld (users w) (referrals w) (2 + ticks w) (9 + draws w) (4 + requests w)).
Proof.
  intros Hcalm V1 V2 V3 Hname Hmail Hv Hsame Hfresh. unfold register, try_catch.
  assert (bool_decide (username = EmptyString) || (String.length username <? 3)%nat = false)
    as ->.
  { apply orb_false_intro; [|by apply Nat.ltb_ge].
    apply bool_decide_eq_false. intros ->. simpl in V1. lia. }
  assert (bool_decide (email = EmptyString) || negb (includes "@" email) = false) as ->.
  { apply orb_false_intro; [|by rewrite V2]. apply bool_decide_eq_false. by intros ->. }
  assert (bool_decide (password = EmptyString) || (String.length password <? 6)%nat = false)
    as ->.
  { apply orb_false_intro; [|by apply Nat.ltb_ge].
    apply bool_decide_eq_false. intros ->. simpl in V3. lia. }
  unfold mbind, async_bind, getUserByUsername, getUserByEmail, request.
  rewrite Hcalm. cbn [next_request users referrals ticks draws requests]. rewrite Hname.
  rewrite Hcalm. cbn [next_request users referrals ticks draws requests]. rewrite Hmail.
  cbn [truthy]. unfold generateId, hashPassword, Date_now, Math_random_base36.
  unfold mbind, async_bind, mret, async_ret.
  cbn [next_request users referrals ticks draws requests].
  rewrite generateReferralCode_first by (cbn [users draws requests]; done).
  cbn [users referrals ticks draws requests].
  unfold addUser, request. cbn [users referrals ticks draws requests]. rewrite Hcalm.
  cbn [next_request users referrals ticks draws requests User.id].
  case_bool_decide as Hkey; [done|].
  match goal with |- context [index_conflict ?n (users w)] =>
    destruct (index_conflict n (users w)) eqn:Hconflict; [done|];
    destruct (index_conflict_false n (users w) Hconflict v Hv) as (H1 & H2 & _)
  end.
  - intros Heq. apply Hkey. apply store_get_is_Some. cbn [User.id] in Heq. rewrite <- Heq.
    by apply list_elem_of_fmap_2.
  - simpl in H1, H2. destruct Hsame; congruence.
Qed.

Lemma register_compares_names_as_typed_witness :
  register steady_env 1 "Alice" "alice@elsewhere.org" "secret1" None trio =
    (Fulfilled
       (Registration.mk false None (Some (constraint_message steady_env (4 + requests trio)))),
     mkWorld (users trio) (referrals trio) (2 + ticks trio) (9 + draws trio)
       (4 + requests trio)).
Proof.
  apply (register_compares_names_as_typed steady_env 0 "Alice" "alice@elsewhere.org"
           "secret1" trio alice).
  - done.
  - simpl. lia.
  - reflexivity.
  - simpl. lia.
  - reflexivity.
  - reflexivity.
  - by apply elem_of_cons; left.
  - by left.
  - reflexivity.
Defined.

Example registration_of_a_capitalised_name :
  (register steady_env 3 "Alice" "alice@elsewhere.org" "secret1" None trio).1 =
    Fulfilled
      (Registration.mk false None (Some "A constraint was not satisfied.")).
Proof. vm_compute. reflexivity. Qed.

Example registration_of_a_stored_name :
  (register steady_env 3 "alice" "alice@elsewhere.org" "secret1" None trio).1 =
    Fulfilled (Registration.mk false None (Some "Username already exists")).
Proof. vm_compute. reflexivity. Qed.

(** ** Sessions *)

Ltac run_page :=
  unfold login, getCurrentUser, isLoggedIn, isAdmin; unfold getSession;
  unfold setSession, logout,
    page_try_catch, page_throw, on_database, localStorage_getItem, localStorage_setItem,
    localStorage_removeItem, set_location_href, mbind, page_bind, mret, page_ret;
  simpl.

Lemma login_when_calm env username password b :
  (∀ k, storage_fault env k = None) →
  match store_get User.username (toLowerCase username) (users (world b)) with
  | Some user =>
      if bool_decide (sha256_hex env password = User.passwordHash user)
      then
        login env username password b =
          (Fulfilled (Registration.mk true (Some (sanitizeUser user)) None),
           mkBrowser (after_reading_clock (next_request (world b)))
             (Some (Parsed (Session.mk (User.id user) (User.username user)
                              (User.isAdmin user) (clock env (ticks (world b))))))
             (href b))
      else
        login env username password b =
          (Fulfilled (Registration.mk false None (Some "Invalid username or password")),
           mkBrowser (next_request (world b)) (sessionItem b) (href b))
  | None =>
      login env username password b =
        (Fulfilled (Registration.mk false None (Some "Invalid username or password")),
         mkBrowser (next_request (world b)) (sessionItem b) (href b))
  end.
Proof.
  intros Hcalm. run_page. unfold getUserByUsername, request. rewrite Hcalm. simpl.
  destruct (store_get User.username (toLowerCase username) (users (world b))) as [user|];
    simpl; [|done].
  unfold hashPassword. run. destruct (decide (sha256_hex env password = User.passwordHash user))
    as [Heq|Hne].
  - rewrite bool_decide_eq_true_2 by done. by rewrite bool_decide_eq_false_2 by (by intros ?).
  - rewrite bool_decide_eq_false_2 by done. by rewrite bool_decide_eq_true_2 by done.
Qed.

(** [login] is never rejected, whatever fails.  When no request fails it
    succeeds exactly when a user is stored under the username in lower case
    and the digest of the password is the stored one: it then returns that
    user without the password hash and stores a session with the id, the
    username and the rights of the user and the time of the clock.
    Otherwise it returns the same message whether the user is unknown or the
    password is wrong, and leaves the session item as it was. *)
Theorem login_outcome env username password b :
  (∀ e, (login env username password b).1 ≠ Rejected e) ∧
  ((∀ k, storage_fault env k = None) →
  match store_get User.username (toLowerCase username) (users (world b)) with
  | Some user =>
      if bool_decide (sha256_hex env password = User.passwordHash user)
      then
        login env username password b =
          (Fulfilled (Registration.mk true (Some (sanitizeUser user)) None),
           mkBrowser (after_reading_clock (next_request (world b)))
             (Some (Parsed (Session.mk (User.id user) (User.username user)
                              (User.isAdmin user) (clock env (ticks (world b))))))
             (href b))
      else
        login env username password b =
          (Fulfilled (Registration.mk false None (Some "Invalid username or password")),
           mkBrowser (next_request (world b)) (sessionItem b) (href b))
  | None =>
      login env username password b =
        (Fulfilled (Registration.mk false None (Some "Invalid username or password")),
         mkBrowser (next_request (world b)) (sessionItem b) (href b))
  end).
Proof.
  split; [|by apply login_when_calm].
  intros e. unfold login, page_try_catch. by destruct (_ ≫= _) as [[res|e'|] b'].
Qed.

Lemma login_outcome_witness :
  (∀ e, (login steady_env "Alice" "password" (mkBrowser trio None "login.html")).1 ≠
        Rejected e) ∧
  match store_get User.username (toLowerCase "Alice") (users trio) with
  | Some user =>
      if bool_decide (sha256_hex steady_env "password" = User.passwordHash user)
      then
        login steady_env "Alice" "password" (mkBrowser trio None "login.html") =
          (Fulfilled (Registration.mk true (Some (sanitizeUser user)) None),
           mkBrowser (after_reading_clock (next_request trio))
             (Some (Parsed (Session.mk (User.id user) (User.username user)
                              (User.isAdmin user) (clock steady_env (ticks trio)))))
             "login.html")
      else
        login steady_env "Alice" "password" (mkBrowser trio None "login.html") =
          (Fulfilled (Registration.mk false None (Some "Invalid username or password")),
           mkBrowser (next_request trio) None "login.html")
  | None =>
      login steady_env "Alice" "password" (mkBrowser trio None "login.html") =
        (Fulfilled (Registration.mk false None (Some "Invalid username or password")),
         mkBrowser (next_request trio) None "login.html")
  end.
Proof.
  destruct (login_outcome steady_env "Alice" "password" (mkBrowser trio None "login.html"))
    as [Hsettles Hcalm].
  split; [exact Hsettles|]. apply Hcalm. reflexivity.
Defined.

Example login_of_alice :
  login steady_env "Alice" "password" (mkBrowser trio None "login.html") =
    (Fulfilled
       (Registration.mk true
          (Some (PublicUser.mk "user_1_a" "alice" "alice@example.org" "ALICE001" None false
                   1700000000000 0 (EarningsByLevel.mk 0 0 0 0)))
          None),
     mkBrowser (mkWorld [alice; bob; carol] [] 1 0 1)
       (Some (Parsed (Session.mk "user_1_a" "alice" false 1700000000000))) "login.html").
Proof. vm_compute. reflexivity. Qed.

(** A session lasts a day.  With a session stored, and no more than
    [expiryTime] milliseconds after the time it bears, [getSession] returns
    it, [isLoggedIn] is true, [isAdmin] is the right the session bears and
    [getCurrentUser] is the user stored under its id, [undefined] if there is
    none; later than that [getSession] removes the item, sets the location to
    [index.html] and returns [null], as do the others.  Without item, or
    with one that does not parse, all return [null] or [false] and change
    nothing, and the clock is not read. *)
Theorem session_lasts_a_day env b :
  match sessionItem b with
  | Some (Parsed session) =>
      if decide (clock env (ticks (world b)) - Session.timestamp session ≤ expiryTime)
      then
        getSession env b =
          (Fulfilled (Some session),
           mkBrowser (after_reading_clock (world b)) (sessionItem b) (href b)) ∧
        (isLoggedIn env b).1 = Fulfilled true ∧
        (isAdmin env b).1 = Fulfilled (Some (Session.isAdmin session)) ∧
        (storage_fault env (requests (world b)) = None →
         (getCurrentUser env b).1 =
           Fulfilled (store_get User.id (Session.userId session) (users (world b))))
      else
        getSession env b =
          (Fulfilled None, mkBrowser (after_reading_clock (world b)) None "index.html") ∧
        (isLoggedIn env b).1 = Fulfilled false ∧
        (isAdmin env b).1 = Fulfilled None ∧
        (getCurrentUser env b).1 = Fulfilled None
  | _ =>
      getSession env b = (Fulfilled None, b) ∧
      (isLoggedIn env b).1 = Fulfilled false ∧
      (isAdmin env b).1 = Fulfilled None ∧
      (getCurrentUser env b).1 = Fulfilled None
  end.
Proof.
  destruct b as [w item url]. simpl. destruct item as [[|session]|]; [by run_page| |by run_page].
  destruct (decide (clock env (ticks w) - Session.timestamp session ≤ expiryTime)) as [H|H].
  - assert ((expiryTime <? clock env (ticks w) - Session.timestamp session) = false) as Hlate
      by (apply Z.ltb_ge; lia).
    run_page. rewrite Hlate. simpl. split_and!; try done.
    intros Hf. unfold getUserById, request. simpl. by rewrite Hf.
  - assert ((expiryTime <? clock env (ticks w) - Session.timestamp session) = true) as Hlate
      by (apply Z.ltb_lt; lia).
    run_page. by rewrite Hlate.
Qed.

Lemma session_lasts_a_day_witness :
  getSession steady_env
    (mkBrowser trio (Some (Parsed (Session.mk "user_2_b" "bob" false 1699990000000)))
       "dashboard.html") =
    (Fulfilled (Some (Session.mk "user_2_b" "bob" false 1699990000000)),
     mkBrowser (after_reading_clock trio)
       (Some (Parsed (Session.mk "user_2_b" "bob" false 1699990000000))) "dashboard.html") ∧
  (isLoggedIn steady_env
     (mkBrowser trio (Some (Parsed (Session.mk "user_2_b" "bob" false 1699990000000)))
        "dashboard.html")).1 = Fulfilled true ∧
  (isAdmin steady_env
     (mkBrowser trio (Some (Parsed (Session.mk "user_2_b" "bob" false 1699990000000)))
        "dashboard.html")).1 = Fulfilled (Some false) ∧
  (getCurrentUser steady_env
     (mkBrowser trio (Some (Parsed (Session.mk "user_2_b" "bob" false 1699990000000)))
        "dashboard.html")).1 = Fulfilled (Some bob).
Proof.
  pose proof (session_lasts_a_day steady_env
                (mkBrowser trio
                   (Some (Parsed (Session.mk "user_2_b" "bob" false 1699990000000)))
                   "dashboard.html")) as H.
  simpl in H. destruct H as (H1 & H2 & H3 & H4).
  split_and!; [exact H1|exact H2|exact H3|exact (H4 eq_refl)].
Defined.

Example session_of_yesterday :
  getSession steady_env
    (mkBrowser trio (Some (Parsed (Session.mk "user_1_a" "alice" false 1613600000000)))
       "dashboard.html") =
    (Fulfilled None, mkBrowser (after_reading_clock trio) None "index.html").
Proof. vm_compute. reflexivity. Qed.

(** Who has registered can log in.  After a registration that succeeded on
    a store that IndexedDB can hold, and when no request fails, [login] with
    the password, and with the username in whatever letter case, succeeds
    with the registered user and stores a session of that user, who is no
    administrator; with a password of another digest it fails. *)
Theorem registered_users_can_log_in env fuel username email password referralCode
    typed b account :
  (∀ k, storage_fault env k = None) → wf_users (users (world b)) →
  (register env fuel username email password referralCode (world b)).1 =
    Fulfilled (Registration.mk true (Some account) None) →
  toLowerCase typed = toLowerCase username →
  (∃ account' b',
     login env typed password
       (mkBrowser (register env fuel username email password referralCode (world b)).2
          (sessionItem b) (href b)) =
       (Fulfilled (Registration.mk true (Some account') None), b') ∧
     PublicUser.id account' = PublicUser.id account ∧
     PublicUser.username account' = toLowerCase username ∧
     ∃ timestamp,
       sessionItem b' =
         Some (Parsed (Session.mk (PublicUser.id account) (toLowerCase username) false
                         timestamp))) ∧
  (∀ other, sha256_hex env other ≠ sha256_hex env password →
     (login env typed other
        (mkBrowser (register env fuel username email password referralCode (world b)).2
           (sessionItem b) (href b))).1 =
       Fulfilled (Registration.mk false None (Some "Invalid username or password"))).
Proof.
  intros Hcalm Hwf Hres Htyped.
  pose proof (ensures_register env fuel username email password referralCode
                (users (world b)) (referrals (world b)) (world b) (conj eq_refl eq_refl))
    as H.
  destruct (register env fuel username email password referralCode (world b))
    as [[res|e|] w']; simpl in Hres; [|done..]. injection Hres as ->.
  destruct H as [(Hs & _)|(n & Heq & Hn & Hshape & _)]; [done|].
  injection Heq as ->. simpl.
  destruct Hn as [_ Hname _ Hhash Hadmin _ Hadm].
  pose proof (wf_users_store_put n _ Hwf (admissible_indexes _ _ Hadm)) as Hwf'.
  assert (store_get User.username (toLowerCase typed) (store_put User.id n (users (world b)))
            = Some n) as Hget.
  { rewrite Htyped, <- Hname. apply store_get_NoDup; [apply Hwf'|].
    by apply (store_get_Some User.id (User.id n)), store_get_put_eq. }
  assert (∃ n', store_get User.username (toLowerCase typed) (users w') = Some n' ∧
                shape n' = shape n) as (n' & Hget' & Hsame).
  { pose proof (store_get_same_shape User.username (toLowerCase typed) _ _
                  (λ u, eq_refl) Hshape) as Hl.
    rewrite Hget in Hl. destruct (store_get User.username (toLowerCase typed) (users w'))
      as [n'|]; [|done]. exists n'. split; [done|].
    exact (f_equal (default (shape n)) Hl). }
  assert (User.passwordHash n' = sha256_hex env password ∧ User.id n' = User.id n ∧
          User.username n' = toLowerCase username ∧ User.isAdmin n' = false)
    as (Hhash' & Hid' & Hname' & Hadmin').
  { apply (f_equal User.passwordHash) in Hsame as H1.
    apply (f_equal User.username) in Hsame as H2.
    apply (f_equal User.isAdmin) in Hsame as H3.
    apply shape_id in Hsame. simpl in *. split_and!; congruence. }
  split.
  - pose proof (login_when_calm env typed password (mkBrowser w' (sessionItem b) (href b))
                  Hcalm) as Hlogin.
    simpl in Hlogin. rewrite Hget' in Hlogin.
    rewrite bool_decide_eq_true_2 in Hlogin by done.
    eexists _, _. split; [exact Hlogin|]. simpl.
    split_and!; try done. eexists. by rewrite Hid', Hname', Hadmin'.
  - intros other Hother.
    pose proof (login_when_calm env typed other (mkBrowser w' (sessionItem b) (href b))
                  Hcalm) as Hlogin.
    simpl in Hlogin. rewrite Hget' in Hlogin.
    rewrite bool_decide_eq_false_2 in Hlogin by congruence. by rewrite Hlogin.
Qed.

Lemma registered_users_can_log_in_witness :
  (∃ account' b',
     login steady_env "GINA" "secret1"
       (mkBrowser
          (register steady_env 3 "Gina" "Gina@Example.org" "secret1" (Some "carol003")
             trio).2
          None "register.html") =
       (Fulfilled (Registration.mk true (Some account') None), b') ∧
     PublicUser.id account' = "user_1700000000000_k3j9x0q2a" ∧
     PublicUser.username account' = toLowerCase "Gina" ∧
     ∃ timestamp,
       sessionItem b' =
         Some (Parsed (Session.mk "user_1700000000000_k3j9x0q2a" (toLowerCase "Gina") false
                         timestamp))) ∧
  (∀ other, sha256_hex steady_env other ≠ sha256_hex steady_env "secret1" →
     (login steady_env "GINA" other
        (mkBrowser
           (register steady_env 3 "Gina" "Gina@Example.org" "secret1" (Some "carol003")
              trio).2
           None "register.html")).1 =
       Fulfilled (Registration.mk false None (Some "Invalid username or password"))).
Proof.
  apply (registered_users_can_log_in steady_env 3 "Gina" "Gina@Example.org" "secret1"
           (Some "carol003") "GINA" (mkBrowser trio None "register.html")
           (PublicUser.mk "user_1700000000000_k3j9x0q2a" "gina" "gina@example.org"
              "BCDEFGHI" (Some "CAROL003") false 1700000000001 0
              (EarningsByLevel.mk 0 0 0 0))).
  - done.
  - apply wf_users_by_computation; vm_compute; reflexivity.
  - vm_compute. reflexivity.
  - reflexivity.
Defined.
